(** * Domain cache and background sync of the Plesk API client

    A shallow embedding of the cache / sync methods of [PleskAPIClient]
    (lib/pleskClient.js): the [domain_cache] table and the SQL statements
    the client sends, the upstream REST calls, the client methods written
    in a state-and-exception monad, and the promise that runs the
    status sync in the background. *)

From Stdlib Require Import ZArith List String Ascii Bool Lia PeanoNat.
From Stdlib Require Import Sorting.Sorted Sorting.Permutation.
Import ListNotations.

Local Open Scope string_scope.
Local Open Scope list_scope.

(* ================================================================== *)
(** ** JavaScript values used by the cache code *)

(** A property or argument that holds a string when it holds anything. *)
Inductive JsValue :=
| Undefined
| Null
| Str (s : string).

(** [undefined], [null] and the empty string are falsy. *)
Definition truthy (v : JsValue) : bool :=
  match v with
  | Str s => negb (s =? EmptyString)
  | _ => false
  end.

(** [a || b] on such values. *)
Definition js_or (a b : JsValue) : JsValue :=
  if truthy a then a else b.

(** [a || 'literal']. *)
Definition js_or_lit (a : JsValue) (d : string) : string :=
  match a with
  | Str s => if s =? EmptyString then d else s
  | _ => d
  end.

(** The string of [if (nameFilter) { ... nameFilter ... }], when the
    branch is taken. *)
Definition filter_of (v : JsValue) : option string :=
  match v with
  | Str s => if s =? EmptyString then None else Some s
  | _ => None
  end.

(** A value as [JSON.parse] returns it; a number is kept as the text
    it was written with. *)
#[warnings="-register-all"]
Inductive JsonValue :=
| JNull
| JBool (b : bool)
| JNumber (text : string)
| JString (s : string)
| JArray (items : list JsonValue)
| JObject (members : list (string * JsonValue)).

(** ASCII part of [String.prototype.toLowerCase]. *)
Definition lower_ascii (c : ascii) : ascii :=
  let n := nat_of_ascii c in
  if (65 <=? n)%nat && (n <=? 90)%nat then ascii_of_nat (n + 32) else c.

Fixpoint toLowerCase (s : string) : string :=
  match s with
  | EmptyString => EmptyString
  | String c r => String (lower_ascii c) (toLowerCase r)
  end.

(** [s.includes(sub)]. *)
Fixpoint includes (s sub : string) : bool :=
  String.prefix sub s ||
  match s with
  | EmptyString => false
  | String _ r => includes r sub
  end.

(* ================================================================== *)
(** ** Data model *)

(** An item of the upstream listing [GET /domains], with the properties
    the cache code reads. *)
Record Domain := mkDomain {
  d_id : Z;
  d_name : JsValue;
  d_ascii_name : JsValue;
  d_created : JsValue;
  d_created_at : JsValue;
  d_owner : JsValue;
  d_owner_login : JsValue;
  d_hosting_type : JsValue;
  d_www_root : JsValue;
  d_ip_addresses : option (list string)
}.

(** Value of the [created] column: the upstream text, or the [new Date()]
    the batch sync substitutes when upstream gives none. *)
Inductive Created :=
| CreatedText (s : string)
| CreatedNow.

(** A row of [domain_cache]. The JSON column [ip_addresses] is the list
    it serialises. *)
Record Row := mkRow {
  id : Z;
  name : string;
  status : string;      (* the ENUM column, as the string it was given *)
  created : option Created;
  owner : string;
  hosting_type : string;
  www_root : string;
  ip_addresses : list string;
  last_updated : Z;
  sync_error : option string
}.

Definition Table := list Row.

(** [id INT PRIMARY KEY]. *)
Definition primary_key (t : Table) : Prop := NoDup (map id t).

Definition has_id (i : Z) (t : Table) : bool :=
  existsb (fun r => (id r =? i)%Z) t.

Definition rows_with_id (i : Z) (t : Table) : Table :=
  filter (fun r => (id r =? i)%Z) t.

(* ================================================================== *)
(** ** The SQL statements sent by the client *)

(** [INSERT INTO domain_cache ... VALUES v ON DUPLICATE KEY UPDATE ...]:
    [upd old v] is the row left by the UPDATE list when the key exists. *)
Definition insert_on_duplicate (upd : Row -> Row -> Row) (v : Row) (t : Table)
  : Table :=
  if has_id (id v) t
  then map (fun r => if (id r =? id v)%Z then upd r v else r) t
  else t ++ [v].

(** UPDATE list of [fetchAndStoreDomains]: every column except [status]
    and [sync_error]. *)
Definition update_listing (old v : Row) : Row :=
  {| id := id old; name := name v; status := status old;
     created := created v; owner := owner v;
     hosting_type := hosting_type v; www_root := www_root v;
     ip_addresses := ip_addresses v; last_updated := last_updated v;
     sync_error := sync_error old |}.

(** UPDATE list of [syncDomainBatch]: every column. *)
Definition update_full (old v : Row) : Row :=
  {| id := id old; name := name v; status := status v;
     created := created v; owner := owner v;
     hosting_type := hosting_type v; www_root := www_root v;
     ip_addresses := ip_addresses v; last_updated := last_updated v;
     sync_error := sync_error v |}.

Definition upsert_listing : Row -> Table -> Table :=
  insert_on_duplicate update_listing.

Definition upsert_full : Row -> Table -> Table :=
  insert_on_duplicate update_full.

(** [UPDATE domain_cache SET status = ?, last_updated = NOW() WHERE id = ?]. *)
Definition set_status (now : Z) (st : string) (r : Row) : Row :=
  {| id := id r; name := name r; status := st;
     created := created r; owner := owner r;
     hosting_type := hosting_type r; www_root := www_root r;
     ip_addresses := ip_addresses r; last_updated := now;
     sync_error := sync_error r |}.

Definition update_status (now : Z) (st : string) (i : Z) (t : Table) : Table :=
  map (fun r => if (id r =? i)%Z then set_status now st r else r) t.

(** [DELETE FROM domain_cache]. *)
Definition delete_all (t : Table) : Table := [].

(** [ORDER BY]: a stable insertion sort under the column's order. *)
Fixpoint insert_by {A} (leb : A -> A -> bool) (x : A) (l : list A) : list A :=
  match l with
  | [] => [x]
  | y :: r => if leb x y then x :: l else y :: insert_by leb x r
  end.

Fixpoint order_by {A} (leb : A -> A -> bool) (l : list A) : list A :=
  match l with
  | [] => []
  | x :: r => insert_by leb x (order_by leb r)
  end.

(** [SELECT id, name FROM domain_cache ORDER BY last_updated ASC]. *)
Definition select_by_last_updated (t : Table) : list Row :=
  order_by (fun a b => (last_updated a <=? last_updated b)%Z) t.

(** [SELECT * FROM domain_cache WHERE 1=1 [AND name LIKE ?] ORDER BY name];
    [like] and [leb] are the server's pattern match and collation order. *)
Definition select_by_name (like : string -> string -> bool)
    (leb : string -> string -> bool) (pattern : option string) (t : Table)
  : list Row :=
  order_by (fun a b => leb (name a) (name b))
    (match pattern with
     | Some p => filter (fun r => like p (name r)) t
     | None => t
     end).

(* ================================================================== *)
(** ** Upstream REST API *)

Inductive Endpoint :=
| GetDomains (query : option string)   (* /domains[?name=...] *)
| GetDomainStatus (i : Z).             (* /domains/{id}/status *)

(** A response body: an array of listing items, an object with its
    [status] property, or anything else. *)
Inductive Payload :=
| PArray (items : list Domain)
| PObject (st : JsValue)
| POther.

(** The two shapes [executeRequest] returns. *)
Inductive ApiResponse :=
| ApiOk (data : Payload) (http : Z)
| ApiErr (error : string) (http : Z).

(** [Array.isArray(response.data) ? response.data : []]. *)
Definition as_array (p : Payload) : list Domain :=
  match p with
  | PArray l => l
  | _ => []
  end.

(** The status both sync loops compute from a status response:
    [let status = 'unknown'; if (r.success && r.data && r.data.status)
    status = r.data.status]. *)
Definition status_of_response (r : ApiResponse) : string :=
  match r with
  | ApiOk (PObject st) _ => js_or_lit st "unknown"
  | _ => "unknown"
  end.

(* ================================================================== *)
(** ** The world the client runs in *)

(** What a run leaves behind for an observer, oldest first: upstream
    requests, pacing delays, and the two log lines of the run guard and
    of the background promise chain (other console output is left out). *)
Inductive Event :=
| Api (e : Endpoint)
| Sleep (ms : Z)
| Log (msg : string).

Record World := mkWorld {
  cache : Table;              (* the domain_cache table *)
  dbPool : bool;              (* this.dbPool is set *)
  statusSyncRunning : bool;   (* this.statusSyncRunning *)
  pending : nat;              (* performStatusSync promises in flight *)
  db_ops : nat;               (* database operations issued so far *)
  api_calls : nat;            (* upstream requests issued so far *)
  trace : list Event
}.

(** The environment: which database operations fail and with what
    message, the server clock at each operation, the upstream's answer to
    each request, the server's LIKE and collation order, and
    [JSON.parse] on a text, [None] when it raises. *)
Record Env := mkEnv {
  db_fault : nat -> option string;
  db_now : nat -> Z;
  upstream : nat -> Endpoint -> ApiResponse;
  name_like : string -> string -> bool;
  name_leb : string -> string -> bool;
  json_parse : string -> option JsonValue
}.

Definition with_cache (f : Table -> Table) (w : World) : World :=
  mkWorld (f (cache w)) (dbPool w) (statusSyncRunning w) (pending w)
          (db_ops w) (api_calls w) (trace w).

Definition with_event (e : Event) (w : World) : World :=
  mkWorld (cache w) (dbPool w) (statusSyncRunning w) (pending w)
          (db_ops w) (api_calls w) (trace w ++ [e]).

Definition with_db_op (w : World) : World :=
  mkWorld (cache w) (dbPool w) (statusSyncRunning w) (pending w)
          (S (db_ops w)) (api_calls w) (trace w).

Definition with_api_call (e : Endpoint) (w : World) : World :=
  mkWorld (cache w) (dbPool w) (statusSyncRunning w) (pending w)
          (db_ops w) (S (api_calls w)) (trace w ++ [Api e]).

Definition with_guard (flag : bool) (p : nat) (w : World) : World :=
  mkWorld (cache w) (dbPool w) flag p (db_ops w) (api_calls w) (trace w).

(** The client right after its constructor: the pool exists, the guard
    field was never assigned. *)
Definition new_client (t : Table) : World :=
  mkWorld t true false 0 0 0 [].

(* ================================================================== *)
(** ** State and exceptions *)

Inductive Outcome (A : Type) :=
| Ret (a : A)
| Throw (msg : string).
Arguments Ret {A} a.
Arguments Throw {A} msg.

Definition M (A : Type) : Type := World -> Outcome A * World.

Definition ret {A} (a : A) : M A := fun w => (Ret a, w).

Definition throw {A} (msg : string) : M A := fun w => (Throw msg, w).

Definition bind {A B} (m : M A) (k : A -> M B) : M B :=
  fun w =>
    match m w with
    | (Ret a, w') => k a w'
    | (Throw e, w') => (Throw e, w')
    end.

(** [try { m } catch (error) { h error.message }]. *)
Definition try_catch {A} (m : M A) (h : string -> M A) : M A :=
  fun w =>
    match m w with
    | (Ret a, w') => (Ret a, w')
    | (Throw e, w') => h e w'
    end.

Definition gets {A} (f : World -> A) : M A := fun w => (Ret (f w), w).

Definition modify (f : World -> World) : M unit := fun w => (Ret tt, f w).

Notation "x <- m ;; k" := (bind m (fun x => k))
  (at level 61, m at next level, right associativity).
Notation "m ;;; k" := (bind m (fun _ => k))
  (at level 61, right associativity).

(** [for (const x of l) { body x }]. *)
Fixpoint for_each {A} (body : A -> M unit) (l : list A) : M unit :=
  match l with
  | [] => ret tt
  | x :: r => body x ;;; for_each body r
  end.

(** [l.slice(i, j)]. *)
Definition slice {A} (i j : nat) (l : list A) : list A :=
  firstn (j - i) (skipn i l).

Definition sleep (ms : Z) : M unit := modify (with_event (Sleep ms)).

Definition log (msg : string) : M unit := modify (with_event (Log msg)).

(** The loop shared by [performBackgroundSync] and [performStatusSync]:
    [for (let i = 0; i < items.length; i += batchSize) {
       body(items.slice(i, i + batchSize));
       if (i + batchSize < items.length) await sleep(delay); }].
    Each turn moves [i] forward, so [length items] turns of fuel cover
    the loop. *)
Fixpoint batch_loop {A} (batchSize : nat) (delay : Z)
    (body : list A -> M unit) (items : list A) (fuel i : nat) : M unit :=
  match fuel with
  | O => ret tt
  | S fuel' =>
      if (i <? List.length items)%nat then
        body (slice i (i + batchSize) items) ;;;
        (if (i + batchSize <? List.length items)%nat then sleep delay else ret tt) ;;;
        batch_loop batchSize delay body items fuel' (i + batchSize)
      else ret tt
  end.

(* ================================================================== *)
(** ** What the facade returns *)

(** A domain as the read path returns it. *)
Record DomainView := mkView {
  v_id : Z;
  v_name : string;
  v_status : string;
  v_created : option Created;
  v_owner : string;
  v_hosting_type : option string;
  v_www_root : option string;
  v_ipAddresses : JsonValue
}.

Inductive Message :=
| FromCache (n : nat)        (* Retrieved n domains from cache *)
| SyncInProgress (n : nat)   (* Retrieved n domains, status sync in progress *)
| TestData.                  (* Retrieved domains from test data (Plesk unavailable) *)

(** Result of a [listDomains]: the cache-first shape with its optional
    [fromCache] property, or a forwarded upstream response. *)
Inductive ListResult :=
| Listed (data : list DomainView) (message : Message) (fromCache : option bool)
| Forwarded (r : ApiResponse).

(** [{ success: true, count }] or [{ success: false, error }]. *)
Inductive FetchResult :=
| FetchOk (count : nat)
| FetchErr (error : string).

(** What [JSON.parse(row.ip_addresses)] is given to read. The column is
    declared JSON, so mysql2 hands it over decoded, as the array that was
    stored; [JSON.parse] first turns its argument into text, which for an
    array is its elements joined by commas. *)
Definition ip_text (r : Row) : string :=
  String.concat "," (ip_addresses r).

(** The object [getDomainsFromCache] builds for a row, [None] when
    [JSON.parse] raises. An array is truthy, so the parse is always
    attempted. *)
Definition view_of_row (env : Env) (r : Row) : option DomainView :=
  match json_parse env (ip_text r) with
  | Some ips =>
      Some (mkView (id r) (name r)
              (if status r =? EmptyString then "unknown" else status r)
              (created r) (owner r) (Some (hosting_type r))
              (Some (www_root r)) ips)
  | None => None
  end.

(** [rows.map(f)] for an [f] that may raise: all the results, or
    [None] as soon as one call raises. *)
Fixpoint map_or_raise {A B} (f : A -> option B) (l : list A)
  : option (list B) :=
  match l with
  | [] => Some []
  | x :: r =>
      match f x with
      | Some y => option_map (cons y) (map_or_raise f r)
      | None => None
      end
  end.

(** The message of the SyntaxError of [JSON.parse]; the callers only
    log it. *)
Definition json_error : string := "Unexpected token in JSON".

Definition testDomains : list DomainView :=
  [ mkView 1 "example.com" "active"
      (Some (CreatedText "2024-01-15T10:30:00.000Z")) "admin" None None
      (JArray [JString "192.168.1.100"]);
    mkView 2 "test.org" "suspended"
      (Some (CreatedText "2024-02-01T14:22:00.000Z")) "client1" None None
      (JArray [JString "192.168.1.101"]);
    mkView 45 "afinformatica.spot4all.com" "suspended"
      (Some (CreatedText "2024-03-10T09:15:00.000Z")) "client3" None None
      (JArray [JString "192.168.1.103"]) ].

(** [getTestDomains(nameFilter)]. *)
Definition getTestDomains (nameFilter : JsValue) : ListResult :=
  Listed
    (match filter_of nameFilter with
     | Some f =>
         filter (fun d => includes (toLowerCase (v_name d)) (toLowerCase f))
                testDomains
     | None => testDomains
     end)
    TestData None.

(** mysql2 rejects an [undefined] bind parameter before sending anything. *)
Definition bind_error : string :=
  "Bind parameters must not contain undefined. To pass SQL NULL specify JS null".

Definition ips_or_empty (d : Domain) : list string :=
  match d_ip_addresses d with
  | Some l => l
  | None => []
  end.

(** [domain.name || domain.ascii_name] and
    [domain.created || domain.created_at]. *)
Definition bound_name (d : Domain) : JsValue :=
  js_or (d_name d) (d_ascii_name d).

Definition bound_created (d : Domain) : JsValue :=
  js_or (d_created d) (d_created_at d).

(** What becomes of the parameters of an INSERT: they are bound, or
    mysql2 refuses an [undefined] one before sending anything, or the
    server refuses a NULL for the NOT NULL column [name]. *)
Inductive Binding (A : Type) :=
| Bound (a : A)
| NotBindable
| Refused (msg : string).
Arguments Bound {A} a.
Arguments NotBindable {A}.
Arguments Refused {A} msg.

Definition name_is_null : string := "Column 'name' cannot be null".

(** The name and creation date [fetchAndStoreDomains] binds for an item. *)
Definition listing_binds (d : Domain)
  : Binding (string * option Created) :=
  match bound_name d, bound_created d with
  | Undefined, _ => NotBindable
  | _, Undefined => NotBindable
  | Null, _ => Refused name_is_null
  | Str n, Null => Bound (n, None)
  | Str n, Str c => Bound (n, Some (CreatedText c))
  end.

(** The VALUES row of the INSERT in [fetchAndStoreDomains]. *)
Definition listing_values (now : Z) (p : string * option Created)
    (d : Domain) : Row :=
  mkRow (d_id d) (fst p) "unknown" (snd p)
        (js_or_lit (js_or (d_owner d) (d_owner_login d)) "admin")
        (js_or_lit (d_hosting_type d) "virtual")
        (js_or_lit (d_www_root d) EmptyString)
        (ips_or_empty d) now None.

(** The name [syncDomainBatch] binds for an item. *)
Definition batch_binds (d : Domain) : Binding string :=
  match bound_name d with
  | Undefined => NotBindable
  | Null => Refused name_is_null
  | Str n => Bound n
  end.

(** The VALUES row of the INSERT in [syncDomainBatch]; a missing creation
    date becomes [new Date()]. *)
Definition batch_values (now : Z) (n : string) (d : Domain) (st : string)
    (syncError : option string) : Row :=
  mkRow (d_id d) n st
        (match bound_created d with
         | Str c => if c =? EmptyString then Some CreatedNow else Some (CreatedText c)
         | _ => Some CreatedNow
         end)
        (js_or_lit (js_or (d_owner d) (d_owner_login d)) "admin")
        (js_or_lit (d_hosting_type d) "virtual")
        (js_or_lit (d_www_root d) EmptyString)
        (ips_or_empty d) now syncError.

(* ================================================================== *)
(** ** The client methods *)

Section Client.

Variable env : Env.

(** One round trip to the database (a [getConnection] or an [execute]):
    it throws when the environment says so, else yields the server time. *)
Definition db_op : M Z :=
  fun w =>
    match db_fault env (db_ops w) with
    | Some e => (Throw e, with_db_op w)
    | None => (Ret (db_now env (db_ops w)), with_db_op w)
    end.

Definition getConnection : M unit := db_op ;;; ret tt.

(** [connection.execute] of a statement that changes the table. *)
Definition execute (stmt : Z -> Table -> Table) : M unit :=
  now <- db_op ;; modify (with_cache (stmt now)).

(** [connection.execute] of an INSERT with parameters [b]. *)
Definition execute_bound {A} (b : Binding A) (stmt : A -> Z -> Table -> Table)
  : M unit :=
  match b with
  | Bound a => execute (stmt a)
  | NotBindable => throw bind_error
  | Refused msg => db_op ;;; throw msg
  end.

(** [connection.execute] of a SELECT. *)
Definition query {A} (sel : Table -> A) : M A :=
  db_op ;;; gets (fun w => sel (cache w)).

(** [executeRequest('GET', endpoint)]: both the success and the failure
    of the HTTP call come back as a value; nothing is thrown. *)
Definition executeRequest (e : Endpoint) : M ApiResponse :=
  fun w => (Ret (upstream env (api_calls w) e), with_api_call e w).

(** [getDomainsFromCache(nameFilter)]. *)
Definition getDomainsFromCache (nameFilter : JsValue)
  : M (list DomainView) :=
  try_catch
    (pool <- gets dbPool ;;
     if negb pool then ret []
     else
       getConnection ;;;
       rows <- query (select_by_name (name_like env) (name_leb env)
                        (option_map
                           (fun f => String.append "%" (String.append f "%"))
                           (filter_of nameFilter))) ;;
       match map_or_raise (view_of_row env) rows with
       | Some views => ret views
       | None => throw json_error
       end)
    (fun _ => ret []).

(** The INSERT ... ON DUPLICATE KEY UPDATE of [fetchAndStoreDomains]. *)
Definition store_listing_item (d : Domain) : M unit :=
  execute_bound (listing_binds d)
    (fun p now => upsert_listing (listing_values now p d)).

(** [fetchAndStoreDomains()]. *)
Definition fetchAndStoreDomains : M FetchResult :=
  try_catch
    (response <- executeRequest (GetDomains None) ;;
     match response with
     | ApiErr e _ => ret (FetchErr e)
     | ApiOk data _ =>
         let domains := as_array data in
         pool <- gets dbPool ;;
         (if pool
          then getConnection ;;; for_each store_listing_item domains
          else ret tt) ;;;
         ret (FetchOk (List.length domains))
     end)
    (fun msg => ret (FetchErr msg)).

(** [startStatusSync()]: the check and the assignment run without an
    [await] between them; the run itself is left pending. *)
Definition startStatusSync : M unit :=
  running <- gets statusSyncRunning ;;
  if running then log "Status sync already running"
  else modify (fun w => with_guard true (S (pending w)) w).

(** One turn of the inner loop of [performStatusSync]. *)
Definition sync_status_of (domain : Row) : M unit :=
  try_catch
    (statusResponse <- executeRequest (GetDomainStatus (id domain)) ;;
     let st := status_of_response statusResponse in
     execute (fun now => update_status now st (id domain)))
    (fun _ => ret tt).

(** [performStatusSync()]. *)
Definition performStatusSync : M unit :=
  try_catch
    (pool <- gets dbPool ;;
     if negb pool then ret tt
     else
       getConnection ;;;
       domains <- query select_by_last_updated ;;
       batch_loop 5 3000 (for_each sync_status_of) domains
                  (List.length domains) 0)
    (fun _ => ret tt).

(** One turn of the loop of [syncDomainBatch]. *)
Definition sync_domain (domain : Domain) : M unit :=
  try_catch
    (r <- try_catch
            (statusResponse <- executeRequest (GetDomainStatus (d_id domain)) ;;
             ret (status_of_response statusResponse, None))
            (fun statusError => ret ("unknown", Some statusError)) ;;
     let '(st, syncError) := r in
     execute_bound (batch_binds domain)
       (fun n now => upsert_full (batch_values now n domain st syncError)))
    (fun _ => ret tt).

(** [syncDomainBatch(connection, domains)]. *)
Definition syncDomainBatch (domains : list Domain) : M unit :=
  for_each sync_domain domains.

(** [performBackgroundSync()]. *)
Definition performBackgroundSync : M unit :=
  try_catch
    (response <- executeRequest (GetDomains None) ;;
     match response with
     | ApiErr e _ => throw e
     | ApiOk data _ =>
         let domains := as_array data in
         getConnection ;;;
         batch_loop 10 2000 syncDomainBatch domains (List.length domains) 0
     end)
    (fun _ => ret tt).

(** [updateDomainStatusInCache(domainId, status)]. *)
Definition updateDomainStatusInCache (domainId : Z) (st : string) : M unit :=
  try_catch
    (getConnection ;;;
     execute (fun now => update_status now st domainId))
    (fun _ => ret tt).

(** [refreshDomains()]. *)
Definition refreshDomains : M FetchResult :=
  try_catch
    (pool <- gets dbPool ;;
     (if pool
      then getConnection ;;; execute (fun _ => delete_all)
      else ret tt) ;;;
     result <- fetchAndStoreDomains ;;
     (match result with
      | FetchOk _ => startStatusSync
      | FetchErr _ => ret tt
      end) ;;;
     ret result)
    (fun msg => ret (FetchErr msg)).

(** [listDomains(nameFilter)] as first declared in the class body: the
    cache-first read. *)
Definition listDomains_cache_first (nameFilter : JsValue)
  : M ListResult :=
  try_catch
    (cachedDomains <- getDomainsFromCache nameFilter ;;
     if (0 <? List.length cachedDomains)%nat then
       ret (Listed cachedDomains (FromCache (List.length cachedDomains))
                   (Some true))
     else
       pleskResult <- fetchAndStoreDomains ;;
       match pleskResult with
       | FetchErr _ => ret (getTestDomains nameFilter)
       | FetchOk _ =>
           startStatusSync ;;;
           domains <- getDomainsFromCache nameFilter ;;
           ret (Listed domains (SyncInProgress (List.length domains))
                       (Some false))
       end)
    (fun _ => ret (getTestDomains nameFilter)).

(** [listDomains(name)] as declared again under DOMAIN ENDPOINTS: the
    plain upstream call. *)
Definition listDomains_upstream (nameFilter : JsValue) : M ListResult :=
  r <- executeRequest (GetDomains (filter_of nameFilter)) ;;
  ret (Forwarded r).

(** The [listDomains] members of the class body, in source order. *)
Definition class_body : list (string * (JsValue -> M ListResult)) :=
  [ ("listDomains", listDomains_cache_first);
    ("listDomains", listDomains_upstream) ].

(** A class body defines its methods on the prototype one after the
    other: a later member of the same name replaces the earlier one. *)
Definition prototype_method (key : string)
  : option (JsValue -> M ListResult) :=
  fold_left (fun found '(k, f) => if k =? key then Some f else found)
            class_body None.

(** [client.listDomains(name)], as the routes call it. *)
Definition listDomains (nameFilter : JsValue) : M ListResult :=
  match prototype_method "listDomains" with
  | Some m => m nameFilter
  | None => throw "client.listDomains is not a function"
  end.

(** The background promise chain started by [startStatusSync]:
    [run.catch(log).finally(() => { this.statusSyncRunning = false })],
    for a run [run] that was left pending. *)
Definition settle_with (run : M unit) (w : World) : World :=
  match pending w with
  | O => w
  | S p =>
      let '(o, w1) := run w in
      let w2 := match o with
                | Ret _ => w1
                | Throw _ => with_event (Log "Background status sync failed") w1
                end in
      with_guard false p w2
  end.

Definition settle : World -> World := settle_with performStatusSync.

(** What the event loop can do next to the client. *)
Inductive Step :=
| Trigger          (* a call of startStatusSync *)
| Settle           (* the pending run finishes *)
| Refresh          (* a call of refreshDomains *)
| Fetch            (* a call of fetchAndStoreDomains *)
| List_ (nameFilter : JsValue)   (* a call of listDomains *)
| BackgroundSync.  (* a run of performBackgroundSync *)

Definition step (s : Step) (w : World) : World :=
  match s with
  | Trigger => snd (startStatusSync w)
  | Settle => settle w
  | Refresh => snd (refreshDomains w)
  | Fetch => snd (fetchAndStoreDomains w)
  | List_ f => snd (listDomains f w)
  | BackgroundSync => snd (performBackgroundSync w)
  end.

Definition run_steps (l : list Step) (w : World) : World :=
  fold_left (fun w s => step s w) l w.

End Client.

(* ================================================================== *)
(** ** Predicates used to state the properties *)

(** [r'] is [r] except possibly for [status] and [last_updated]. *)
Definition same_but_status (r r' : Row) : Prop :=
  id r' = id r /\ name r' = name r /\ created r' = created r /\
  owner r' = owner r /\ hosting_type r' = hosting_type r /\
  www_root r' = www_root r /\ ip_addresses r' = ip_addresses r /\
  sync_error r' = sync_error r.

(** Row by row, [t'] is [t] with only [status] and [last_updated] of the
    rows of id [i] possibly changed. *)
Definition status_frame (i : Z) (t t' : Table) : Prop :=
  Forall2 (fun r r' => same_but_status r r' /\ (id r <> i -> r' = r)) t t'.

(** A computation relates every world to the world it leaves by [R]. *)
Definition keeps {A} (R : World -> World -> Prop) (m : M A) : Prop :=
  forall w, R w (snd (m w)).

(** A computation never raises: from every world it returns a value. *)
Definition never_throws {A} (m : M A) : Prop :=
  forall w, exists a, fst (m w) = Ret a.

(** The fields the run guard owns, and the pool, are the same. *)
Definition same_guard (w w' : World) : Prop :=
  statusSyncRunning w' = statusSyncRunning w /\ pending w' = pending w /\
  dbPool w' = dbPool w.

(** No row appeared, vanished or moved, and no [sync_error] changed. *)
Definition same_sync_errors (w w' : World) : Prop :=
  map (fun r => (id r, sync_error r)) (cache w') =
  map (fun r => (id r, sync_error r)) (cache w).

(** Row [r] holds the listing columns [fetchAndStoreDomains] binds for
    item [d], written at some server time. *)
Definition carries_listing (r : Row) (d : Domain) : Prop :=
  exists p now, listing_binds d = Bound p /\
                update_listing r (listing_values now p d) = r.

(** What a successful [fetchAndStoreDomains] of listing [ds] has done to
    table [t], leaving [t']: every item has a row; a row whose id is
    listed holds the listing columns of an item of that id; and every row
    either was there before, with the status it still has, or is new
    with status unknown. *)
Definition listing_stored (ds : list Domain) (t t' : Table) : Prop :=
  (forall d, In d ds -> has_id (d_id d) t' = true) /\
  (forall r, In r t' -> In (id r) (map d_id ds) ->
     exists d, In d ds /\ d_id d = id r /\ carries_listing r d) /\
  (forall r, In r t' ->
     (exists r0, In r0 t /\ id r0 = id r /\ status r0 = status r) \/
     (has_id (id r) t = false /\ status r = "unknown")).

(** The table after the listing upserts of the VALUES rows [vs], in
    order. *)
Definition store_all (vs : list Row) (t : Table) : Table :=
  fold_left (fun t v => upsert_listing v t) vs t.

(** The VALUES rows of a listing, one per item, each accepted by the
    statement. *)
Definition values_of (ds : list Domain) (vs : list Row) : Prop :=
  Forall2 (fun d v => exists p now, listing_binds d = Bound p /\
                                    v = listing_values now p d) ds vs.

(** The listing the upstream gives to the next request of the client:
    the array it answers to [GET /domains], or nothing. *)
Definition fresh_listing (env : Env) (w : World) : list Domain :=
  match upstream env (api_calls w) (GetDomains None) with
  | ApiOk data _ => as_array data
  | ApiErr _ _ => []
  end.

(** The world once [refreshDomains] has taken a connection and run its
    DELETE. *)
Definition cleared (w : World) : World :=
  with_cache delete_all (with_db_op (with_db_op w)).

(** The run guard tells the truth: the flag is set with one run in
    flight, and clear with none. *)
Definition guard_inv (w : World) : Prop :=
  (statusSyncRunning w = true /\ pending w = 1%nat) \/
  (statusSyncRunning w = false /\ pending w = 0%nat).

Definition keeps_guard_inv (w w' : World) : Prop :=
  guard_inv w -> guard_inv w'.

(** *** Batching, as the specification words it *)

(** [l] cut into consecutive batches of [bs] items, the last one
    possibly shorter. The fuel bounds the number of batches. *)
Fixpoint chunks {A} (fuel bs : nat) (l : list A) : list (list A) :=
  match fuel with
  | O => []
  | S fuel' =>
      match l with
      | [] => []
      | _ :: _ => firstn bs l :: chunks fuel' bs (skipn bs l)
      end
  end.

Definition batches {A} (bs : nat) (l : list A) : list (list A) :=
  chunks (List.length l) bs l.

(** Process the batches one after the other and sleep between two
    consecutive batches, not after the last. *)
Fixpoint run_batches {A} (delay : Z) (body : list A -> M unit)
    (bt : list (list A)) : M unit :=
  match bt with
  | [] => ret tt
  | b :: rest =>
      body b ;;;
      (match rest with [] => ret tt | _ :: _ => sleep delay end) ;;;
      run_batches delay body rest
  end.

(** The events of a paced run: each batch's events, with one delay
    between consecutive batches. *)
Fixpoint paced (delay : Z) (bt : list (list Event)) : list Event :=
  match bt with
  | [] => []
  | b :: rest =>
      b ++ (match rest with [] => [] | _ :: _ => [Sleep delay] end)
        ++ paced delay rest
  end.

(** The delays slept in a trace, in order. *)
Fixpoint sleeps_of (tr : list Event) : list Z :=
  match tr with
  | [] => []
  | Sleep ms :: r => ms :: sleeps_of r
  | _ :: r => sleeps_of r
  end.

(** The upstream requests of a trace, in order. *)
Fixpoint requests_of (tr : list Event) : list Endpoint :=
  match tr with
  | [] => []
  | Api e :: r => e :: requests_of r
  | _ :: r => requests_of r
  end.

(** The status request of a cached row, of a listing item. *)
Definition status_request (r : Row) : Event := Api (GetDomainStatus (id r)).

Definition item_status_request (d : Domain) : Event :=
  Api (GetDomainStatus (d_id d)).

(** [ceil(n / bs)]. *)
Definition ceil_div (n bs : nat) : nat := ((n + bs - 1) / bs)%nat.

(** Oldest [last_updated] first. *)
Definition ascending (l : list Row) : Prop :=
  Sorted (fun a b => (last_updated a <= last_updated b)%Z) l.

(** [bt] cuts [l] into batches of [bs]: put end to end they are [l],
    each holds from one to [bs] items, all but the last hold [bs], and
    there are [ceil(n / bs)] of them. *)
Definition partitioned {A} (bs : nat) (l : list A) (bt : list (list A))
  : Prop :=
  List.concat bt = l /\
  Forall (fun b => (1 <= List.length b <= bs)%nat) bt /\
  Forall (fun b => List.length b = bs) (removelast bt) /\
  List.length bt = ceil_div (List.length l) bs.

(** [max(0, ceil(n / bs) - 1)]. *)
Definition pauses (n bs : nat) : nat :=
  Z.to_nat (Z.max 0 (Z.of_nat (ceil_div n bs) - 1)).

(** The table after the enrichment of row [d] when it is the [db]-th
    database operation and the [api]-th upstream request: the narrow
    UPDATE with the status computed from the response, or nothing when
    the UPDATE fails. *)
Definition status_write (env : Env) (d : Row) (db api : nat) (t : Table)
  : Table :=
  match db_fault env db with
  | Some _ => t
  | None =>
      update_status (db_now env db)
        (status_of_response (upstream env api (GetDomainStatus (id d))))
        (id d) t
  end.

(** The table after the enrichment of the rows [ds] one after the other. *)
Fixpoint status_pass (env : Env) (ds : list Row) (db api : nat) (t : Table)
  : Table :=
  match ds with
  | [] => t
  | d :: r => status_pass env r (S db) (S api) (status_write env d db api t)
  end.

(** The part of the world an enrichment depends on and changes: the
    table and the two operation counters. *)
Definition core (w : World) : Table * nat * nat :=
  (cache w, db_ops w, api_calls w).

(* ================================================================== *)
(** ** Sample data *)

Module Sample.

Definition example_com : Row :=
  mkRow 1 "example.com" "active"
        (Some (CreatedText "2024-01-15T10:30:00.000Z")) "admin" "virtual"
        "/var/www/vhosts/example.com" ["192.168.1.100"] 10 None.

Definition test_org : Row :=
  mkRow 2 "test.org" "unknown"
        (Some (CreatedText "2024-02-01T14:22:00.000Z")) "client1" "virtual"
        "/var/www/vhosts/test.org" ["192.168.1.101"] 20 None.

Definition stale : Row :=
  mkRow 99 "stale.example" "active" None "admin" "virtual" EmptyString [] 5 None.

(** A row enriched by an earlier sync, with an error on record. *)
Definition failed_before : Row :=
  mkRow 1 "example.com" "active"
        (Some (CreatedText "2024-01-15T10:30:00.000Z")) "admin" "virtual"
        "/var/www/vhosts/example.com" ["192.168.1.100"] 10
        (Some "old failure").

(** A listing item with the properties the Plesk API gives. *)
Definition item (i : Z) (n : string) : Domain :=
  mkDomain i (Str n) Undefined (Str "2024-01-15T10:30:00.000Z") Undefined
           Undefined Undefined (Str "virtual") Undefined
           (Some ["192.168.1.100"]).

(** LIKE '%f%' under a case-insensitive collation; the pattern comes
    wrapped in its two percent signs. *)
Definition like (pattern s : string) : bool :=
  includes (toLowerCase s)
           (toLowerCase (substring 1 (String.length pattern - 2) pattern)).

(** [JSON.parse] on the texts of the samples: each is the empty text, a
    dotted address or several of them joined by commas, and on each of
    them it raises. *)
Definition not_json : string -> option JsonValue := fun _ => None.

(** An environment given by its faults, its listing response and its
    status responses; the server clock starts at 100. *)
Definition env_of (faults : nat -> option string) (listing : ApiResponse)
    (st : Z -> ApiResponse) : Env :=
  mkEnv faults (fun n => (100 + Z.of_nat n)%Z)
        (fun _ e => match e with
                    | GetDomains _ => listing
                    | GetDomainStatus i => st i
                    end)
        like String.leb not_json.

Definition no_fault : nat -> option string := fun _ => None.

Definition two_domains : ApiResponse :=
  ApiOk (PArray [item 1 "example.com"; item 2 "test.org"]) 200.

Definition all_active : Z -> ApiResponse :=
  fun _ => ApiOk (PObject (Str "active")) 200.

Definition status_down : Z -> ApiResponse :=
  fun _ => ApiErr "connect ETIMEDOUT" 500.

(** Everything works. *)
Definition healthy : Env := env_of no_fault two_domains all_active.

(** The listing works, every status request fails. *)
Definition status_outage : Env := env_of no_fault two_domains status_down.

(** The status request of domain 1 fails, the others answer active. *)
Definition one_status_fails : Env :=
  env_of no_fault two_domains
         (fun i => if (i =? 1)%Z then ApiErr "connect ETIMEDOUT" 500
                   else ApiOk (PObject (Str "active")) 200).

(** Six cached rows, ids 1 to 6, oldest first. *)
Definition aged (i : Z) : Row :=
  mkRow i "example.com" "unknown" None "admin" "virtual" EmptyString [] i None.

Definition six_rows : Table := map aged [1; 2; 3; 4; 5; 6]%Z.

(** The store refuses its second operation. *)
Definition second_op_fails : Env :=
  env_of (fun n => if (n =? 1)%nat then Some "ER_LOCK_WAIT_TIMEOUT" else None)
         two_domains all_active.

End Sample.

(* ================================================================== *)
(** ** Cache statistics *)

(** [SUM(CASE WHEN c THEN 1 ELSE 0 END)] over the table: NULL when the
    table has no row. *)
Definition sql_sum (c : Row -> bool) (t : Table) : option nat :=
  match t with
  | [] => None
  | _ :: _ => Some (List.length (filter c t))
  end.

(** [MAX(last_updated)]: NULL when the table has no row. *)
Definition sql_max_last_updated (t : Table) : option Z :=
  match t with
  | [] => None
  | r :: rest =>
      Some (fold_left (fun m x => Z.max m (last_updated x)) rest
                      (last_updated r))
  end.

Definition status_is (s : string) (r : Row) : bool := status r =? s.

(** [sync_error IS NOT NULL]. *)
Definition has_sync_error (r : Row) : bool :=
  match sync_error r with
  | Some _ => true
  | None => false
  end.

(** The one row the aggregate query of [getSyncStats] returns. *)
Record SyncStats := mkSyncStats {
  total_domains : nat;
  active_domains : option nat;
  suspended_domains : option nat;
  disabled_domains : option nat;
  unknown_domains : option nat;
  error_domains : option nat;
  last_sync_time : option Z
}.

Definition sync_stats (t : Table) : SyncStats :=
  mkSyncStats (List.length t)
    (sql_sum (status_is "active") t) (sql_sum (status_is "suspended") t)
    (sql_sum (status_is "disabled") t) (sql_sum (status_is "unknown") t)
    (sql_sum has_sync_error t) (sql_max_last_updated t).

(** The one row the aggregate query of [getCacheMetadata] returns. *)
Record CacheMetadata := mkCacheMetadata {
  m_total_domains : nat;
  m_active_domains : option nat;
  m_suspended_domains : option nat;
  m_disabled_domains : option nat;
  m_unknown_domains : option nat;
  m_last_updated : option Z
}.

Definition cache_metadata (t : Table) : CacheMetadata :=
  mkCacheMetadata (List.length t)
    (sql_sum (status_is "active") t) (sql_sum (status_is "suspended") t)
    (sql_sum (status_is "disabled") t) (sql_sum (status_is "unknown") t)
    (sql_max_last_updated t).

(** [{ success: true, data }] or [{ success: false, error }]. *)
Inductive Reply (A : Type) :=
| ReplyOk (data : A)
| ReplyErr (error : string).
Arguments ReplyOk {A} data.
Arguments ReplyErr {A} error.

(** What [this.dbPool.getConnection()] raises when the pool is not set. *)
Definition no_pool_error : string :=
  "Cannot read properties of undefined (reading 'getConnection')".

(** The object [listDomainsFromCache] builds for a row: the status as
    stored, and the same [JSON.parse] of the decoded column. *)
Definition raw_view_of_row (env : Env) (r : Row) : option DomainView :=
  match json_parse env (ip_text r) with
  | Some ips =>
      Some (mkView (id r) (name r) (status r) (created r) (owner r)
              (Some (hosting_type r)) (Some (www_root r)) ips)
  | None => None
  end.

(** What [listDomainsFromCache] answers: the cached rows, the notice
    that a sync was started (with no data), or what [this.listDomains]
    returned. *)
Inductive CacheListing :=
| CachedRows (data : list DomainView)
| SyncInitiated
| FromUpstream (r : ListResult).

(** The client together with the [performBackgroundSync] calls that
    [syncDomainsInBackground] started and nobody awaits: each has sent
    its listing request and waits for the response it holds. *)
Record Server := mkServer {
  client : World;
  pendingSyncs : list ApiResponse
}.

Definition backgroundSyncs (s : Server) : nat :=
  List.length (pendingSyncs s).

Section Reads.

Variable env : Env.

(** [performBackgroundSync] from the point where the listing response
    arrives. *)
Definition resumeBackgroundSync (response : ApiResponse) : M unit :=
  try_catch
    (match response with
     | ApiErr e _ => throw e
     | ApiOk data _ =>
         let domains := as_array data in
         getConnection env ;;;
         batch_loop 10 2000 (syncDomainBatch env) domains
                    (List.length domains) 0
     end)
    (fun _ => ret tt).

(** [syncDomainsInBackground()]: the call of [performBackgroundSync]
    runs up to its first [await], so the listing request is sent before
    the caller goes on; the rest waits for the response. *)
Definition syncDomainsInBackground (s : Server) : Server :=
  let w := client s in
  mkServer (with_api_call (GetDomains None) w)
           (pendingSyncs s ++ [upstream env (api_calls w) (GetDomains None)]).

(** [getSyncStats()]. *)
Definition getSyncStats : M (Reply SyncStats) :=
  try_catch
    (pool <- gets dbPool ;;
     (if pool then getConnection env else throw no_pool_error) ;;;
     stats <- query env sync_stats ;;
     ret (ReplyOk stats))
    (fun msg => ret (ReplyErr msg)).

(** [getCacheMetadata()]. *)
Definition getCacheMetadata : M (Reply CacheMetadata) :=
  try_catch
    (pool <- gets dbPool ;;
     if negb pool then ret (ReplyErr "Database not available")
     else
       getConnection env ;;;
       stats <- query env cache_metadata ;;
       ret (ReplyOk stats))
    (fun msg => ret (ReplyErr msg)).

(** [listDomainsFromCache(nameFilter)]; its console output is left out.
    An empty read starts a sync; otherwise the rows are mapped, and a
    [JSON.parse] that raises there is caught like a failed read. *)
Definition listDomainsFromCache (nameFilter : JsValue) (s : Server)
  : Outcome CacheListing * Server :=
  let read : M (list Row) :=
    pool <- gets dbPool ;;
    (if pool then getConnection env else throw no_pool_error) ;;;
    query env (select_by_name (name_like env) (name_leb env)
                 (option_map
                    (fun f => String.append "%" (String.append f "%"))
                    (filter_of nameFilter))) in
  let fallback (w1 : World) :=
    match listDomains env nameFilter w1 with
    | (Ret r, w2) => (Ret (FromUpstream r), mkServer w2 (pendingSyncs s))
    | (Throw e, w2) => (Throw e, mkServer w2 (pendingSyncs s))
    end in
  match read (client s) with
  | (Ret [], w1) =>
      (Ret SyncInitiated,
       syncDomainsInBackground (mkServer w1 (pendingSyncs s)))
  | (Ret (r :: rows), w1) =>
      match map_or_raise (raw_view_of_row env) (r :: rows) with
      | Some views => (Ret (CachedRows views), mkServer w1 (pendingSyncs s))
      | None => fallback w1
      end
  | (Throw _, w1) => fallback w1
  end.

(** The oldest pending [performBackgroundSync] runs to its end. *)
Definition settle_background (s : Server) : Server :=
  match pendingSyncs s with
  | [] => s
  | response :: rest =>
      mkServer (snd (resumeBackgroundSync response (client s))) rest
  end.

End Reads.

(* ================================================================== *)
(** ** Predicates on how the table evolves *)

(** A relation between tables, read between the worlds that hold them. *)
Definition on_cache (T : Table -> Table -> Prop) (w w' : World) : Prop :=
  T (cache w) (cache w').

(** Row by row, [t'] is [t] except for [status] and [last_updated], and
    a row that changed has a non-empty status. *)
Definition enriched_from (t t' : Table) : Prop :=
  Forall2 (fun r r' => same_but_status r r' /\
                       (r' = r \/ status r' <> EmptyString)) t t'.

(** The primary key, once there, stays. *)
Definition keeps_primary_key (t t' : Table) : Prop :=
  primary_key t -> primary_key t'.

(** No id leaves the table. *)
Definition ids_persist (t t' : Table) : Prop :=
  forall i, has_id i t = true -> has_id i t' = true.

(** The rows that carry a [sync_error]. *)
Definition error_count (t : Table) : nat :=
  List.length (filter has_sync_error t).

Definition errors_do_not_grow (t t' : Table) : Prop :=
  (error_count t' <= error_count t)%nat.

(** Every row of [t'] either was in [t] as it is, or carries no
    [sync_error] and a non-empty status. *)
Definition written_clean (t t' : Table) : Prop :=
  forall r, In r t' ->
    In r t \/ (sync_error r = None /\ status r <> EmptyString).

(** The four members of the ENUM column. *)
Definition known_status (r : Row) : Prop :=
  status r = "active" \/ status r = "suspended" \/
  status r = "disabled" \/ status r = "unknown".

(** The cached rows a name filter selects: all of them without a
    filter, else those whose name is LIKE the filter wrapped in percent
    signs. *)
Definition matching_rows (env : Env) (nameFilter : JsValue) (t : Table)
  : list Row :=
  match filter_of nameFilter with
  | Some f =>
      filter (fun r => name_like env (String.append "%" (String.append f "%"))
                                 (name r)) t
  | None => t
  end.

(** The store answers the two operations of a read: the connection and
    the SELECT. *)
Definition store_answers (env : Env) (w : World) : Prop :=
  dbPool w = true /\ db_fault env (db_ops w) = None /\
  db_fault env (S (db_ops w)) = None.

(** A row as the listing upsert writes it when the id is new: status
    unknown, no error, and the defaults in place of missing columns. *)
Definition fresh_row (r : Row) : Prop :=
  status r = "unknown" /\ sync_error r = None /\
  owner r <> EmptyString /\ hosting_type r <> EmptyString.

(** The table and the two operation counters after one turn of the loop
    of [syncDomainBatch] on item [d]: the status request always goes
    out; the INSERT is sent when the name can be bound, and changes the
    table when the store accepts it. *)
Definition full_write (env : Env) (d : Domain) (c : Table * nat * nat)
  : Table * nat * nat :=
  let '(t, db, api) := c in
  (match batch_binds d, db_fault env db with
   | Bound n, None =>
       upsert_full
         (batch_values (db_now env db) n d
            (status_of_response (upstream env api (GetDomainStatus (d_id d))))
            None) t
   | _, _ => t
   end,
   match batch_binds d with NotBindable => db | _ => S db end,
   S api).

(** The same for the items [ds] one after the other. *)
Definition full_pass (env : Env) (ds : list Domain) (c : Table * nat * nat)
  : Table * nat * nat :=
  fold_left (fun c d => full_write env d c) ds c.

(* ================================================================== *)
(** ** The router of routes/plesk/domains.js *)

(** The method of a request. *)
Inductive Method := GET | HEAD | POST | PUT | DELETE | OtherMethod.

(** A segment of a route path: a literal, or a named parameter [:key]. *)
Inductive Seg :=
| Lit (s : string)
| Param (key : string).

(** The handlers of the file, one per [router.METHOD(path, ...)]. *)
Inductive Handler :=
| index_route                  (* GET / *)
| server_info_route            (* GET /server/info *)
| domains_route                (* GET /domains *)
| domain_route                 (* GET /domains/:id *)
| create_domain_route          (* POST /domains *)
| delete_domain_route          (* DELETE /domains/:id *)
| customers_route              (* GET /customers *)
| create_customer_route        (* POST /customers *)
| test_route                   (* POST /test *)
| customer_route               (* GET /customers/:id *)
| customer_domains_route       (* GET /customers/:id/domains *)
| customer_statistics_route    (* GET /customers/:id/statistics *)
| domain_status_route          (* GET /domains/:id/status *)
| update_domain_route          (* PUT /domains/:id *)
| update_domain_status_route   (* PUT /domains/:id/status *)
| refresh_route                (* POST /domains/refresh *)
| metadata_route               (* GET /domains/metadata *)
| sync_route                   (* POST /domains/sync *)
| sync_stats_route.            (* GET /domains/sync/stats *)

Record Route := mkRoute {
  r_method : Method;
  r_path : list Seg;
  r_handler : Handler
}.

(** The routes in the order the file registers them. *)
Definition routes : list Route :=
  [ mkRoute GET [] index_route;
    mkRoute GET [Lit "server"; Lit "info"] server_info_route;
    mkRoute GET [Lit "domains"] domains_route;
    mkRoute GET [Lit "domains"; Param "id"] domain_route;
    mkRoute POST [Lit "domains"] create_domain_route;
    mkRoute DELETE [Lit "domains"; Param "id"] delete_domain_route;
    mkRoute GET [Lit "customers"] customers_route;
    mkRoute POST [Lit "customers"] create_customer_route;
    mkRoute POST [Lit "test"] test_route;
    mkRoute GET [Lit "customers"; Param "id"] customer_route;
    mkRoute GET [Lit "customers"; Param "id"; Lit "domains"]
            customer_domains_route;
    mkRoute GET [Lit "customers"; Param "id"; Lit "statistics"]
            customer_statistics_route;
    mkRoute GET [Lit "domains"; Param "id"; Lit "status"] domain_status_route;
    mkRoute PUT [Lit "domains"; Param "id"] update_domain_route;
    mkRoute PUT [Lit "domains"; Param "id"; Lit "status"]
            update_domain_status_route;
    mkRoute POST [Lit "domains"; Lit "refresh"] refresh_route;
    mkRoute GET [Lit "domains"; Lit "metadata"] metadata_route;
    mkRoute POST [Lit "domains"; Lit "sync"] sync_route;
    mkRoute GET [Lit "domains"; Lit "sync"; Lit "stats"] sync_stats_route ].

(** [path.split('/')]. *)
Fixpoint split_slash (s : string) : list string :=
  match s with
  | EmptyString => [EmptyString]
  | String c r =>
      if (c =? "/")%char then EmptyString :: split_slash r
      else match split_slash r with
           | x :: xs => String c x :: xs
           | [] => [String c EmptyString]
           end
  end.

(** The match of a route path as [express.Router()] compiles it (not
    case sensitive, not strict): each literal is compared without regard
    to letter case, a parameter takes one non-empty segment, and one
    trailing slash is allowed. The result is the raw parameter values. *)
Fixpoint match_segs (pat : list Seg) (segs : list string)
  : option (list string) :=
  match pat, segs with
  | [], [] => Some []
  | [], [EmptyString] => Some []
  | Lit l :: pat', s :: segs' =>
      if toLowerCase s =? toLowerCase l then match_segs pat' segs' else None
  | Param _ :: pat', s :: segs' =>
      if s =? EmptyString then None
      else option_map (cons s) (match_segs pat' segs')
  | _, _ => None
  end.

(** The path of a request starts with a slash. *)
Definition match_path (pat : list Seg) (path : string)
  : option (list string) :=
  match split_slash path with
  | EmptyString :: segs => match_segs pat segs
  | _ => None
  end.

(** A route registered for GET also takes HEAD; the file registers no
    route for any other method than the four it names. *)
Definition handles (registered requested : Method) : bool :=
  match registered, requested with
  | GET, GET | GET, HEAD | POST, POST | PUT, PUT | DELETE, DELETE => true
  | _, _ => false
  end.

(** How the module was loaded, and the decoder of parameter values:
    [pleskClient] tells whether [new PleskAPIClient()] succeeded,
    [development] whether NODE_ENV is development, and
    [decodeURIComponent] is the function of that name, [None] when it
    raises. Strings are sequences of code units below 256. *)
Record Setup := mkSetup {
  pleskClient : bool;
  development : bool;
  decodeURIComponent : string -> option string
}.

Fixpoint decode_params (c : Setup) (raw : list string)
  : option (list string) :=
  match raw with
  | [] => Some []
  | v :: r =>
      match decodeURIComponent c v, decode_params c r with
      | Some d, Some ds => Some (d :: ds)
      | _, _ => None
      end
  end.

(** What the router does with a request. *)
Inductive Dispatch :=
| Handled (h : Handler) (params : list string)
| DecodeError      (* 400, Failed to decode param *)
| Unmatched.       (* no route of this router takes the request *)

(** The routes are tried in order. A route whose path matches has its
    parameters decoded; a decoding failure ends the search with an
    error, and otherwise the route takes the request when it handles the
    method. *)
Fixpoint dispatch_in (c : Setup) (rs : list Route) (m : Method)
    (path : string) : Dispatch :=
  match rs with
  | [] => Unmatched
  | r :: rest =>
      match match_path (r_path r) path with
      | None => dispatch_in c rest m path
      | Some raw =>
          match decode_params c raw with
          | None => DecodeError
          | Some params =>
              if handles (r_method r) m then Handled (r_handler r) params
              else dispatch_in c rest m path
          end
      end
  end.

Definition dispatch (c : Setup) : Method -> string -> Dispatch :=
  dispatch_in c routes.

(** What a handler has done when it either answers with an error or
    goes on to the rest of its body. *)
Inductive Answer :=
| Json (code : nat) (error : string)
| Continue (useTestData : bool).

(** The [checkPleskClient] middleware. *)
Definition checkPleskClient (c : Setup) : Answer :=
  if pleskClient c then Continue false
  else if development c then Continue true
  else Json 500
    "Plesk client not configured. Please check your environment variables.".

(** White space as [parseInt] skips it, among the code units below 256:
    TAB, LF, VT, FF, CR, SP and NBSP. *)
Definition is_white_space (c : ascii) : bool :=
  let n := nat_of_ascii c in
  ((9 <=? n)%nat && (n <=? 13)%nat) || (n =? 32)%nat || (n =? 160)%nat.

Definition is_digit (c : ascii) : bool :=
  let n := nat_of_ascii c in (48 <=? n)%nat && (n <=? 57)%nat.

Definition is_hex_digit (c : ascii) : bool :=
  let n := nat_of_ascii c in
  is_digit c || ((65 <=? n)%nat && (n <=? 70)%nat)
             || ((97 <=? n)%nat && (n <=? 102)%nat).

Fixpoint trim_start (s : string) : string :=
  match s with
  | String c r => if is_white_space c then trim_start r else s
  | EmptyString => s
  end.

Definition strip_sign (s : string) : string :=
  match s with
  | String c r => if ((c =? "+") || (c =? "-"))%char then r else s
  | EmptyString => s
  end.

(** [isNaN(parseInt(s))]: after the white space and an optional sign, a
    [0x] or [0X] asks for a hexadecimal digit, and anything else for a
    decimal digit; what follows the first digit is not looked at. *)
Definition parseInt_isNaN (s : string) : bool :=
  match strip_sign (trim_start s) with
  | EmptyString => true
  | String c r =>
      match r with
      | String x h =>
          if ((c =? "0") && ((x =? "x") || (x =? "X")))%char then
            match h with
            | String d _ => negb (is_hex_digit d)
            | EmptyString => true
            end
          else negb (is_digit c)
      | EmptyString => negb (is_digit c)
      end
  end.

(** The handlers that start with the test of [parseInt(req.params.id)],
    with the error they answer. *)
Definition id_guard (h : Handler) : option string :=
  match h with
  | domain_route | delete_domain_route | domain_status_route
  | update_domain_route =>
      Some "Invalid domain ID. Must be a number."
  | customer_route | customer_domains_route | customer_statistics_route =>
      Some "Invalid customer ID. Must be a number."
  | _ => None
  end.

(** The start of the handling of a request: the middleware, for every
    route but the index, then the id test where the handler starts with
    one. *)
Definition handle (c : Setup) (h : Handler) (params : list string)
  : Answer :=
  match (match h with
         | index_route => Continue false
         | _ => checkPleskClient c
         end) with
  | Json code e => Json code e
  | Continue t =>
      match id_guard h, params with
      | Some msg, i :: _ => if parseInt_isNaN i then Json 400 msg
                            else Continue t
      | _, _ => Continue t
      end
  end.

(** The handler a request reaches and how its handling starts. *)
Definition respond (c : Setup) (m : Method) (path : string)
  : option (Handler * Answer) :=
  match dispatch c m path with
  | Handled h params => Some (h, handle c h params)
  | _ => None
  end.

(** [decodeURIComponent] leaves a string without a percent sign as it
    is. *)
Definition decodes_plain (c : Setup) : Prop :=
  forall s, includes s "%" = false -> decodeURIComponent c s = Some s.

(** A module loaded with its client, and a decoder that gives up on
    every escape. *)
Definition plain_setup : Setup :=
  mkSetup true false (fun s => if includes s "%" then None else Some s).

(* ================================================================== *)
(** * Properties *)

(** ** The SQL statements *)

Lemma has_id_true i t : has_id i t = true <-> In i (map id t).
Proof.
  unfold has_id. rewrite existsb_exists, in_map_iff. split.
  - intros [r [Hin Heq]]. apply Z.eqb_eq in Heq. now exists r.
  - intros [r [Heq Hin]]. exists r. split; [assumption|]. now apply Z.eqb_eq.
Qed.

Lemma has_id_false i t : has_id i t = false <-> ~ In i (map id t).
Proof.
  rewrite <- has_id_true. destruct (has_id i t); split; congruence.
Qed.

Lemma update_status_ids now st i t :
  map id (update_status now st i t) = map id t.
Proof.
  unfold update_status. rewrite map_map. apply map_ext.
  intros r. now destruct (id r =? i)%Z.
Qed.

Lemma insert_on_duplicate_ids upd v t :
  (forall old, id (upd old v) = id old) ->
  map id (insert_on_duplicate upd v t) =
  if has_id (id v) t then map id t else map id t ++ [id v].
Proof.
  intros Hupd. unfold insert_on_duplicate.
  destruct (has_id (id v) t).
  - rewrite map_map. apply map_ext. intros r.
    destruct (id r =? id v)%Z; [apply Hupd | reflexivity].
  - now rewrite map_app.
Qed.

Lemma insert_on_duplicate_primary_key upd v t :
  (forall old, id (upd old v) = id old) ->
  primary_key t -> primary_key (insert_on_duplicate upd v t).
Proof.
  unfold primary_key. intros Hupd Hk.
  rewrite insert_on_duplicate_ids by assumption.
  destruct (has_id (id v) t) eqn:E; [assumption|].
  apply has_id_false in E.
  apply NoDup_app; [assumption | repeat constructor; intros [] | ].
  intros x Hx [Hy|[]]. subst. contradiction.
Qed.

Lemma insert_on_duplicate_has_id upd v t :
  (forall old, id (upd old v) = id old) ->
  has_id (id v) (insert_on_duplicate upd v t) = true.
Proof.
  intros Hupd. apply has_id_true. rewrite insert_on_duplicate_ids by assumption.
  destruct (has_id (id v) t) eqn:E.
  - now apply has_id_true.
  - apply in_or_app. right. now left.
Qed.

(** Under the primary key, the rows of one id are zero or one. *)
Lemma rows_with_id_unique i t :
  primary_key t -> (List.length (rows_with_id i t) <= 1)%nat.
Proof.
  unfold primary_key, rows_with_id. induction t as [|r t IH]; simpl; intros Hk.
  - lia.
  - inversion Hk as [|? ? Hnotin Hk']; subst.
    destruct (id r =? i)%Z eqn:E; [|now apply IH].
    apply Z.eqb_eq in E. simpl.
    assert (Hnil : filter (fun r0 => (id r0 =? i)%Z) t = []).
    { destruct (filter (fun r0 => (id r0 =? i)%Z) t) as [|r' l] eqn:F;
        [reflexivity|].
      assert (Hr' : In r' (filter (fun r0 => (id r0 =? i)%Z) t))
        by (rewrite F; now left).
      apply filter_In in Hr' as [Hin Hid]. apply Z.eqb_eq in Hid.
      exfalso. apply Hnotin. rewrite E, <- Hid. now apply in_map. }
    rewrite Hnil. simpl. lia.
Qed.

(** After an upsert whose key exists, the rows of that key are the old
    ones passed through the UPDATE list. *)
Lemma rows_with_id_update upd v t :
  (forall old, id (upd old v) = id old) ->
  has_id (id v) t = true ->
  rows_with_id (id v) (insert_on_duplicate upd v t) =
  map (fun r => upd r v) (rows_with_id (id v) t).
Proof.
  intros Hupd Hhas. unfold insert_on_duplicate. rewrite Hhas. clear Hhas.
  unfold rows_with_id. induction t as [|r t IH]; simpl; [reflexivity|].
  destruct (id r =? id v)%Z eqn:E; simpl.
  - rewrite Hupd, E. simpl. now f_equal.
  - now rewrite E.
Qed.

(** After an upsert of a new key, the one row of that key is the
    VALUES row. *)
Lemma rows_with_id_insert upd v t :
  has_id (id v) t = false ->
  rows_with_id (id v) (insert_on_duplicate upd v t) = [v].
Proof.
  intros Hhas. unfold insert_on_duplicate. rewrite Hhas.
  unfold rows_with_id. rewrite filter_app. simpl. rewrite Z.eqb_refl.
  apply has_id_false in Hhas.
  assert (Hnil : filter (fun r => (id r =? id v)%Z) t = []).
  { induction t as [|r t IH]; simpl; [reflexivity|].
    simpl in Hhas. destruct (id r =? id v)%Z eqn:E.
    - apply Z.eqb_eq in E. exfalso. apply Hhas. now left.
    - apply IH. intros H. apply Hhas. now right. }
  now rewrite Hnil.
Qed.

Lemma rows_with_id_nonempty i t :
  has_id i t = true -> rows_with_id i t <> [].
Proof.
  unfold has_id, rows_with_id. intros H E.
  apply existsb_exists in H as [r [Hin Hid]].
  assert (Hr : In r (filter (fun r => (id r =? i)%Z) t))
    by (apply filter_In; now split).
  rewrite E in Hr. inversion Hr.
Qed.

Lemma rows_with_id_single i t :
  primary_key t -> has_id i t = true -> exists r, rows_with_id i t = [r].
Proof.
  intros Hk Hhas.
  pose proof (rows_with_id_unique i t Hk) as Hle.
  pose proof (rows_with_id_nonempty i t Hhas) as Hne.
  destruct (rows_with_id i t) as [|r [|r' l]]; simpl in *;
    [congruence | now exists r | lia].
Qed.

Lemma update_listing_id old v : id (update_listing old v) = id old.
Proof. reflexivity. Qed.

Lemma update_full_id old v : id (update_full old v) = id old.
Proof. reflexivity. Qed.

Lemma update_full_values old v : id old = id v -> update_full old v = v.
Proof. destruct v; unfold update_full; simpl; intros ->; reflexivity. Qed.

(** Two upserts of one key leave one row of that key, made by the UPDATE
    list from the second VALUES row. *)
Lemma insert_on_duplicate_twice upd v1 v2 t :
  (forall old v, id (upd old v) = id old) ->
  primary_key t -> id v1 = id v2 ->
  let t2 := insert_on_duplicate upd v2 (insert_on_duplicate upd v1 t) in
  primary_key t2 /\
  exists r1, rows_with_id (id v2) t2 = [upd r1 v2] /\ id r1 = id v2.
Proof.
  intros Hupd Hk Hid t2.
  assert (Hk1 : primary_key (insert_on_duplicate upd v1 t))
    by (apply insert_on_duplicate_primary_key; auto).
  assert (Hhas : has_id (id v2) (insert_on_duplicate upd v1 t) = true)
    by (rewrite <- Hid; apply insert_on_duplicate_has_id; auto).
  split.
  - apply insert_on_duplicate_primary_key; auto.
  - destruct (rows_with_id_single _ _ Hk1 Hhas) as [r1 Hr1].
    exists r1. unfold t2. rewrite rows_with_id_update by auto.
    rewrite Hr1. split; [reflexivity|].
    assert (Hin : In r1 (rows_with_id (id v2) (insert_on_duplicate upd v1 t)))
      by (rewrite Hr1; now left).
    apply filter_In in Hin as [_ Hin]. now apply Z.eqb_eq in Hin.
Qed.

Lemma update_listing_values old v :
  id old = id v -> status old = status v -> sync_error old = sync_error v ->
  update_listing old v = v.
Proof.
  destruct v; unfold update_listing; simpl. now intros -> -> ->.
Qed.

(** Where the status of the row comes from after two listing upserts
    of one id: from the row cached before, or from the first VALUES row
    when there was none. *)
Lemma upsert_listing_twice_status t v1 v2 :
  primary_key t -> id v1 = id v2 ->
  exists r,
    rows_with_id (id v2) (upsert_listing v2 (upsert_listing v1 t)) = [r] /\
    (forall r0, In r0 t -> id r0 = id v2 ->
       status r = status r0 /\ sync_error r = sync_error r0) /\
    (has_id (id v1) t = false ->
       status r = status v1 /\ sync_error r = sync_error v1).
Proof.
  intros Hk Hid. unfold upsert_listing.
  assert (Hhas2 : has_id (id v2) (insert_on_duplicate update_listing v1 t)
                  = true)
    by (rewrite <- Hid; apply insert_on_duplicate_has_id;
        intros old; apply update_listing_id).
  rewrite rows_with_id_update;
    [|intros old; apply update_listing_id | exact Hhas2].
  rewrite <- Hid.
  destruct (has_id (id v1) t) eqn:Hhas.
  - rewrite rows_with_id_update;
      [|intros old; apply update_listing_id | exact Hhas].
    destruct (rows_with_id_single _ _ Hk Hhas) as [old Hold].
    rewrite Hold. cbn [map]. eexists. split; [reflexivity|].
    split; [|discriminate].
    intros r0 Hin Hr0. cbn [update_listing status sync_error].
    assert (Hr : In r0 (rows_with_id (id v1) t)).
    { apply filter_In. split; [exact Hin|]. apply Z.eqb_eq. congruence. }
    rewrite Hold in Hr. destruct Hr as [->|[]]. now split.
  - rewrite rows_with_id_insert by exact Hhas. cbn [map].
    eexists. split; [reflexivity|]. split; [|intros _; now split].
    intros r0 Hin Hr0. exfalso. apply has_id_false in Hhas. apply Hhas.
    rewrite <- Hr0. now apply in_map.
Qed.

(** C7 (amended). Upserting the same id twice, with either INSERT ... ON
    DUPLICATE KEY UPDATE statement of the client, leaves the primary key
    intact and exactly one row with that id. With the statement of
    [syncDomainBatch] the row is the VALUES row of the second call. With
    the statement of [fetchAndStoreDomains] the row holds the columns the
    second call binds ([name] included) and the second call's time as
    [last_updated], hence not before the first call's; its [status] and
    [sync_error] are not the second call's but those of the row cached
    before the two calls, or those of the first VALUES row when the first
    call inserted it, so that it is the VALUES row of the second call
    only in that case. *)
Theorem upsert_twice_one_row (t : Table) (v1 v2 : Row) :
  primary_key t ->
  id v1 = id v2 ->
  (last_updated v1 <= last_updated v2)%Z ->
  (let t2 := upsert_listing v2 (upsert_listing v1 t) in
   primary_key t2 /\
   (exists r, rows_with_id (id v2) t2 = [r] /\
      name r = name v2 /\ created r = created v2 /\ owner r = owner v2 /\
      hosting_type r = hosting_type v2 /\ www_root r = www_root v2 /\
      ip_addresses r = ip_addresses v2 /\
      last_updated r = last_updated v2 /\
      (last_updated v1 <= last_updated r)%Z /\
      (forall r0, In r0 t -> id r0 = id v2 ->
         status r = status r0 /\ sync_error r = sync_error r0) /\
      (has_id (id v1) t = false ->
         status r = status v1 /\ sync_error r = sync_error v1)) /\
   (has_id (id v1) t = false ->
    status v1 = status v2 -> sync_error v1 = sync_error v2 ->
    rows_with_id (id v2) t2 = [v2])) /\
  (let t2 := upsert_full v2 (upsert_full v1 t) in
   primary_key t2 /\
   rows_with_id (id v2) t2 = [v2] /\
   (last_updated v1 <= last_updated v2)%Z).
Proof.
  intros Hk Hid Hle. split.
  - destruct (insert_on_duplicate_twice update_listing v1 v2 t
                update_listing_id Hk Hid) as [Hk2 [r1 [Hrows _]]].
    split; [exact Hk2|]. split.
    + destruct (upsert_listing_twice_status t v1 v2 Hk Hid)
        as [r [Hr [Hold Hnew]]].
      cbv zeta in Hrows. unfold upsert_listing in Hr. rewrite Hrows in Hr.
      inversion Hr as [Heq]. clear Hr. rewrite Heq in Hrows.
      exists r. split; [exact Hrows|]. rewrite <- Heq at 1 2 3 4 5 6 7 8.
      simpl. repeat split; try reflexivity;
        [exact Hle | apply Hold | apply Hold | apply Hnew | apply Hnew];
        assumption.
    + intros Hnew Hst Herr. unfold upsert_listing.
      rewrite rows_with_id_update;
        [|intros old; apply update_listing_id
         |rewrite <- Hid; apply insert_on_duplicate_has_id;
          intros old; apply update_listing_id].
      rewrite <- Hid at 1. rewrite rows_with_id_insert by exact Hnew.
      simpl. now rewrite update_listing_values.
  - destruct (insert_on_duplicate_twice update_full v1 v2 t
                update_full_id Hk Hid) as [Hk2 [r1 [Hrows Hr1]]].
    split; [exact Hk2|]. split; [|exact Hle].
    unfold upsert_full. cbv zeta in Hrows. rewrite Hrows.
    now rewrite update_full_values.
Qed.

(** The narrow UPDATE touches [status] and [last_updated] of the rows of
    its id and nothing else. *)
Lemma update_status_frame now st i t :
  status_frame i t (update_status now st i t).
Proof.
  unfold status_frame, update_status. induction t as [|r t IH]; simpl.
  - constructor.
  - constructor; [|exact IH].
    destruct (id r =? i)%Z eqn:E.
    + split; [unfold same_but_status; simpl; repeat split|].
      intros Hne. apply Z.eqb_eq in E. contradiction.
    + split; [unfold same_but_status; repeat split | reflexivity].
Qed.

Lemma status_frame_refl i t : status_frame i t t.
Proof.
  unfold status_frame. induction t; constructor; auto.
  split; [unfold same_but_status; repeat split | reflexivity].
Qed.

(* ------------------------------------------------------------------ *)
(** ** Frame rules of the monad *)

Section Frame.

Variable R : World -> World -> Prop.
Hypothesis R_refl : forall w, R w w.
Hypothesis R_trans : forall a b c, R a b -> R b c -> R a c.

Lemma keeps_ret {A} (a : A) : keeps R (ret a).
Proof. intros w. apply R_refl. Qed.

Lemma keeps_throw {A} msg : keeps R (@throw A msg).
Proof. intros w. apply R_refl. Qed.

Lemma keeps_gets {A} (f : World -> A) : keeps R (gets f).
Proof. intros w. apply R_refl. Qed.

Lemma keeps_bind {A B} (m : M A) (k : A -> M B) :
  keeps R m -> (forall a, keeps R (k a)) -> keeps R (bind m k).
Proof.
  intros Hm Hk w. unfold bind. specialize (Hm w).
  destruct (m w) as [[a|e] w1]; simpl in *; [|exact Hm].
  eapply R_trans; [exact Hm | apply Hk].
Qed.

Lemma keeps_try_catch {A} (m : M A) (h : string -> M A) :
  keeps R m -> (forall e, keeps R (h e)) -> keeps R (try_catch m h).
Proof.
  intros Hm Hh w. unfold try_catch. specialize (Hm w).
  destruct (m w) as [[a|e] w1]; simpl in *; [exact Hm|].
  eapply R_trans; [exact Hm | apply Hh].
Qed.

Lemma keeps_if {A} (b : bool) (m1 m2 : M A) :
  keeps R m1 -> keeps R m2 -> keeps R (if b then m1 else m2).
Proof. now destruct b. Qed.

Lemma keeps_for_each {A} (body : A -> M unit) l :
  (forall x, keeps R (body x)) -> keeps R (for_each body l).
Proof.
  intros Hb. induction l as [|x l IH]; simpl.
  - apply keeps_ret.
  - apply keeps_bind; [apply Hb | intros _; exact IH].
Qed.

Lemma keeps_batch_loop {A} bs delay (body : list A -> M unit) items fuel i :
  (forall b, keeps R (body b)) -> keeps R (sleep delay) ->
  keeps R (batch_loop bs delay body items fuel i).
Proof.
  intros Hb Hs. revert i. induction fuel as [|fuel IH]; intros i; simpl.
  - apply keeps_ret.
  - apply keeps_if; [|apply keeps_ret].
    apply keeps_bind; [apply Hb | intros _].
    apply keeps_bind; [|intros _; apply IH].
    apply keeps_if; [exact Hs | apply keeps_ret].
Qed.

End Frame.

(** ** Computations that cannot raise *)

Lemma never_throws_ret {A} (a : A) : never_throws (ret a).
Proof. intros w. now exists a. Qed.

Lemma never_throws_bind {A B} (m : M A) (k : A -> M B) :
  never_throws m -> (forall a, never_throws (k a)) -> never_throws (bind m k).
Proof.
  intros Hm Hk w. unfold bind. destruct (Hm w) as [a Ha].
  destruct (m w) as [[a'|e] w1]; simpl in Ha; [|discriminate].
  apply Hk.
Qed.

Lemma never_throws_try_catch {A} (m : M A) (h : string -> M A) :
  (forall e, never_throws (h e)) -> never_throws (try_catch m h).
Proof.
  intros Hh w. unfold try_catch.
  destruct (m w) as [[a|e] w1]; [now exists a | apply Hh].
Qed.

Lemma never_throws_if {A} (b : bool) (m1 m2 : M A) :
  never_throws m1 -> never_throws m2 -> never_throws (if b then m1 else m2).
Proof. now destruct b. Qed.

Lemma never_throws_for_each {A} (body : A -> M unit) l :
  (forall x, never_throws (body x)) -> never_throws (for_each body l).
Proof.
  intros Hb. induction l as [|x l IH]; simpl.
  - apply never_throws_ret.
  - apply never_throws_bind; [apply Hb | intros _; exact IH].
Qed.

Lemma never_throws_batch_loop {A} bs delay (body : list A -> M unit)
      items fuel i :
  (forall b, never_throws (body b)) ->
  never_throws (batch_loop bs delay body items fuel i).
Proof.
  intros Hb. revert i. induction fuel as [|fuel IH]; intros i; simpl.
  - apply never_throws_ret.
  - apply never_throws_if; [|apply never_throws_ret].
    apply never_throws_bind; [apply Hb | intros _].
    apply never_throws_bind; [|intros _; apply IH].
    apply never_throws_if; [|apply never_throws_ret].
    intros w. now exists tt.
Qed.

Section ClientFacts.

Variable env : Env.

Lemma executeRequest_never_throws e : never_throws (executeRequest env e).
Proof. intros w. now eexists. Qed.

Lemma sync_status_of_never_throws d : never_throws (sync_status_of env d).
Proof. apply never_throws_try_catch. intros _. apply never_throws_ret. Qed.

Lemma sync_domain_never_throws d : never_throws (sync_domain env d).
Proof. apply never_throws_try_catch. intros _. apply never_throws_ret. Qed.

Lemma performStatusSync_never_throws : never_throws (performStatusSync env).
Proof. apply never_throws_try_catch. intros _. apply never_throws_ret. Qed.


Lemma refreshDomains_never_throws : never_throws (refreshDomains env).
Proof. apply never_throws_try_catch. intros e. apply never_throws_ret. Qed.

End ClientFacts.

(* ------------------------------------------------------------------ *)
(** ** The narrow status update *)

Ltac run_monad :=
  cbv beta iota delta [try_catch bind ret throw gets modify getConnection
    execute query db_op executeRequest sleep log with_cache with_event
    with_db_op with_api_call with_guard] in *;
  simpl in *.

Section StatusUpdate.

Variable env : Env.

(** C8. [updateDomainStatusInCache(id, status)], and the UPDATE the
    enrichment pass issues for a domain, each leave the table with the
    same rows in the same places: every column other than [status] and
    [last_updated] of every row is unchanged (so [name], [owner] and
    [ip_addresses] are), rows of any other id are unchanged altogether,
    and neither call raises. *)
Theorem upsertStatus_touches_only_status (w : World) (i : Z) (st : string)
    (domain : Row) :
  fst (updateDomainStatusInCache env i st w) = Ret tt /\
  status_frame i (cache w) (cache (snd (updateDomainStatusInCache env i st w))) /\
  fst (sync_status_of env domain w) = Ret tt /\
  status_frame (id domain) (cache w)
    (cache (snd (sync_status_of env domain w))).
Proof.
  unfold updateDomainStatusInCache, sync_status_of. run_monad.
  repeat split.
  - destruct (db_fault env (db_ops w)); simpl; [reflexivity|].
    destruct (db_fault env (S (db_ops w))); reflexivity.
  - destruct (db_fault env (db_ops w)); simpl; [apply status_frame_refl|].
    destruct (db_fault env (S (db_ops w))); simpl;
      [apply status_frame_refl | apply update_status_frame].
  - destruct (db_fault env (db_ops w)); reflexivity.
  - destruct (db_fault env (db_ops w)); simpl;
      [apply status_frame_refl | apply update_status_frame].
Qed.

End StatusUpdate.

(* ------------------------------------------------------------------ *)
(** ** Storing the listing *)

Lemma update_listing_idem r v :
  update_listing (update_listing r v) v = update_listing r v.
Proof. reflexivity. Qed.

Lemma update_listing_self v : update_listing v v = v.
Proof. now destruct v. Qed.

(** Where a row of the table comes from after one listing upsert. *)
Lemma upsert_listing_in r v t :
  In r (upsert_listing v t) ->
  (id r <> id v /\ In r t) \/
  (id r = id v /\ update_listing r v = r /\
   ((exists r0, In r0 t /\ id r0 = id v /\ status r0 = status r) \/
    (has_id (id v) t = false /\ r = v))).
Proof.
  unfold upsert_listing, insert_on_duplicate.
  destruct (has_id (id v) t) eqn:E.
  - intros Hin. apply in_map_iff in Hin as [r0 [Hr Hin]].
    destruct (id r0 =? id v)%Z eqn:Eid.
    + apply Z.eqb_eq in Eid. right. subst r. simpl.
      split; [exact Eid|]. split; [reflexivity|]. left. now exists r0.
    + apply Z.eqb_neq in Eid. left. subst r. now split.
  - intros Hin. apply in_app_or in Hin as [Hin|[Hv|[]]].
    + left. split; [|exact Hin]. apply has_id_false in E.
      intros Heq. apply E. rewrite <- Heq. now apply in_map.
    + subst r. right. split; [reflexivity|].
      split; [apply update_listing_self|]. now right.
Qed.

Lemma upsert_listing_keeps_ids i v t :
  has_id i t = true -> has_id i (upsert_listing v t) = true.
Proof.
  intros H. apply has_id_true. apply has_id_true in H.
  unfold upsert_listing.
  rewrite insert_on_duplicate_ids by (intros; reflexivity).
  destruct (has_id (id v) t); [exact H | apply in_or_app; now left].
Qed.

Lemma store_all_keeps_ids vs : forall i t,
  has_id i t = true -> has_id i (store_all vs t) = true.
Proof.
  induction vs as [|v vs IH]; intros i t H; simpl; [exact H|].
  apply IH. now apply upsert_listing_keeps_ids.
Qed.

(** A row whose id is not among the upserted ones was there before. *)
Lemma store_all_untouched vs : forall r t,
  In r (store_all vs t) -> ~ In (id r) (map id vs) -> In r t.
Proof.
  induction vs as [|v vs IH]; intros r t Hin Hnot; simpl in *; [exact Hin|].
  apply IH in Hin; [|tauto].
  apply upsert_listing_in in Hin as [[_ Hin]|[Heq _]]; [exact Hin|].
  exfalso. apply Hnot. left. now symmetry.
Qed.

(** Every row after the upserts was there before or has an upserted id. *)
Lemma store_all_ids vs : forall r t,
  In r (store_all vs t) -> In r t \/ In (id r) (map id vs).
Proof.
  intros r t Hin.
  destruct (in_dec Z.eq_dec (id r) (map id vs)) as [H|H]; [now right|].
  left. eapply store_all_untouched; eassumption.
Qed.

(** The status of any row after the upserts: the one its id had before,
    or unknown for a new id, provided the VALUES rows say unknown. *)
Lemma store_all_status vs : forall t,
  Forall (fun v => status v = "unknown") vs ->
  forall r, In r (store_all vs t) ->
    (exists r0, In r0 t /\ id r0 = id r /\ status r0 = status r) \/
    (has_id (id r) t = false /\ status r = "unknown").
Proof.
  induction vs as [|v vs IH]; intros t Hvs r Hin; simpl in *.
  - left. now exists r.
  - inversion Hvs as [|? ? Hv Hvs']; subst.
    destruct (IH _ Hvs' r Hin) as [[r1 [Hin1 [Hid1 Hst1]]]|[Hno Hst]].
    + apply upsert_listing_in in Hin1
        as [[Hne Hin0]|[Heq [_ [[r0 [Hin0 [Hid0 Hst0]]]|[Hno Hrv]]]]].
      * left. exists r1. now repeat split.
      * left. exists r0. repeat split; [assumption|congruence|congruence].
      * right. subst r1. split; [congruence|congruence].
    + right. split; [|exact Hst].
      destruct (has_id (id r) t) eqn:E; [|reflexivity].
      apply (upsert_listing_keeps_ids _ v) in E. congruence.
Qed.

Lemma values_of_ids ds vs : values_of ds vs -> map id vs = map d_id ds.
Proof.
  induction 1 as [|d v ds vs [n [now [_ ->]]] _ IH]; simpl;
    [reflexivity | now f_equal].
Qed.

Lemma values_of_status ds vs :
  values_of ds vs -> Forall (fun v => status v = "unknown") vs.
Proof.
  induction 1 as [|d v ds vs [n [now [_ ->]]] _ IH]; constructor; auto.
Qed.

Lemma store_all_listing_stored ds vs :
  values_of ds vs -> forall t, listing_stored ds t (store_all vs t).
Proof.
  intros Hvals. pose proof (values_of_status _ _ Hvals) as Hst.
  induction Hvals as [|d v ds vs [n [now [Hn Hv]]] Hvals IH]; intros t.
  - repeat split; simpl.
    + intros d [].
    + intros r _ [].
    + intros r Hin. left. now exists r.
  - inversion Hst as [|? ? _ Hst']; subst v.
    set (v := listing_values now n d) in *.
    destruct (IH Hst' (upsert_listing v t)) as [Ha [Hb _]].
    split; [|split].
    + intros d' [<-|Hd']; [|now apply Ha].
      simpl. apply store_all_keeps_ids.
      apply (insert_on_duplicate_has_id update_listing v t).
      intros old. apply update_listing_id.
    + intros r Hin Hid. simpl in Hin.
      destruct (in_dec Z.eq_dec (id r) (map d_id ds)) as [Hrest|Hrest].
      * destruct (Hb r Hin Hrest) as [d' [Hd' Hcar]]. exists d'.
        split; [now right | exact Hcar].
      * destruct Hid as [Hid|Hid]; [|contradiction].
        rewrite <- (values_of_ids _ _ Hvals) in Hrest.
        apply store_all_untouched in Hin; [|exact Hrest].
        apply upsert_listing_in in Hin as [[Hne _]|[_ [Hupd _]]].
        -- exfalso. apply Hne. now rewrite <- Hid.
        -- exists d. split; [now left|]. split; [exact Hid|].
           exists n, now. now split.
    + intros r Hin. apply (store_all_status (v :: vs) t Hst r Hin).
Qed.

Section Fetch.

Variable env : Env.

(** The store loop of [fetchAndStoreDomains] upserts the items in order
    and stops at the first one that raises. *)
Lemma store_listing_run ds : forall w o w',
  for_each (store_listing_item env) ds w = (o, w') ->
  exists ds1 ds2 vs,
    ds = ds1 ++ ds2 /\ values_of ds1 vs /\
    cache w' = store_all vs (cache w) /\
    (o = Ret tt -> ds2 = []).
Proof.
  induction ds as [|d ds IH]; intros w o w' Hrun; simpl in Hrun.
  - inversion Hrun; subst. exists [], [], []. repeat split. constructor.
  - unfold bind at 1 in Hrun. unfold store_listing_item in Hrun.
    destruct (listing_binds d) as [n| |msg] eqn:Hn; cbn [execute_bound] in Hrun.
    + run_monad. destruct (db_fault env (db_ops w)) as [e|] eqn:Hf.
      * inversion Hrun; subst. exists [], (d :: ds), [].
        repeat split; [constructor | discriminate].
      * apply IH in Hrun as [ds1 [ds2 [vs [Hds [Hvs [Hc Hret]]]]]].
        exists (d :: ds1), ds2,
          (listing_values (db_now env (db_ops w)) n d :: vs).
        repeat split; [simpl; now f_equal | | exact Hc | exact Hret].
        constructor; [|exact Hvs]. now exists n, (db_now env (db_ops w)).
    + run_monad. inversion Hrun; subst. exists [], (d :: ds), [].
      repeat split; [constructor | discriminate].
    + run_monad. exists [], (d :: ds), [].
      destruct (db_fault env (db_ops w)); inversion Hrun; subst;
        (repeat split; [constructor | discriminate]).
Qed.

(** What one call of [fetchAndStoreDomains] returns and leaves in the
    table, case by case. *)
Lemma fetchAndStoreDomains_run w :
  dbPool w = true ->
  match upstream env (api_calls w) (GetDomains None) with
  | ApiErr e _ =>
      fst (fetchAndStoreDomains env w) = Ret (FetchErr e) /\
      cache (snd (fetchAndStoreDomains env w)) = cache w
  | ApiOk data _ =>
      exists ds1 ds2 vs,
        as_array data = ds1 ++ ds2 /\ values_of ds1 vs /\
        cache (snd (fetchAndStoreDomains env w)) = store_all vs (cache w) /\
        ((fst (fetchAndStoreDomains env w)
            = Ret (FetchOk (List.length (as_array data))) /\ ds2 = []) \/
         exists msg, fst (fetchAndStoreDomains env w) = Ret (FetchErr msg))
  end.
Proof.
  intros Hpool. unfold fetchAndStoreDomains. run_monad.
  destruct (upstream env (api_calls w) (GetDomains None)) as [data http|e http];
    [|now split].
  rewrite Hpool. simpl.
  destruct (db_fault env (db_ops w)) as [e|] eqn:Hf; simpl.
  - exists [], (as_array data), [].
    split; [reflexivity|]. split; [constructor|]. split; [reflexivity|].
    right. now exists e.
  - match goal with
    | |- context [for_each ?b ?l ?w0] =>
        destruct (for_each b l w0) as [o w1] eqn:Hrun
    end.
    apply store_listing_run in Hrun as [ds1 [ds2 [vs [Hds [Hvs [Hc Hret]]]]]].
    exists ds1, ds2, vs. simpl in Hc.
    destruct o as [[]|msg]; simpl;
      (split; [exact Hds|]; split; [exact Hvs|]; split; [exact Hc|]).
    + left. split; [reflexivity | now apply Hret].
    + right. now exists msg.
Qed.


End Fetch.

(* ------------------------------------------------------------------ *)
(** ** What leaves the run guard alone *)

Lemma same_guard_refl w : same_guard w w.
Proof. now repeat split. Qed.

Lemma same_guard_trans a b c : same_guard a b -> same_guard b c -> same_guard a c.
Proof. unfold same_guard. intuition congruence. Qed.

Section GuardFrame.

Variable env : Env.

Ltac guard_step :=
  first
    [ apply (keeps_ret same_guard same_guard_refl)
    | apply (keeps_throw same_guard same_guard_refl)
    | apply (keeps_gets same_guard same_guard_refl)
    | apply (keeps_bind same_guard same_guard_trans)
    | apply (keeps_try_catch same_guard same_guard_trans)
    | apply (keeps_for_each same_guard same_guard_refl same_guard_trans)
    | apply (keeps_batch_loop same_guard same_guard_refl same_guard_trans)
    | apply (keeps_if same_guard) ].

Lemma keeps_db_op_guard : keeps same_guard (db_op env).
Proof.
  intros w. unfold db_op, same_guard.
  now destruct (db_fault env (db_ops w)).
Qed.

Lemma keeps_execute_guard stmt : keeps same_guard (execute env stmt).
Proof.
  unfold execute. guard_step; [apply keeps_db_op_guard|].
  intros a w. unfold same_guard. now simpl.
Qed.

Lemma keeps_getConnection_guard : keeps same_guard (getConnection env).
Proof.
  unfold getConnection. guard_step; [apply keeps_db_op_guard|].
  intros a. guard_step.
Qed.

Lemma keeps_query_guard {A} (sel : Table -> A) : keeps same_guard (query env sel).
Proof.
  unfold query. guard_step; [apply keeps_db_op_guard|].
  intros a. guard_step.
Qed.

Lemma keeps_executeRequest_guard e : keeps same_guard (executeRequest env e).
Proof. intros w. unfold same_guard. now simpl. Qed.

Lemma keeps_sleep_guard ms : keeps same_guard (sleep ms).
Proof. intros w. unfold same_guard. now simpl. Qed.

Lemma keeps_execute_bound_guard {A} (b : Binding A) stmt :
  keeps same_guard (execute_bound env b stmt).
Proof.
  destruct b as [a| |msg]; cbn [execute_bound].
  - apply keeps_execute_guard.
  - guard_step.
  - guard_step; [apply keeps_db_op_guard | intros _; guard_step].
Qed.

Lemma keeps_store_listing_item_guard d :
  keeps same_guard (store_listing_item env d).
Proof. apply keeps_execute_bound_guard. Qed.

Lemma keeps_fetch_guard : keeps same_guard (fetchAndStoreDomains env).
Proof.
  unfold fetchAndStoreDomains.
  guard_step; [|intros e; guard_step].
  guard_step; [apply keeps_executeRequest_guard|].
  intros [data http|e http]; [|guard_step].
  guard_step; [guard_step|]. intros pool.
  guard_step; [|intros _; guard_step].
  guard_step; [|guard_step].
  guard_step; [apply keeps_getConnection_guard|]. intros _.
  guard_step. apply keeps_store_listing_item_guard.
Qed.

Lemma keeps_sync_status_of_guard d : keeps same_guard (sync_status_of env d).
Proof.
  unfold sync_status_of.
  guard_step; [|intros e; guard_step].
  guard_step; [apply keeps_executeRequest_guard|].
  intros r. apply keeps_execute_guard.
Qed.

Lemma keeps_performStatusSync_guard : keeps same_guard (performStatusSync env).
Proof.
  unfold performStatusSync.
  guard_step; [|intros e; guard_step].
  guard_step; [guard_step|]. intros pool.
  guard_step; [guard_step|].
  guard_step; [apply keeps_getConnection_guard|]. intros _.
  guard_step; [apply keeps_query_guard|]. intros domains.
  guard_step; [|apply keeps_sleep_guard].
  intros b. guard_step. apply keeps_sync_status_of_guard.
Qed.

Lemma keeps_sync_domain_guard d : keeps same_guard (sync_domain env d).
Proof.
  unfold sync_domain.
  guard_step; [|intros e; guard_step].
  guard_step.
  - guard_step; [|intros e; guard_step].
    guard_step; [apply keeps_executeRequest_guard|].
    intros r. guard_step.
  - intros [st syncError]. apply keeps_execute_bound_guard.
Qed.

Lemma keeps_performBackgroundSync_guard :
  keeps same_guard (performBackgroundSync env).
Proof.
  unfold performBackgroundSync.
  guard_step; [|intros e; guard_step].
  guard_step; [apply keeps_executeRequest_guard|].
  intros [data http|e http]; [|guard_step].
  guard_step; [apply keeps_getConnection_guard|]. intros _.
  guard_step; [|apply keeps_sleep_guard].
  intros b. unfold syncDomainBatch. guard_step. apply keeps_sync_domain_guard.
Qed.

Lemma keeps_listDomains_guard f : keeps same_guard (listDomains env f).
Proof.
  unfold listDomains. simpl. unfold listDomains_upstream.
  guard_step; [apply keeps_executeRequest_guard|].
  intros r. guard_step.
Qed.

End GuardFrame.

(* ------------------------------------------------------------------ *)
(** ** Forced refresh *)

Section Refresh.

Variable env : Env.

Lemma startStatusSync_run w :
  startStatusSync w =
  (Ret tt,
   if statusSyncRunning w
   then with_event (Log "Status sync already running") w
   else with_guard true (S (pending w)) w).
Proof.
  unfold startStatusSync, log.
  cbv beta iota delta [bind gets modify].
  now destruct (statusSyncRunning w).
Qed.

(** With the store answering its first two operations, a refresh is the
    DELETE, then the fetch, then the trigger when the fetch succeeded. *)
Lemma refreshDomains_run w :
  dbPool w = true ->
  db_fault env (db_ops w) = None ->
  db_fault env (S (db_ops w)) = None ->
  refreshDomains env w =
  match fetchAndStoreDomains env (cleared w) with
  | (Ret (FetchOk n), w3) => (Ret (FetchOk n), snd (startStatusSync w3))
  | (Ret (FetchErr e), w3) => (Ret (FetchErr e), w3)
  | (Throw e, w3) => (Ret (FetchErr e), w3)
  end.
Proof.
  intros Hpool Hf1 Hf2. unfold refreshDomains, cleared.
  cbv beta iota delta [try_catch bind ret gets getConnection execute db_op
    modify].
  rewrite Hpool, Hf1. simpl. rewrite Hf2. simpl.
  unfold with_cache, with_db_op; simpl.
  match goal with
  | |- context [fetchAndStoreDomains env ?w0] =>
      destruct (fetchAndStoreDomains env w0) as [[[n|e]|e] w3]
  end; try reflexivity.
  rewrite startStatusSync_run. simpl.
  now destruct (statusSyncRunning w3).
Qed.

(** A refresh whose connection or DELETE is refused reports the error
    and leaves the table as it was. *)
Lemma refreshDomains_clear_refused w :
  dbPool w = true ->
  db_fault env (db_ops w) <> None \/ db_fault env (S (db_ops w)) <> None ->
  exists msg,
    fst (refreshDomains env w) = Ret (FetchErr msg) /\
    cache (snd (refreshDomains env w)) = cache w.
Proof.
  intros Hpool Hf. unfold refreshDomains.
  cbv beta iota delta [try_catch bind ret gets getConnection execute db_op
    modify].
  rewrite Hpool. simpl.
  destruct (db_fault env (db_ops w)) as [e1|]; simpl; [now exists e1|].
  destruct (db_fault env (S (db_ops w))) as [e2|]; simpl; [now exists e2|].
  destruct Hf as [Hf|Hf]; congruence.
Qed.

(** C9. Whenever [refreshDomains] reports success, the cache holds
    exactly the stored fresh listing: every row has an id of the fresh
    upstream listing (a row cached before under any other id is gone) and
    status unknown, the count is the listing's, and the status sync has
    been triggered: the guard is set and a run is pending. The stale rows
    are gone as soon as the connection and the DELETE succeed, also when
    the refetch then fails. *)
Theorem refreshDomains_drops_stale_rows (w : World) :
  dbPool w = true ->
  (forall n, fst (refreshDomains env w) = Ret (FetchOk n) ->
     n = List.length (fresh_listing env w) /\
     (forall r, In r (cache (snd (refreshDomains env w))) ->
        In (id r) (map d_id (fresh_listing env w))) /\
     listing_stored (fresh_listing env w) []
       (cache (snd (refreshDomains env w))) /\
     statusSyncRunning (snd (refreshDomains env w)) = true /\
     pending (snd (refreshDomains env w)) =
       if statusSyncRunning w then pending w else S (pending w)) /\
  (db_fault env (db_ops w) = None ->
   db_fault env (S (db_ops w)) = None ->
   forall r, In r (cache (snd (refreshDomains env w))) ->
     In (id r) (map d_id (fresh_listing env w))).
Proof.
  intros Hpool.
  assert (Hclear :
    db_fault env (db_ops w) = None ->
    db_fault env (S (db_ops w)) = None ->
    (forall r, In r (cache (snd (refreshDomains env w))) ->
       In (id r) (map d_id (fresh_listing env w))) /\
    (forall n, fst (refreshDomains env w) = Ret (FetchOk n) ->
       n = List.length (fresh_listing env w) /\
       listing_stored (fresh_listing env w) []
         (cache (snd (refreshDomains env w))) /\
       statusSyncRunning (snd (refreshDomains env w)) = true /\
       pending (snd (refreshDomains env w)) =
         if statusSyncRunning w then pending w else S (pending w))).
  { intros Hf1 Hf2. rewrite (refreshDomains_run w Hpool Hf1 Hf2).
    assert (Hpool' : dbPool (cleared w) = true) by exact Hpool.
    pose proof (fetchAndStoreDomains_run env (cleared w) Hpool') as Hrun.
    pose proof (keeps_fetch_guard env (cleared w)) as Hguard.
    unfold fresh_listing.
    change (api_calls (cleared w)) with (api_calls w) in Hrun.
    destruct (upstream env (api_calls w) (GetDomains None))
      as [data http|e http].
    - destruct Hrun as [ds1 [ds2 [vs [Hds [Hvs [Hc Hres]]]]]].
      change (cache (cleared w)) with (@nil Row) in Hc.
      destruct (fetchAndStoreDomains env (cleared w)) as [o w3] eqn:Hfetch.
      simpl in Hc, Hres, Hguard.
      assert (Hrows : forall r, In r (cache w3) ->
                                In (id r) (map d_id (as_array data))).
      { intros r Hin. rewrite Hc in Hin.
        apply store_all_ids in Hin as [[]|Hin].
        rewrite (values_of_ids _ _ Hvs) in Hin.
        rewrite Hds, map_app. apply in_or_app. now left. }
      destruct Hres as [[Ho Hnil]|[msg Ho]]; subst o.
      + rewrite startStatusSync_run. split.
        * intros r Hin. apply Hrows.
          simpl in Hin. now destruct (statusSyncRunning w3).
        * intros n Hn. inversion Hn; subst n. split; [reflexivity|].
          destruct Hguard as [Hflag [Hpend _]].
          change (statusSyncRunning (cleared w)) with (statusSyncRunning w)
            in Hflag.
          change (pending (cleared w)) with (pending w) in Hpend.
          subst ds2. rewrite app_nil_r in Hds.
          assert (Hstored : listing_stored (as_array data) [] (cache w3)).
          { rewrite Hc, Hds. now apply store_all_listing_stored. }
          simpl. rewrite <- Hflag.
          destruct (statusSyncRunning w3) eqn:E; simpl;
            rewrite ?E, ?Hpend; auto.
      + split; [exact Hrows | intros n Hn; discriminate].
    - destruct Hrun as [Hres Hc].
      destruct (fetchAndStoreDomains env (cleared w)) as [o w3].
      simpl in *. subst o. split.
      + intros r Hin. cbn [snd] in Hin. rewrite Hc in Hin. inversion Hin.
      + intros n Hn. discriminate. }
  split.
  - intros n Hn.
    destruct (db_fault env (db_ops w)) as [e1|] eqn:Hf1.
    { destruct (refreshDomains_clear_refused w Hpool) as [msg [Hres _]];
        [left; congruence | rewrite Hres in Hn; discriminate]. }
    destruct (db_fault env (S (db_ops w))) as [e2|] eqn:Hf2.
    { destruct (refreshDomains_clear_refused w Hpool) as [msg [Hres _]];
        [right; congruence | rewrite Hres in Hn; discriminate]. }
    destruct (Hclear eq_refl eq_refl) as [Hrows Hok].
    destruct (Hok n Hn) as [Hcount [Hstored [Hflag Hpend]]].
    split; [exact Hcount|]. split; [exact Hrows|].
    split; [exact Hstored|]. split; assumption.
  - intros Hf1 Hf2. now apply Hclear.
Qed.

End Refresh.

(* ------------------------------------------------------------------ *)
(** ** The run guard *)

Lemma same_guard_inv w w' : same_guard w w' -> keeps_guard_inv w w'.
Proof.
  unfold same_guard, keeps_guard_inv, guard_inv.
  intros [-> [-> _]]. auto.
Qed.

Lemma keeps_guard_inv_refl w : keeps_guard_inv w w.
Proof. unfold keeps_guard_inv. auto. Qed.

Lemma keeps_guard_inv_trans a b c :
  keeps_guard_inv a b -> keeps_guard_inv b c -> keeps_guard_inv a c.
Proof. unfold keeps_guard_inv. auto. Qed.

Lemma keeps_same_guard_inv {A} (m : M A) :
  keeps same_guard m -> keeps keeps_guard_inv m.
Proof. intros H w. apply same_guard_inv, H. Qed.

Lemma startStatusSync_guard_inv : keeps keeps_guard_inv startStatusSync.
Proof.
  intros w. rewrite startStatusSync_run. unfold keeps_guard_inv, guard_inv.
  destruct (statusSyncRunning w) eqn:E; simpl; rewrite ?E.
  - auto.
  - intros [[H _]|[_ ->]]; [discriminate | now left].
Qed.

Lemma keeps_same_guard_inv_bind {A B} (m : M A) (k : A -> M B) :
  keeps same_guard m -> (forall a, keeps keeps_guard_inv (k a)) ->
  keeps keeps_guard_inv (bind m k).
Proof.
  intros Hm Hk. apply (keeps_bind _ keeps_guard_inv_trans); [|exact Hk].
  now apply keeps_same_guard_inv.
Qed.

Section Guard.

Variable env : Env.

Lemma refreshDomains_guard_inv : keeps keeps_guard_inv (refreshDomains env).
Proof.
  unfold refreshDomains.
  apply (keeps_try_catch _ keeps_guard_inv_trans);
    [|intros e; apply (keeps_ret _ keeps_guard_inv_refl)].
  apply keeps_same_guard_inv_bind.
  - apply (keeps_gets _ same_guard_refl).
  - intros pool. apply (keeps_bind _ keeps_guard_inv_trans).
    + apply keeps_same_guard_inv. apply keeps_if.
      * apply (keeps_bind _ same_guard_trans);
          [apply keeps_getConnection_guard | intros _; apply keeps_execute_guard].
      * apply (keeps_ret _ same_guard_refl).
    + intros _. apply keeps_same_guard_inv_bind;
        [apply keeps_fetch_guard|].
      intros result. apply (keeps_bind _ keeps_guard_inv_trans);
        [|intros _; apply (keeps_ret _ keeps_guard_inv_refl)].
      destruct result;
        [apply startStatusSync_guard_inv
        | apply (keeps_ret _ keeps_guard_inv_refl)].
Qed.

(** When the pending run settles the guard is cleared, whatever the run
    did and whether it returned or raised. *)
Lemma settle_with_clears (run : M unit) w :
  pending w <> 0%nat ->
  statusSyncRunning (settle_with run w) = false /\
  pending (settle_with run w) = Nat.pred (pending w).
Proof.
  intros Hp. unfold settle_with. destruct (pending w) as [|p]; [congruence|].
  destruct (run w) as [[[]|e] w1]; now simpl.
Qed.

Lemma settle_guard_inv w : keeps_guard_inv w (settle env w).
Proof.
  unfold keeps_guard_inv, guard_inv. intros Hinv.
  destruct (Nat.eq_dec (pending w) 0) as [Hz|Hnz].
  - unfold settle, settle_with. rewrite Hz. exact Hinv.
  - destruct (settle_with_clears (performStatusSync env) w Hnz) as [Hf Hp].
    right. split; [exact Hf|]. unfold settle. rewrite Hp.
    destruct Hinv as [[_ ->]|[_ H]]; [reflexivity | contradiction].
Qed.

Lemma step_guard_inv s w : guard_inv w -> guard_inv (step env s w).
Proof.
  intros Hinv. destruct s; cbn [step].
  - exact (startStatusSync_guard_inv w Hinv).
  - exact (settle_guard_inv w Hinv).
  - exact (refreshDomains_guard_inv w Hinv).
  - exact (keeps_same_guard_inv _ (keeps_fetch_guard env) w Hinv).
  - exact (keeps_same_guard_inv _ (keeps_listDomains_guard env nameFilter)
             w Hinv).
  - exact (keeps_same_guard_inv _ (keeps_performBackgroundSync_guard env)
             w Hinv).
Qed.

Lemma run_steps_guard_inv l : forall w,
  guard_inv w -> guard_inv (run_steps env l w).
Proof.
  induction l as [|s l IH]; intros w Hinv; simpl; [exact Hinv|].
  apply IH. now apply step_guard_inv.
Qed.

Lemma new_client_guard_inv t : guard_inv (new_client t).
Proof. right. now split. Qed.

(** C4. In every state the client reaches from its construction, through
    any interleaving of triggers, settling runs, refreshes, fetches and
    listings, at most one status-sync run is in flight; and a trigger
    that finds a run in flight changes nothing but the log, to which it
    adds its one line: it starts no run, makes no request and leaves the
    cache alone. *)
Theorem one_status_sync_at_a_time (steps : list Step) (t : Table) :
  let w := run_steps env steps (new_client t) in
  (pending w <= 1)%nat /\
  (pending w = 1%nat ->
   startStatusSync w =
     (Ret tt, with_event (Log "Status sync already running") w) /\
   pending (step env Trigger w) = 1%nat).
Proof.
  intros w.
  assert (Hinv : guard_inv w)
    by (apply run_steps_guard_inv, new_client_guard_inv).
  split.
  - destruct Hinv as [[_ ->]|[_ ->]]; lia.
  - intros Hp. destruct Hinv as [[Hf _]|[_ Hz]]; [|congruence].
    simpl. rewrite startStatusSync_run, Hf. now split.
Qed.

(** C10. In every reachable state the guard flag is set exactly when a
    run is in flight. A trigger that finds the flag clear sets it and
    leaves one run pending; when a pending run settles the flag is
    cleared, for any run body and whether it returned or raised; and
    after the run has settled the next trigger starts a new run. *)
Theorem guard_flag_tracks_run (steps : list Step) (t : Table) :
  let w := run_steps env steps (new_client t) in
  (statusSyncRunning w = true <-> pending w = 1%nat) /\
  (statusSyncRunning w = false <-> pending w = 0%nat) /\
  (statusSyncRunning w = false ->
   statusSyncRunning (step env Trigger w) = true /\
   pending (step env Trigger w) = 1%nat) /\
  (pending w = 1%nat ->
   (forall run : M unit,
      statusSyncRunning (settle_with run w) = false /\
      pending (settle_with run w) = 0%nat) /\
   statusSyncRunning (step env Settle w) = false /\
   statusSyncRunning (step env Trigger (step env Settle w)) = true /\
   pending (step env Trigger (step env Settle w)) = 1%nat).
Proof.
  intros w.
  assert (Hinv : guard_inv w)
    by (apply run_steps_guard_inv, new_client_guard_inv).
  split; [|split; [|split]].
  - destruct Hinv as [[-> ->]|[-> ->]]; split; congruence.
  - destruct Hinv as [[-> ->]|[-> ->]]; split; congruence.
  - intros Hf. destruct Hinv as [[H _]|[_ Hz]]; [congruence|].
    simpl. rewrite startStatusSync_run, Hf. simpl. now rewrite Hz.
  - intros Hp.
    assert (Hnz : pending w <> 0%nat) by lia.
    split; [|split].
    + intros run. destruct (settle_with_clears run w Hnz) as [Hf Hq].
      split; [exact Hf|]. rewrite Hq, Hp. reflexivity.
    + apply (settle_with_clears (performStatusSync env) w Hnz).
    + destruct (settle_with_clears (performStatusSync env) w Hnz) as [Hf Hq].
      simpl. rewrite startStatusSync_run. fold (settle env w).
      unfold settle. rewrite Hf. simpl. rewrite Hq, Hp. now split.
Qed.

End Guard.

(* ------------------------------------------------------------------ *)
(** ** Batches *)

Lemma chunks_fuel {A} bs : (1 <= bs)%nat ->
  forall f1 f2 (l : list A),
    (List.length l <= f1)%nat -> (List.length l <= f2)%nat ->
    chunks f1 bs l = chunks f2 bs l.
Proof.
  intros Hbs. induction f1 as [|f1 IH]; intros f2 l H1 H2.
  - destruct l; [|simpl in H1; lia]. now destruct f2.
  - destruct l as [|x l]; [now destruct f2|].
    destruct f2 as [|f2]; [simpl in H2; lia|].
    cbn [chunks]. f_equal.
    assert (Hlen : (List.length (skipn bs (x :: l)) <= List.length l)%nat).
    { rewrite length_skipn. cbn [List.length]. lia. }
    cbn [List.length] in H1, H2. apply IH; lia.
Qed.

Lemma batches_cons {A} bs (x : A) l : (1 <= bs)%nat ->
  batches bs (x :: l) = firstn bs (x :: l) :: batches bs (skipn bs (x :: l)).
Proof.
  intros Hbs. unfold batches. cbn [List.length chunks]. f_equal.
  apply chunks_fuel; [exact Hbs| |lia].
  rewrite length_skipn. cbn [List.length]. lia.
Qed.

Lemma batches_nil {A} bs : batches bs (@nil A) = [].
Proof. reflexivity. Qed.

(** Induction on a list, [bs] items at a time. *)
Lemma batch_induction {A} bs (Hbs : (1 <= bs)%nat) (P : list A -> Prop) :
  P [] ->
  (forall x l, P (skipn bs (x :: l)) -> P (x :: l)) ->
  forall l, P l.
Proof.
  intros Hnil Hstep l.
  remember (List.length l) as n eqn:Hn. revert l Hn.
  induction n as [n IH] using (well_founded_induction lt_wf).
  intros [|x l] Hn; [exact Hnil|].
  apply Hstep. eapply IH; [|reflexivity].
  subst n. rewrite length_skipn. cbn [List.length]. lia.
Qed.

(** The batches put end to end are the list. *)
Lemma batches_concat {A} bs (l : list A) : (1 <= bs)%nat ->
  List.concat (batches bs l) = l.
Proof.
  intros Hbs. induction l as [|x l IH] using (batch_induction bs Hbs);
    [reflexivity |].
  rewrite batches_cons by exact Hbs. cbn [List.concat]. rewrite IH.
  apply firstn_skipn.
Qed.

(** Every batch holds between one and [bs] items, and every batch but
    the last holds exactly [bs]. *)
Lemma batches_sizes {A} bs (l : list A) : (1 <= bs)%nat ->
  Forall (fun b => (1 <= List.length b <= bs)%nat) (batches bs l) /\
  Forall (fun b => List.length b = bs) (removelast (batches bs l)).
Proof.
  intros Hbs. induction l as [|x l [IH1 IH2]] using (batch_induction bs Hbs);
    [split; constructor |].
  rewrite batches_cons by exact Hbs. split.
  - constructor; [|exact IH1].
    rewrite length_firstn. cbn [List.length]. lia.
  - destruct (skipn bs (x :: l)) as [|y r] eqn:Hs.
    + rewrite batches_nil. constructor.
    + rewrite <- Hs in *.
      assert (Hne : batches bs (skipn bs (x :: l)) <> []).
      { rewrite Hs, batches_cons by exact Hbs. discriminate. }
      destruct (batches bs (skipn bs (x :: l))) as [|b bt] eqn:Hb;
        [congruence|].
      cbn [removelast]. constructor; [|exact IH2].
      rewrite length_firstn.
      assert (Hlen : (List.length (skipn bs (x :: l)) <> 0)%nat)
        by (rewrite Hs; discriminate).
      rewrite length_skipn in Hlen. lia.
Qed.

(** There are [ceil(n / bs)] batches. *)
Lemma batches_count {A} bs (l : list A) : (1 <= bs)%nat ->
  List.length (batches bs l) = ceil_div (List.length l) bs.
Proof.
  intros Hbs. unfold ceil_div.
  induction l as [|x l IH] using (batch_induction bs Hbs).
  - simpl. rewrite Nat.div_small; lia.
  - rewrite batches_cons by exact Hbs. cbn [List.length]. rewrite IH.
    rewrite length_skipn. cbn [List.length].
    destruct (Nat.le_gt_cases (S (List.length l)) bs) as [Hle|Hgt].
    + replace (S (List.length l) - bs)%nat with 0%nat by lia.
      rewrite (Nat.div_small (0 + bs - 1)) by lia.
      apply (Nat.div_unique _ _ 1 (List.length l)); lia.
    + replace (S (List.length l) + bs - 1)%nat
        with ((S (List.length l) - bs + bs - 1) + 1 * bs)%nat by lia.
      rewrite Nat.div_add by lia. lia.
Qed.

Lemma sleeps_of_app a b : sleeps_of (a ++ b) = sleeps_of a ++ sleeps_of b.
Proof.
  induction a as [|[e|ms|msg] a IH]; simpl; [reflexivity| | |];
    now rewrite IH.
Qed.

Lemma requests_of_app a b :
  requests_of (a ++ b) = requests_of a ++ requests_of b.
Proof.
  induction a as [|[e|ms|msg] a IH]; simpl; [reflexivity| | |];
    now rewrite IH.
Qed.

(** A paced run whose batches hold only requests sleeps once between
    consecutive batches, and issues the requests in order. *)
Lemma paced_sleeps delay bt :
  Forall (fun b => sleeps_of b = []) bt ->
  sleeps_of (paced delay bt) = repeat delay (List.length bt - 1).
Proof.
  induction 1 as [|b bt Hb Hbt IH]; [reflexivity|].
  cbn [paced]. rewrite !sleeps_of_app, Hb, IH.
  destruct bt as [|b' bt']; [reflexivity|].
  cbn [List.length]. simpl. now rewrite Nat.sub_0_r.
Qed.

Lemma paced_requests delay bt :
  requests_of (paced delay bt) = requests_of (List.concat bt).
Proof.
  induction bt as [|b bt IH]; [reflexivity|].
  cbn [paced List.concat]. rewrite !requests_of_app, IH.
  now destruct bt.
Qed.

(** The index loop of the code processes exactly the batches of its
    remaining items, with the delay between consecutive batches. *)
Lemma batch_loop_run_batches {A} bs delay (body : list A -> M unit) items :
  (1 <= bs)%nat ->
  forall fuel i w,
    (List.length items - i <= fuel)%nat ->
    batch_loop bs delay body items fuel i w =
    run_batches delay body (batches bs (skipn i items)) w.
Proof.
  intros Hbs. induction fuel as [|fuel IH]; intros i w Hfuel.
  - rewrite skipn_all2 by lia. reflexivity.
  - cbn [batch_loop]. destruct (i <? List.length items)%nat eqn:Hi.
    + apply Nat.ltb_lt in Hi.
      destruct (skipn i items) as [|x rest] eqn:Hrest.
      { apply (f_equal (@List.length A)) in Hrest.
        rewrite length_skipn in Hrest. simpl in Hrest. lia. }
      rewrite batches_cons by exact Hbs. rewrite <- Hrest.
      cbn [run_batches]. unfold slice.
      replace (i + bs - i)%nat with bs by lia.
      unfold bind at 1 3.
      destruct (body (firstn bs (skipn i items)) w) as [[u|e] w1];
        [|reflexivity].
      rewrite skipn_skipn, (Nat.add_comm bs i).
      assert (Hsleep :
        forall w', (if (i + bs <? List.length items)%nat
                    then sleep delay else ret tt) w' =
                   match batches bs (skipn (i + bs) items) with
                   | [] => ret tt
                   | _ :: _ => sleep delay
                   end w').
      { intros w'. destruct (i + bs <? List.length items)%nat eqn:Hn.
        - apply Nat.ltb_lt in Hn.
          destruct (skipn (i + bs) items) as [|y r] eqn:Hs.
          + apply (f_equal (@List.length A)) in Hs.
            rewrite length_skipn in Hs. simpl in Hs. lia.
          + now rewrite batches_cons by exact Hbs.
        - apply Nat.ltb_ge in Hn. now rewrite skipn_all2 by lia. }
      unfold bind. rewrite Hsleep.
      destruct (match batches bs (skipn (i + bs) items) with
                | [] => ret tt
                | _ :: _ => sleep delay
                end w1) as [[u'|e] w2]; [|reflexivity].
      apply IH. lia.
    + apply Nat.ltb_ge in Hi. now rewrite skipn_all2 by lia.
Qed.

(** ** The events of a batched run *)

Section BatchTrace.

Context {A : Type}.
Variable item : A -> M unit.
Variable ev : A -> Event.
Hypothesis item_event : forall d w,
  fst (item d w) = Ret tt /\ trace (snd (item d w)) = trace w ++ [ev d].

Lemma for_each_trace l : forall w,
  fst (for_each item l w) = Ret tt /\
  trace (snd (for_each item l w)) = trace w ++ map ev l.
Proof.
  induction l as [|d l IH]; intros w; simpl.
  - now rewrite app_nil_r.
  - unfold bind. destruct (item_event d w) as [Hr Ht].
    destruct (item d w) as [[u|e] w1]; simpl in Hr, Ht; [|discriminate].
    destruct (IH w1) as [Hr' Ht']. split; [exact Hr'|].
    rewrite Ht', Ht, <- app_assoc. reflexivity.
Qed.

Lemma run_batches_trace delay bt : forall w,
  fst (run_batches delay (for_each item) bt w) = Ret tt /\
  trace (snd (run_batches delay (for_each item) bt w)) =
    trace w ++ paced delay (map (map ev) bt).
Proof.
  induction bt as [|b bt IH]; intros w; cbn [run_batches map paced].
  - simpl. now rewrite app_nil_r.
  - unfold bind. destruct (for_each_trace b w) as [Hr Ht].
    destruct (for_each item b w) as [[u|e] w1]; simpl in Hr, Ht;
      [|discriminate].
    destruct bt as [|b' bt'].
    + cbn [ret run_batches map paced]. simpl. split; [reflexivity|].
      now rewrite Ht, !app_nil_r.
    + cbn [sleep modify].
      specialize (IH (with_event (Sleep delay) w1)).
      destruct IH as [Hr' Ht']. split; [exact Hr'|].
      rewrite Ht'. cbn [with_event trace]. rewrite Ht.
      rewrite <- !app_assoc. reflexivity.
Qed.

End BatchTrace.

(** ** ORDER BY *)

Section OrderBy.

Context {A : Type}.
Variable key : A -> Z.

Let leb (a b : A) : bool := (key a <=? key b)%Z.
Let le (a b : A) : Prop := (key a <= key b)%Z.

Lemma insert_by_perm x l : Permutation (x :: l) (insert_by leb x l).
Proof.
  induction l as [|y l IH]; simpl; [reflexivity|].
  destruct (leb x y); [reflexivity|].
  rewrite perm_swap. now constructor.
Qed.

Lemma order_by_perm l : Permutation l (order_by leb l).
Proof.
  induction l as [|x l IH]; simpl; [constructor|].
  rewrite <- insert_by_perm. now constructor.
Qed.

Lemma insert_by_hd x a l :
  le a x -> HdRel le a l -> HdRel le a (insert_by leb x l).
Proof.
  intros Hax Hl. destruct l as [|y l]; simpl; [now constructor|].
  destruct (leb x y); constructor; [exact Hax|].
  now inversion Hl.
Qed.

Lemma insert_by_sorted x l : Sorted le l -> Sorted le (insert_by leb x l).
Proof.
  induction 1 as [|y l Hs IH Hhd]; simpl; [repeat constructor|].
  unfold leb at 1. destruct (key x <=? key y)%Z eqn:E.
  - apply Z.leb_le in E. repeat constructor; assumption.
  - apply Z.leb_gt in E. constructor; [exact IH|].
    apply insert_by_hd; [unfold le; lia | exact Hhd].
Qed.

Lemma order_by_sorted l : Sorted le (order_by leb l).
Proof.
  induction l as [|x l IH]; simpl; [constructor|].
  now apply insert_by_sorted.
Qed.

End OrderBy.

(* ------------------------------------------------------------------ *)
(** ** The two sync runs *)

Lemma batches_partitioned {A} bs (l : list A) : (1 <= bs)%nat ->
  partitioned bs l (batches bs l).
Proof.
  intros Hbs. destruct (batches_sizes bs l Hbs) as [H1 H2].
  repeat split; auto using batches_concat, batches_count.
Qed.

Lemma pauses_pred n bs : pauses n bs = (ceil_div n bs - 1)%nat.
Proof. unfold pauses. lia. Qed.

Lemma paced_requests_only delay {A} (ev : A -> Event) bt :
  (forall d, sleeps_of [ev d] = []) ->
  sleeps_of (paced delay (map (map ev) bt)) =
  repeat delay (List.length bt - 1).
Proof.
  intros Hev. rewrite paced_sleeps, length_map; [reflexivity|].
  apply Forall_forall. intros b Hb. apply in_map_iff in Hb as [b0 [<- _]].
  induction b0 as [|d b0 IH]; [reflexivity|].
  change (map ev (d :: b0)) with ([ev d] ++ map ev b0).
  now rewrite sleeps_of_app, Hev, IH.
Qed.

Section SyncRuns.

Variable env : Env.

Lemma sync_status_of_event d w :
  fst (sync_status_of env d w) = Ret tt /\
  trace (snd (sync_status_of env d w)) = trace w ++ [status_request d].
Proof.
  unfold sync_status_of. run_monad.
  destruct (db_fault env (db_ops w)); now split.
Qed.

Lemma sync_domain_event d w :
  fst (sync_domain env d w) = Ret tt /\
  trace (snd (sync_domain env d w)) = trace w ++ [item_status_request d].
Proof.
  unfold sync_domain, execute_bound. run_monad.
  destruct (batch_binds d); simpl; try now split.
  - destruct (db_fault env (db_ops w)); now split.
  - destruct (db_fault env (db_ops w)); now split.
Qed.

(** With the store answering the connection and the SELECT, a status
    sync is the paced run over the batches of five of the selected
    rows. *)
Lemma performStatusSync_run w :
  dbPool w = true ->
  db_fault env (db_ops w) = None ->
  db_fault env (S (db_ops w)) = None ->
  performStatusSync env w =
  (Ret tt,
   snd (run_batches 3000 (for_each (sync_status_of env))
          (batches 5 (select_by_last_updated (cache w)))
          (with_db_op (with_db_op w)))).
Proof.
  intros Hpool Hf1 Hf2. unfold performStatusSync.
  cbv beta iota delta [try_catch bind ret gets getConnection query db_op].
  rewrite Hpool. simpl. rewrite Hf1. simpl. rewrite Hf2. simpl.
  rewrite batch_loop_run_batches by lia. rewrite skipn_O.
  match goal with
  | |- context [run_batches ?d ?b ?bt ?w0] =>
      destruct (run_batches_trace (sync_status_of env) status_request
                  sync_status_of_event d bt w0) as [Hr _];
      destruct (run_batches d b bt w0) as [o w1]
  end.
  simpl in Hr. now subst o.
Qed.

(** With the upstream answering the listing and the store giving a
    connection, a combined sync is the paced run over the batches of ten
    of the listing. *)
Lemma performBackgroundSync_run w data http :
  upstream env (api_calls w) (GetDomains None) = ApiOk data http ->
  db_fault env (db_ops w) = None ->
  performBackgroundSync env w =
  (Ret tt,
   snd (run_batches 2000 (syncDomainBatch env) (batches 10 (as_array data))
          (with_db_op (with_api_call (GetDomains None) w)))).
Proof.
  intros Hup Hf. unfold performBackgroundSync.
  cbv beta iota delta [try_catch bind ret getConnection db_op executeRequest].
  rewrite Hup. simpl. rewrite Hf. simpl.
  rewrite batch_loop_run_batches by lia. rewrite skipn_O.
  match goal with
  | |- context [run_batches ?d ?b ?bt ?w0] =>
      destruct (run_batches_trace (sync_domain env) item_status_request
                  sync_domain_event d bt w0) as [Hr _];
      change (for_each (sync_domain env)) with (syncDomainBatch env) in Hr;
      destruct (run_batches d b bt w0) as [o w1]
  end.
  simpl in Hr. now subst o.
Qed.

(** C5. A status-only sync run whose connection and SELECT succeed takes
    the cached rows in ascending [last_updated] order, cuts them into
    batches of 5, and its events are the status requests of each batch,
    batch after batch, with one 3000 ms delay between consecutive
    batches and none after the last: [max(0, ceil(n/5) - 1)] delays.
    A combined sync run whose listing and connection succeed does the
    same over the listing items, in listing order, with batches of 10 and
    2000 ms delays. *)
Theorem sync_runs_in_paced_batches (w : World) :
  (dbPool w = true ->
   db_fault env (db_ops w) = None ->
   db_fault env (S (db_ops w)) = None ->
   let ds := select_by_last_updated (cache w) in
   let events := paced 3000 (map (map status_request) (batches 5 ds)) in
   Permutation (cache w) ds /\ ascending ds /\
   partitioned 5 ds (batches 5 ds) /\
   performStatusSync env w =
     (Ret tt, snd (run_batches 3000 (for_each (sync_status_of env))
                     (batches 5 ds) (with_db_op (with_db_op w)))) /\
   trace (snd (performStatusSync env w)) = trace w ++ events /\
   requests_of events = map (fun r => GetDomainStatus (id r)) ds /\
   sleeps_of events = repeat 3000%Z (pauses (List.length ds) 5)) /\
  (forall data http,
   upstream env (api_calls w) (GetDomains None) = ApiOk data http ->
   db_fault env (db_ops w) = None ->
   let ds := as_array data in
   let events := paced 2000 (map (map item_status_request) (batches 10 ds)) in
   partitioned 10 ds (batches 10 ds) /\
   performBackgroundSync env w =
     (Ret tt, snd (run_batches 2000 (syncDomainBatch env)
                     (batches 10 ds)
                     (with_db_op (with_api_call (GetDomains None) w)))) /\
   trace (snd (performBackgroundSync env w)) =
     trace w ++ Api (GetDomains None) :: events /\
   requests_of events = map (fun d => GetDomainStatus (d_id d)) ds /\
   sleeps_of events = repeat 2000%Z (pauses (List.length ds) 10)).
Proof.
  split.
  - intros Hpool Hf1 Hf2 ds events.
    split; [apply order_by_perm|]. split; [apply order_by_sorted|].
    split; [apply batches_partitioned; lia|].
    split; [now apply performStatusSync_run|].
    split; [|split].
    + rewrite performStatusSync_run by assumption. cbn [snd].
      destruct (run_batches_trace (sync_status_of env) status_request
                  sync_status_of_event 3000 (batches 5 ds)
                  (with_db_op (with_db_op w))) as [_ Ht].
      exact Ht.
    + unfold events. rewrite paced_requests.
      rewrite <- concat_map, batches_concat by lia.
      clear. induction ds as [|d ds IH]; [reflexivity|].
      simpl. now rewrite IH.
    + unfold events. rewrite paced_requests_only by reflexivity.
      rewrite batches_count by lia. now rewrite pauses_pred.
  - intros data http Hup Hf ds events.
    split; [apply batches_partitioned; lia|].
    split; [now apply (performBackgroundSync_run w data http)|].
    split; [|split].
    + rewrite (performBackgroundSync_run w data http) by assumption.
      cbn [snd].
      destruct (run_batches_trace (sync_domain env) item_status_request
                  sync_domain_event 2000 (batches 10 ds)
                  (with_db_op (with_api_call (GetDomains None) w)))
        as [_ Ht].
      change (for_each (sync_domain env)) with (syncDomainBatch env) in Ht.
      subst ds events. rewrite Ht. cbn [with_db_op with_api_call trace].
      now rewrite <- app_assoc.
    + unfold events. rewrite paced_requests.
      rewrite <- concat_map, batches_concat by lia.
      clear. induction ds as [|d ds IH]; [reflexivity|].
      simpl. now rewrite IH.
    + unfold events. rewrite paced_requests_only by reflexivity.
      rewrite batches_count by lia. now rewrite pauses_pred.
Qed.

End SyncRuns.

(* ------------------------------------------------------------------ *)
(** ** Failures stay with their item *)

Section Isolation.

Variable env : Env.

Lemma sync_status_of_run d w :
  sync_status_of env d w =
  (Ret tt,
   mkWorld (status_write env d (db_ops w) (api_calls w) (cache w))
           (dbPool w) (statusSyncRunning w) (pending w)
           (S (db_ops w)) (S (api_calls w))
           (trace w ++ [status_request d])).
Proof.
  unfold sync_status_of, status_write. run_monad.
  now destruct (db_fault env (db_ops w)).
Qed.

Lemma for_each_status_pass l : forall w,
  core (snd (for_each (sync_status_of env) l w)) =
  (status_pass env l (db_ops w) (api_calls w) (cache w),
   (db_ops w + List.length l)%nat, (api_calls w + List.length l)%nat).
Proof.
  induction l as [|d l IH]; intros w; cbn [for_each].
  - unfold core. simpl. now rewrite !Nat.add_0_r.
  - unfold bind. rewrite sync_status_of_run. rewrite IH.
    cbn [cache db_ops api_calls status_pass List.length].
    f_equal; [f_equal|]; lia.
Qed.

Lemma status_pass_app a : forall b db api t,
  status_pass env (a ++ b) db api t =
  status_pass env b (db + List.length a) (api + List.length a)
    (status_pass env a db api t).
Proof.
  induction a as [|d a IH]; intros b db api t; cbn [app status_pass List.length].
  - now rewrite !Nat.add_0_r.
  - rewrite IH. f_equal; lia.
Qed.

Lemma run_batches_status_pass delay bt : forall w,
  core (snd (run_batches delay (for_each (sync_status_of env)) bt w)) =
  (status_pass env (List.concat bt) (db_ops w) (api_calls w) (cache w),
   (db_ops w + List.length (List.concat bt))%nat,
   (api_calls w + List.length (List.concat bt))%nat).
Proof.
  induction bt as [|b bt IH]; intros w; cbn [run_batches List.concat].
  - unfold core. simpl. now rewrite !Nat.add_0_r.
  - unfold bind at 1.
    pose proof (for_each_status_pass b w) as Hb.
    destruct (for_each_trace (sync_status_of env) status_request
                (sync_status_of_event env) b w) as [Hr _].
    destruct (for_each (sync_status_of env) b w) as [o w1].
    cbn [fst snd] in *. subst o.
    assert (Hnext : forall w2, core w2 = core w1 ->
              core (snd (run_batches delay (for_each (sync_status_of env))
                           bt w2)) =
              (status_pass env (b ++ List.concat bt) (db_ops w)
                 (api_calls w) (cache w),
               (db_ops w + List.length (b ++ List.concat bt))%nat,
               (api_calls w + List.length (b ++ List.concat bt))%nat)).
    { intros w2 H2. rewrite IH. rewrite Hb in H2.
      unfold core in H2. inversion H2 as [[Hc Hd Ha]].
      rewrite Hc, Hd, Ha, status_pass_app, length_app.
      f_equal; [f_equal|]; lia. }
    unfold bind. destruct bt as [|b' bt']; cbn [ret sleep modify];
      apply Hnext; reflexivity.
Qed.

Lemma status_write_keeps r d db api t :
  In r t -> id r <> id d -> In r (status_write env d db api t).
Proof.
  intros Hin Hne. unfold status_write.
  destruct (db_fault env db); [exact Hin|].
  unfold update_status. apply in_map_iff. exists r. split; [|exact Hin].
  destruct (id r =? id d)%Z eqn:E; [|reflexivity].
  apply Z.eqb_eq in E. contradiction.
Qed.

(** A row whose id is not enriched by the pass goes through it as is. *)
Lemma status_pass_keeps ds : forall r db api t,
  In r t -> ~ In (id r) (map id ds) -> In r (status_pass env ds db api t).
Proof.
  induction ds as [|d ds IH]; intros r db api t Hin Hnot; [exact Hin|].
  cbn [status_pass]. apply IH; [|intros H; apply Hnot; now right].
  apply status_write_keeps; [exact Hin|].
  intros Heq. apply Hnot. left. now symmetry.
Qed.

(** The [k]-th enriched row ends with the status computed from its own
    response when its own UPDATE is not refused, whatever happens to
    the other rows of the pass. *)
Lemma status_pass_nth ds : forall k d db api t r,
  NoDup (map id ds) ->
  nth_error ds k = Some d ->
  db_fault env (db + k) = None ->
  In r t -> id r = id d ->
  In (set_status (db_now env (db + k))
        (status_of_response (upstream env (api + k) (GetDomainStatus (id d))))
        r)
     (status_pass env ds db api t).
Proof.
  induction ds as [|d0 ds IH]; intros k d db api t r Hnd Hk Hf Hin Hid.
  - destruct k; discriminate.
  - inversion Hnd as [|? ? Hnotin Hnd']; subst.
    destruct k as [|k]; cbn [nth_error status_pass] in *.
    + inversion Hk; subst d0. rewrite !Nat.add_0_r in *.
      apply status_pass_keeps; [|exact (eq_ind_r (fun i => ~ In i _) Hnotin Hid)].
      unfold status_write. rewrite Hf. unfold update_status.
      apply in_map_iff. exists r. split; [|exact Hin].
      rewrite Hid, Z.eqb_refl. reflexivity.
    + replace (db + S k)%nat with (S db + k)%nat in * by lia.
      replace (api + S k)%nat with (S api + k)%nat by lia.
      apply IH; try assumption.
      apply status_write_keeps; [exact Hin|].
      rewrite Hid. intros Heq. apply Hnotin. rewrite <- Heq.
      apply in_map. eapply nth_error_In. exact Hk.
Qed.

(** C6. A status-sync run never raises. When its connection and SELECT
    succeed it requests the status of every cached row, whatever
    requests or writes fail on the way, and each row whose own UPDATE is
    not refused ends with the status computed from its own response
    (the fetched status, or unknown when its fetch failed), its other
    columns untouched, whatever happened to the rows before and after it
    in the run. *)
Theorem status_sync_isolates_failures (w : World) :
  never_throws (performStatusSync env) /\
  (dbPool w = true ->
   db_fault env (db_ops w) = None ->
   db_fault env (S (db_ops w)) = None ->
   primary_key (cache w) ->
   let ds := select_by_last_updated (cache w) in
   let w' := snd (performStatusSync env w) in
   fst (performStatusSync env w) = Ret tt /\
   api_calls w' = (api_calls w + List.length (cache w))%nat /\
   (forall d, In d (cache w) -> In (status_request d) (trace w')) /\
   (forall k d,
      nth_error ds k = Some d ->
      db_fault env (db_ops w + 2 + k) = None ->
      In (set_status (db_now env (db_ops w + 2 + k))
            (status_of_response
               (upstream env (api_calls w + k) (GetDomainStatus (id d))))
            d)
         (cache w'))).
Proof.
  split; [apply performStatusSync_never_throws|].
  intros Hpool Hf1 Hf2 Hkey ds w'.
  assert (Hperm : Permutation (cache w) ds)
    by (apply (order_by_perm last_updated)).
  subst w'. rewrite (performStatusSync_run env w Hpool Hf1 Hf2). cbn [fst snd].
  fold ds.
  pose proof (run_batches_status_pass 3000 (batches 5 ds)
                (with_db_op (with_db_op w))) as Hcore.
  unfold core in Hcore. inversion Hcore as [[Hc Hd Ha]]. clear Hcore Hd.
  destruct (run_batches_trace (sync_status_of env) status_request
              (sync_status_of_event env) 3000 (batches 5 ds)
              (with_db_op (with_db_op w))) as [_ Ht].
  rewrite batches_concat in Hc, Ha by lia.
  split; [reflexivity|]. split; [|split].
  - rewrite Ha. cbn [with_db_op api_calls]. f_equal.
    symmetry. now apply Permutation_length.
  - intros d Hd. rewrite Ht. apply in_or_app. right.
    assert (Hin : In (status_request d) (map status_request ds))
      by (apply in_map; eapply Permutation_in; eassumption).
    rewrite <- (batches_concat 5 ds) in Hin by lia.
    rewrite concat_map in Hin. clear - Hin.
    induction (map (map status_request) (batches 5 ds)) as [|b bt IH];
      [inversion Hin|].
    cbn [List.concat paced] in *. apply in_app_or in Hin as [Hin|Hin].
    + apply in_or_app. now left.
    + apply in_or_app. right. apply in_or_app. right. now apply IH.
  - intros k d Hk Hf. rewrite Hc. cbn [with_db_op db_ops api_calls cache].
    replace (db_ops w + 2 + k)%nat with (S (S (db_ops w)) + k)%nat in * by lia.
    apply status_pass_nth; try assumption; [| |reflexivity].
    + unfold primary_key in Hkey.
      eapply Permutation_NoDup; [|exact Hkey]. now apply Permutation_map.
    + eapply Permutation_in; [apply Permutation_sym; exact Hperm|].
      eapply nth_error_In. exact Hk.
Qed.

End Isolation.

(* ------------------------------------------------------------------ *)
(** ** Where a failed status fetch ends up *)

Lemma same_sync_errors_refl w : same_sync_errors w w.
Proof. reflexivity. Qed.

Lemma same_sync_errors_trans a b c :
  same_sync_errors a b -> same_sync_errors b c -> same_sync_errors a c.
Proof. unfold same_sync_errors. congruence. Qed.

Lemma same_sync_errors_cache w w' :
  cache w' = cache w -> same_sync_errors w w'.
Proof. unfold same_sync_errors. now intros ->. Qed.

Section SyncErrors.

Variable env : Env.

Ltac errors_step :=
  first
    [ apply (keeps_ret same_sync_errors same_sync_errors_refl)
    | apply (keeps_gets same_sync_errors same_sync_errors_refl)
    | apply (keeps_bind same_sync_errors same_sync_errors_trans)
    | apply (keeps_try_catch same_sync_errors same_sync_errors_trans)
    | apply (keeps_for_each same_sync_errors same_sync_errors_refl
               same_sync_errors_trans)
    | apply (keeps_batch_loop same_sync_errors same_sync_errors_refl
               same_sync_errors_trans)
    | apply (keeps_if same_sync_errors) ].

Lemma keeps_db_op_errors : keeps same_sync_errors (db_op env).
Proof.
  intros w. apply same_sync_errors_cache. unfold db_op.
  now destruct (db_fault env (db_ops w)).
Qed.

Lemma keeps_update_status_errors st i :
  keeps same_sync_errors (execute env (fun now => update_status now st i)).
Proof.
  unfold execute. errors_step; [apply keeps_db_op_errors|].
  intros now w. unfold same_sync_errors. cbn [modify snd with_cache cache].
  unfold update_status. rewrite map_map. apply map_ext.
  intros r. now destruct (id r =? i)%Z.
Qed.

(** A status-sync run never writes a [sync_error]: row for row, the ids
    and the recorded errors after the run are those before it. *)
Lemma performStatusSync_keeps_sync_errors :
  keeps same_sync_errors (performStatusSync env).
Proof.
  unfold performStatusSync.
  errors_step; [|intros e; errors_step].
  errors_step; [errors_step|]. intros pool.
  errors_step; [errors_step|].
  errors_step.
  { unfold getConnection. errors_step; [apply keeps_db_op_errors|].
    intros _. errors_step. }
  intros _. errors_step.
  { unfold query. errors_step; [apply keeps_db_op_errors|].
    intros _. errors_step. }
  intros domains. errors_step.
  - intros b. errors_step. intros d. unfold sync_status_of.
    errors_step; [|intros e; errors_step].
    errors_step; [intros w; now apply same_sync_errors_cache|].
    intros r. apply keeps_update_status_errors.
  - intros w. now apply same_sync_errors_cache.
Qed.

(** The combined sync never records an error either: a row it writes
    has an empty [sync_error]. *)
Lemma sync_domain_records_no_error d w r :
  In r (cache (snd (sync_domain env d w))) ->
  In r (cache w) \/ sync_error r = None.
Proof.
  unfold sync_domain, execute_bound. run_monad.
  destruct (batch_binds d) as [n| |msg]; simpl; [|now left|].
  2: { destruct (db_fault env (db_ops w)); simpl; now left. }
  destruct (db_fault env (db_ops w)); simpl; [now left|].
  unfold upsert_full, insert_on_duplicate.
  match goal with |- context [has_id ?i ?t] => destruct (has_id i t) end.
  - intros Hin. apply in_map_iff in Hin as [r0 [<- Hin]].
    match goal with |- context [if ?c then _ else _] => destruct c end;
      [now right | now left].
  - intros Hin. apply in_app_or in Hin as [Hin|[<-|[]]];
      [now left | now right].
Qed.

End SyncErrors.

(** C2 (what the code does). With every status request failing, a status
    sync of a cache holding example.com (active) and test.org leaves both
    rows with status unknown and with no [sync_error]: the error message
    [connect ETIMEDOUT] is recorded nowhere. The combined sync of the same
    listing does the same. *)
Theorem status_fetch_error_is_not_recorded :
  let w := new_client [Sample.example_com; Sample.test_org] in
  map (fun r => (id r, status r, sync_error r))
      (cache (snd (performStatusSync Sample.status_outage w))) =
    [(1%Z, "unknown", None); (2%Z, "unknown", None)] /\
  map (fun r => (id r, status r, sync_error r))
      (cache (snd (performBackgroundSync Sample.status_outage w))) =
    [(1%Z, "unknown", None); (2%Z, "unknown", None)].
Proof. split; vm_compute; reflexivity. Qed.

(* ------------------------------------------------------------------ *)
(** ** The two [listDomains] *)

Section Facade.

Variable env : Env.

(** Reading the cache raises nothing, calls no upstream and changes
    neither the table nor the guard. *)
Lemma getDomainsFromCache_run f w :
  exists l w',
    getDomainsFromCache env f w = (Ret l, w') /\
    cache w' = cache w /\ api_calls w' = api_calls w /\
    trace w' = trace w /\ same_guard w w'.
Proof.
  unfold getDomainsFromCache, same_guard. run_monad.
  destruct (dbPool w) eqn:Hpool; simpl;
    [|do 2 eexists; split; [reflexivity | now rewrite Hpool]].
  destruct (db_fault env (db_ops w)); simpl;
    [do 2 eexists; split; [reflexivity | now simpl]|].
  destruct (db_fault env (S (db_ops w))); simpl;
    [do 2 eexists; (split; [reflexivity | now simpl])|].
  match goal with
  | |- context [map_or_raise ?g ?rows] => destruct (map_or_raise g rows)
  end; do 2 eexists; (split; [reflexivity | now simpl]).
Qed.

(** The cache-first body, taken alone, follows the read-through
    algorithm: a non-empty cache read is returned as such with
    [fromCache = true] and no upstream request; on an empty read the
    listing is fetched and stored, and either the fetch failed and the
    filtered test data come back, or the status sync is triggered and the
    cache is read again and returned with [fromCache = false]. *)
Lemma listDomains_cache_first_algorithm f w :
  forall l w1, getDomainsFromCache env f w = (Ret l, w1) ->
  (l <> [] ->
   listDomains_cache_first env f w =
     (Ret (Listed l (FromCache (List.length l)) (Some true)), w1) /\
   api_calls w1 = api_calls w) /\
  (l = [] ->
   (forall e w2, fetchAndStoreDomains env w1 = (Ret (FetchErr e), w2) ->
      listDomains_cache_first env f w = (Ret (getTestDomains f), w2)) /\
   (forall n w2 l' w3,
      fetchAndStoreDomains env w1 = (Ret (FetchOk n), w2) ->
      getDomainsFromCache env f (snd (startStatusSync w2)) = (Ret l', w3) ->
      listDomains_cache_first env f w =
        (Ret (Listed l' (SyncInProgress (List.length l')) (Some false)), w3))).
Proof.
  intros l w1 Hread.
  destruct (getDomainsFromCache_run f w) as [l0 [w0 [Hrun [_ [Hapi _]]]]].
  rewrite Hread in Hrun. inversion Hrun; subst l0 w0. clear Hrun.
  split.
  - intros Hne. split; [|exact Hapi].
    unfold listDomains_cache_first, try_catch, bind. rewrite Hread.
    destruct l as [|x l]; [congruence|]. reflexivity.
  - intros ->. split.
    + intros e w2 Hfetch.
      unfold listDomains_cache_first, try_catch, bind.
      rewrite Hread. cbn [List.length Nat.ltb Nat.leb].
      now rewrite Hfetch.
    + intros n w2 l' w3 Hfetch Hread2.
      unfold listDomains_cache_first, try_catch, bind.
      rewrite Hread. cbn [List.length Nat.ltb Nat.leb].
      rewrite Hfetch. rewrite startStatusSync_run in *. cbn [snd] in Hread2.
      now rewrite Hread2.
Qed.

(** The member the prototype keeps under the name is the later one. *)
Lemma listDomains_resolves f w :
  listDomains env f w = listDomains_upstream env f w.
Proof. reflexivity. Qed.

End Facade.

(** The static fallback holds three domains, and its filter ignores
    case. *)
Example getTestDomains_filter :
  getTestDomains Null = Listed testDomains TestData None /\
  List.length testDomains = 3%nat /\
  (exists d, getTestDomains (Str "EXAM") = Listed [d] TestData None /\
             v_name d = "example.com").
Proof. repeat split. eexists. split; reflexivity. Qed.

(** C1 (what the code does). [client.listDomains] is the member declared
    last in the class body, the plain upstream call: for every cache
    state and filter it sends [GET /domains] and forwards the response,
    without reading the cache. With example.com and test.org cached it
    still calls upstream and returns the upstream response with no
    [fromCache]; the cache-first body declared earlier, which would have
    read the cache first and answered in its own shape, with a
    [fromCache] flag (here [false], after a refetch: the read of these
    rows comes back empty, [JSON.parse] raising on their addresses), is
    never the one called. *)
Theorem listDomains_never_reads_the_cache :
  (forall env f w,
     listDomains env f w =
       (Ret (Forwarded (upstream env (api_calls w)
                          (GetDomains (filter_of f)))),
        with_api_call (GetDomains (filter_of f)) w)) /\
  (let w := new_client [Sample.example_com; Sample.test_org] in
   listDomains Sample.healthy Null w =
     (Ret (Forwarded Sample.two_domains),
      with_api_call (GetDomains None) w) /\
   requests_of (trace (snd (listDomains Sample.healthy Null w))) =
     [GetDomains None] /\
   fst (listDomains_cache_first Sample.healthy Null w) =
     Ret (Listed [] (SyncInProgress 0) (Some false)) /\
   requests_of (trace (snd (listDomains_cache_first Sample.healthy Null w)))
     = [GetDomains None]).
Proof.
  split.
  - intros env f w. reflexivity.
  - repeat split; vm_compute; reflexivity.
Qed.

(* ------------------------------------------------------------------ *)
(** ** The properties at work on the sample data *)

Ltac keys_differ :=
  unfold primary_key; simpl; repeat constructor; simpl;
  intuition discriminate.

Lemma upsert_twice_one_row_witness :
  let t := [Sample.test_org] in
  let v1 := listing_values 100 ("example.com", None)
              (Sample.item 1 "example.com") in
  let v2 := listing_values 101 ("example.org", None)
              (Sample.item 1 "example.org") in
  primary_key t /\ id v1 = id v2 /\
  (last_updated v1 <= last_updated v2)%Z /\
  rows_with_id 1 (upsert_listing v2 (upsert_listing v1 t)) = [v2] /\
  rows_with_id 1 (upsert_full v2 (upsert_full v1 t)) = [v2].
Proof.
  intros t v1 v2.
  assert (Hk : primary_key t) by keys_differ.
  assert (Hid : id v1 = id v2) by reflexivity.
  assert (Hle : (last_updated v1 <= last_updated v2)%Z)
    by (vm_compute; discriminate).
  destruct (upsert_twice_one_row t v1 v2 Hk Hid Hle)
    as [[_ [_ Hnew]] [_ [Hfull _]]].
  split; [exact Hk|]. split; [exact Hid|]. split; [exact Hle|].
  split; [exact (Hnew eq_refl eq_refl eq_refl) | exact Hfull].
Defined.

(** The cache held example.com as active before the fetch: the fetch
    succeeds, example.com is in the listing, and no row of its id has
    status unknown afterwards. *)
(** Two listing upserts of an id that an earlier sync had enriched: the
    one row has the second call's name and time, but neither the status
    nor the [sync_error] of the second call's VALUES row. *)
Lemma listing_upsert_keeps_old_status :
  let t := [Sample.failed_before] in
  let v1 := listing_values 100 ("example.com", None)
              (Sample.item 1 "example.com") in
  let v2 := listing_values 101 ("example.org", None)
              (Sample.item 1 "example.org") in
  primary_key t /\ id v1 = id v2 /\
  (last_updated v1 <= last_updated v2)%Z /\
  status v2 = "unknown" /\ sync_error v2 = None /\
  exists r,
    rows_with_id 1 (upsert_listing v2 (upsert_listing v1 t)) = [r] /\
    name r = "example.org" /\ last_updated r = 101%Z /\
    status r = "active" /\ sync_error r = Some "old failure" /\
    r <> v2.
Proof.
  intros t v1 v2. split; [keys_differ|]. split; [reflexivity|].
  split; [vm_compute; discriminate|]. split; [reflexivity|].
  split; [reflexivity|].
  eexists. split; [vm_compute; reflexivity|].
  repeat split; discriminate.
Qed.



Lemma refreshDomains_drops_stale_rows_witness :
  let w := new_client [Sample.stale; Sample.example_com] in
  let w' := snd (refreshDomains Sample.healthy w) in
  dbPool w = true /\
  has_id 99 (cache w) = true /\
  fst (refreshDomains Sample.healthy w) = Ret (FetchOk 2) /\
  (forall r, In r (cache w') -> In (id r) [1; 2]%Z) /\
  listing_stored (fresh_listing Sample.healthy w) [] (cache w') /\
  statusSyncRunning w' = true /\ pending w' = 1%nat.
Proof.
  intros w w'. do 3 (split; [reflexivity|]).
  exact (proj2 (proj1 (refreshDomains_drops_stale_rows Sample.healthy w
                         eq_refl) 2%nat eq_refl)).
Defined.

(** When the store refuses the DELETE the refresh reports the error and
    the stale row is still there. *)
Example refresh_with_refused_delete :
  let w := new_client [Sample.stale; Sample.example_com] in
  fst (refreshDomains Sample.second_op_fails w) =
    Ret (FetchErr "ER_LOCK_WAIT_TIMEOUT") /\
  has_id 99 (cache (snd (refreshDomains Sample.second_op_fails w))) = true.
Proof. split; reflexivity. Qed.

Lemma one_status_sync_at_a_time_witness :
  let w := run_steps Sample.healthy [Refresh; Trigger] (new_client []) in
  pending w = 1%nat /\
  startStatusSync w =
    (Ret tt, with_event (Log "Status sync already running") w) /\
  pending (step Sample.healthy Trigger w) = 1%nat.
Proof.
  intros w. split; [reflexivity|].
  apply (proj2 (one_status_sync_at_a_time Sample.healthy [Refresh; Trigger] [])).
  reflexivity.
Defined.

Lemma guard_flag_tracks_run_witness :
  let w := run_steps Sample.healthy [Refresh] (new_client []) in
  pending w = 1%nat /\
  (forall run : M unit,
     statusSyncRunning (settle_with run w) = false /\
     pending (settle_with run w) = 0%nat) /\
  statusSyncRunning (step Sample.healthy Settle w) = false /\
  statusSyncRunning
    (step Sample.healthy Trigger (step Sample.healthy Settle w)) = true /\
  pending (step Sample.healthy Trigger (step Sample.healthy Settle w)) = 1%nat.
Proof.
  intros w. split; [reflexivity|].
  apply (proj2 (proj2 (proj2
           (guard_flag_tracks_run Sample.healthy [Refresh] [])))).
  reflexivity.
Defined.

Lemma sync_runs_in_paced_batches_witness :
  let w := new_client Sample.six_rows in
  let ds := select_by_last_updated (cache w) in
  let events := paced 3000 (map (map status_request) (batches 5 ds)) in
  dbPool w = true /\
  db_fault Sample.healthy (db_ops w) = None /\
  db_fault Sample.healthy (S (db_ops w)) = None /\
  ds = Sample.six_rows /\
  batches 5 ds = [map Sample.aged [1; 2; 3; 4; 5]%Z; [Sample.aged 6]] /\
  trace (snd (performStatusSync Sample.healthy w)) = trace w ++ events /\
  sleeps_of events = [3000%Z] /\
  pauses (List.length ds) 5 = 1%nat.
Proof.
  intros w ds events. do 5 (split; [reflexivity|]).
  destruct (proj1 (sync_runs_in_paced_batches Sample.healthy w)
              eq_refl eq_refl eq_refl)
    as [_ [_ [_ [_ [Htrace [_ Hsleeps]]]]]].
  split; [exact Htrace|]. split; [exact Hsleeps | reflexivity].
Defined.

Lemma status_sync_isolates_failures_witness :
  let w := new_client [Sample.example_com; Sample.test_org] in
  let w' := snd (performStatusSync Sample.one_status_fails w) in
  dbPool w = true /\
  db_fault Sample.one_status_fails (db_ops w) = None /\
  db_fault Sample.one_status_fails (S (db_ops w)) = None /\
  primary_key (cache w) /\
  nth_error (select_by_last_updated (cache w)) 1 = Some Sample.test_org /\
  fst (performStatusSync Sample.one_status_fails w) = Ret tt /\
  api_calls w' = 2%nat /\
  In (set_status 103 "active" Sample.test_org) (cache w').
Proof.
  intros w w'. do 3 (split; [reflexivity|]).
  assert (Hk : primary_key (cache w)) by keys_differ.
  split; [exact Hk|]. split; [reflexivity|].
  destruct (proj2 (status_sync_isolates_failures Sample.one_status_fails w)
              eq_refl eq_refl eq_refl Hk)
    as [Hret [Hcalls [_ Hnth]]].
  split; [exact Hret|]. split; [exact Hcalls|].
  exact (Hnth 1%nat Sample.test_org eq_refl eq_refl).
Defined.

(* ================================================================== *)
(** * Further properties of the client *)

(** ** How the table evolves under the client's methods *)

Lemma status_of_response_nonempty r : status_of_response r <> EmptyString.
Proof.
  destruct r as [[l|[| |s]|] http|e http]; simpl; try discriminate.
  destruct (s =? EmptyString) eqn:E; [discriminate|].
  now apply String.eqb_neq in E.
Qed.

Section TableFrame.

Variable env : Env.
Variable T : Table -> Table -> Prop.
Hypothesis T_refl : forall t, T t t.
Hypothesis T_trans : forall a b c, T a b -> T b c -> T a c.

Hypothesis T_listing : forall now p d t,
  T t (upsert_listing (listing_values now p d) t).
Hypothesis T_full : forall now n d resp t,
  T t (upsert_full (batch_values now n d (status_of_response resp) None) t).
Hypothesis T_status : forall now resp i t,
  T t (update_status now (status_of_response resp) i t).
Hypothesis T_delete : forall t, T t [].

Lemma on_cache_refl w : on_cache T w w.
Proof. apply T_refl. Qed.

Lemma on_cache_trans a b c :
  on_cache T a b -> on_cache T b c -> on_cache T a c.
Proof. unfold on_cache. apply T_trans. Qed.

Lemma on_cache_same w w' : cache w' = cache w -> on_cache T w w'.
Proof. unfold on_cache. intros ->. apply T_refl. Qed.

Ltac table_step :=
  first
    [ apply (keeps_ret (on_cache T) on_cache_refl)
    | apply (keeps_throw (on_cache T) on_cache_refl)
    | apply (keeps_gets (on_cache T) on_cache_refl)
    | apply (keeps_bind (on_cache T) on_cache_trans)
    | apply (keeps_try_catch (on_cache T) on_cache_trans)
    | apply (keeps_for_each (on_cache T) on_cache_refl on_cache_trans)
    | apply (keeps_batch_loop (on_cache T) on_cache_refl on_cache_trans)
    | apply (keeps_if (on_cache T)) ].

Lemma table_db_op : keeps (on_cache T) (db_op env).
Proof.
  intros w. apply on_cache_same. unfold db_op.
  now destruct (db_fault env (db_ops w)).
Qed.

Lemma table_getConnection : keeps (on_cache T) (getConnection env).
Proof.
  unfold getConnection. table_step; [apply table_db_op|].
  intros _. table_step.
Qed.

Lemma table_query {A} (sel : Table -> A) : keeps (on_cache T) (query env sel).
Proof.
  unfold query. table_step; [apply table_db_op|]. intros _. table_step.
Qed.

Lemma table_executeRequest e : keeps (on_cache T) (executeRequest env e).
Proof. intros w. now apply on_cache_same. Qed.

Lemma table_sleep ms : keeps (on_cache T) (sleep ms).
Proof. intros w. now apply on_cache_same. Qed.

Lemma table_execute stmt :
  (forall now t, T t (stmt now t)) -> keeps (on_cache T) (execute env stmt).
Proof.
  intros Hstmt. unfold execute. table_step; [apply table_db_op|].
  intros now w. apply Hstmt.
Qed.

Lemma table_execute_bound {A} (b : Binding A) stmt :
  (forall a now t, T t (stmt a now t)) ->
  keeps (on_cache T) (execute_bound env b stmt).
Proof.
  intros Hstmt. destruct b as [a| |msg]; cbn [execute_bound].
  - apply table_execute. apply Hstmt.
  - table_step.
  - table_step; [apply table_db_op | intros _; table_step].
Qed.

Lemma table_startStatusSync : keeps (on_cache T) startStatusSync.
Proof.
  intros w. apply on_cache_same. rewrite startStatusSync_run.
  now destruct (statusSyncRunning w).
Qed.

Lemma table_fetchAndStoreDomains : keeps (on_cache T) (fetchAndStoreDomains env).
Proof.
  unfold fetchAndStoreDomains.
  table_step; [|intros e; table_step].
  table_step; [apply table_executeRequest|].
  intros [data http|e http]; [|table_step].
  table_step; [table_step|]. intros pool.
  table_step; [|intros _; table_step].
  table_step; [|table_step].
  table_step; [apply table_getConnection|]. intros _.
  table_step. intros d. apply table_execute_bound.
  intros p now t. apply T_listing.
Qed.

Lemma table_sync_status_of d : keeps (on_cache T) (sync_status_of env d).
Proof.
  unfold sync_status_of.
  table_step; [|intros e; table_step].
  table_step; [apply table_executeRequest|].
  intros r. apply table_execute. intros now t. apply T_status.
Qed.

Lemma table_performStatusSync : keeps (on_cache T) (performStatusSync env).
Proof.
  unfold performStatusSync.
  table_step; [|intros e; table_step].
  table_step; [table_step|]. intros pool.
  table_step; [table_step|].
  table_step; [apply table_getConnection|]. intros _.
  table_step; [apply table_query|]. intros domains.
  table_step; [|apply table_sleep].
  intros b. table_step. apply table_sync_status_of.
Qed.

(** The one write of [syncDomainBatch] for an item: the inner [catch] is
    never entered, so the row it binds has the status computed from the
    response and no [sync_error]. *)
Lemma table_sync_domain d : keeps (on_cache T) (sync_domain env d).
Proof.
  intros w. unfold on_cache, sync_domain, execute_bound. run_monad.
  destruct (batch_binds d) as [n| |msg]; simpl; try apply T_refl.
  - destruct (db_fault env (db_ops w)); simpl; [apply T_refl | apply T_full].
  - destruct (db_fault env (db_ops w)); simpl; apply T_refl.
Qed.

Lemma table_performBackgroundSync :
  keeps (on_cache T) (performBackgroundSync env).
Proof.
  unfold performBackgroundSync.
  table_step; [|intros e; table_step].
  table_step; [apply table_executeRequest|].
  intros [data http|e http]; [|table_step].
  table_step; [apply table_getConnection|]. intros _.
  table_step; [|apply table_sleep].
  intros b. unfold syncDomainBatch. table_step. apply table_sync_domain.
Qed.

Lemma table_refreshDomains : keeps (on_cache T) (refreshDomains env).
Proof.
  unfold refreshDomains.
  table_step; [|intros e; table_step].
  table_step; [table_step|]. intros pool.
  table_step.
  - table_step; [|table_step].
    table_step; [apply table_getConnection|]. intros _.
    apply table_execute. intros now t. apply T_delete.
  - intros _. table_step; [apply table_fetchAndStoreDomains|].
    intros result. table_step; [|intros _; table_step].
    destruct result; [apply table_startStatusSync | table_step].
Qed.

Lemma table_listDomains f : keeps (on_cache T) (listDomains env f).
Proof.
  unfold listDomains. simpl. unfold listDomains_upstream.
  table_step; [apply table_executeRequest|]. intros r. table_step.
Qed.

Lemma table_settle w : on_cache T w (settle env w).
Proof.
  unfold settle, settle_with. destruct (pending w) as [|p]; [apply T_refl|].
  pose proof (table_performStatusSync w) as H.
  destruct (performStatusSync env w) as [[u|e] w1]; exact H.
Qed.

(** Every step but a refresh. *)
Lemma table_step_no_refresh s w :
  s <> Refresh -> on_cache T w (step env s w).
Proof.
  intros Hs. destruct s; cbn [step]; try congruence.
  - apply table_startStatusSync.
  - apply table_settle.
  - apply table_fetchAndStoreDomains.
  - apply table_listDomains.
  - apply table_performBackgroundSync.
Qed.

Lemma table_step_any s w : on_cache T w (step env s w).
Proof.
  destruct s; try (apply table_step_no_refresh; discriminate).
  apply table_refreshDomains.
Qed.

Lemma table_run_steps l : forall w, on_cache T w (run_steps env l w).
Proof.
  induction l as [|s l IH]; intros w; simpl; [apply T_refl|].
  eapply on_cache_trans; [apply table_step_any | apply IH].
Qed.

Lemma table_run_steps_no_refresh l : forall w,
  Forall (fun s => s <> Refresh) l -> on_cache T w (run_steps env l w).
Proof.
  induction l as [|s l IH]; intros w Hl; simpl; [apply T_refl|].
  inversion Hl as [|? ? Hs Hl']; subst.
  apply (on_cache_trans _ (step env s w));
    [apply table_step_no_refresh; exact Hs | apply IH; exact Hl'].
Qed.

End TableFrame.

(** ** A status sync changes statuses and nothing else *)

Lemma same_but_status_refl r : same_but_status r r.
Proof. unfold same_but_status. now repeat split. Qed.

Lemma same_but_status_trans a b c :
  same_but_status a b -> same_but_status b c -> same_but_status a c.
Proof. unfold same_but_status. intuition congruence. Qed.

Lemma enriched_from_refl t : enriched_from t t.
Proof.
  unfold enriched_from. induction t as [|r t IH]; constructor; auto.
  split; [apply same_but_status_refl | now left].
Qed.

Lemma enriched_from_trans a b c :
  enriched_from a b -> enriched_from b c -> enriched_from a c.
Proof.
  unfold enriched_from. intros Hab. revert c.
  induction Hab as [|x y a b [Hxy Hy] _ IH]; intros c Hbc;
    inversion Hbc as [|? z ? c' [Hyz Hz] Hbc']; subst; constructor.
  - split; [eapply same_but_status_trans; eassumption|].
    destruct Hz as [->|Hz]; [exact Hy | now right].
  - now apply IH.
Qed.

Lemma enriched_from_update_status now resp i t :
  enriched_from t (update_status now (status_of_response resp) i t).
Proof.
  unfold enriched_from, update_status. induction t as [|r t IH]; simpl;
    constructor; auto.
  destruct (id r =? i)%Z.
  - split; [unfold same_but_status; simpl; now repeat split|].
    right. apply status_of_response_nonempty.
  - split; [apply same_but_status_refl | now left].
Qed.

(** X1. Whatever the store and the upstream do, a whole status-sync run
    leaves the table with the same rows in the same places; in every row
    all columns but [status] and [last_updated] are as before, and a row
    it did change carries a non-empty status. It also leaves the run
    guard and the pool alone. *)
Theorem status_sync_changes_only_status (env : Env) (w : World) :
  enriched_from (cache w) (cache (snd (performStatusSync env w))) /\
  map id (cache (snd (performStatusSync env w))) = map id (cache w) /\
  same_guard w (snd (performStatusSync env w)).
Proof.
  assert (H : enriched_from (cache w) (cache (snd (performStatusSync env w)))).
  { exact (table_performStatusSync env enriched_from enriched_from_refl
             enriched_from_trans enriched_from_update_status w). }
  split; [exact H|]. split; [|apply keeps_performStatusSync_guard].
  unfold enriched_from in H. induction H as [|r r' t t' [Hs _] _ IH];
    [reflexivity|].
  simpl. f_equal; [apply Hs | exact IH].
Qed.

(** ** The primary key in every reachable state *)

Lemma keeps_primary_key_refl t : keeps_primary_key t t.
Proof. unfold keeps_primary_key. auto. Qed.

Lemma keeps_primary_key_trans a b c :
  keeps_primary_key a b -> keeps_primary_key b c -> keeps_primary_key a c.
Proof. unfold keeps_primary_key. auto. Qed.

Lemma update_status_primary_key now st i t :
  keeps_primary_key t (update_status now st i t).
Proof.
  unfold keeps_primary_key, primary_key. now rewrite update_status_ids.
Qed.

(** X2. The primary key of the cache is an invariant of the client: from
    a table with distinct ids, every sequence of triggers, settling
    runs, refreshes, fetches, listings and background syncs, under any
    store and upstream behaviour, leaves a table with distinct ids. *)
Theorem primary_key_in_every_state (env : Env) (steps : list Step)
    (w : World) :
  primary_key (cache w) -> primary_key (cache (run_steps env steps w)).
Proof.
  apply (table_run_steps env keeps_primary_key keeps_primary_key_refl
           keeps_primary_key_trans).
  - intros now p d t Hk. apply insert_on_duplicate_primary_key;
      [intros old; apply update_listing_id | exact Hk].
  - intros now n d resp t Hk. apply insert_on_duplicate_primary_key;
      [intros old; apply update_full_id | exact Hk].
  - intros now resp i t. apply update_status_primary_key.
  - intros t _. constructor.
Qed.

(** ** Only a refresh deletes *)

Lemma ids_persist_refl t : ids_persist t t.
Proof. unfold ids_persist. auto. Qed.

Lemma ids_persist_trans a b c :
  ids_persist a b -> ids_persist b c -> ids_persist a c.
Proof. unfold ids_persist. auto. Qed.

Lemma ids_persist_insert upd v t :
  (forall old, id (upd old v) = id old) ->
  ids_persist t (insert_on_duplicate upd v t).
Proof.
  intros Hupd i H. apply has_id_true. apply has_id_true in H.
  rewrite insert_on_duplicate_ids by exact Hupd.
  destruct (has_id (id v) t); [exact H | apply in_or_app; now left].
Qed.

Lemma ids_persist_update_status now st i t :
  ids_persist t (update_status now st i t).
Proof.
  intros j H. apply has_id_true. apply has_id_true in H.
  now rewrite update_status_ids.
Qed.

(** X3. No method but [refreshDomains] removes a row: an id that is
    cached stays cached through every sequence of triggers, settling
    runs, fetches, listings and background syncs. A domain that
    disappeared upstream is therefore served from the cache until a
    forced refresh. *)
Theorem only_refresh_deletes (env : Env) (steps : list Step) (w : World)
    (i : Z) :
  Forall (fun s => s <> Refresh) steps ->
  has_id i (cache w) = true ->
  has_id i (cache (run_steps env steps w)) = true.
Proof.
  intros Hsteps. revert i.
  apply (table_run_steps_no_refresh env ids_persist ids_persist_refl
           ids_persist_trans); [| | |exact Hsteps].
  - intros now p d t. apply ids_persist_insert.
    intros old. apply update_listing_id.
  - intros now n d resp t. apply ids_persist_insert.
    intros old. apply update_full_id.
  - intros now resp j t. apply ids_persist_update_status.
Qed.

(** ** Recorded errors never grow *)

Lemma error_count_map_le (f : Row -> Row) t :
  (forall r, has_sync_error (f r) = true -> has_sync_error r = true) ->
  (error_count (map f t) <= error_count t)%nat.
Proof.
  intros Hf. unfold error_count. induction t as [|r t IH]; simpl; [lia|].
  destruct (has_sync_error (f r)) eqn:E.
  - rewrite (Hf r E). simpl. lia.
  - destruct (has_sync_error r); simpl; lia.
Qed.

Lemma error_count_app a b :
  error_count (a ++ b) = (error_count a + error_count b)%nat.
Proof. unfold error_count. now rewrite filter_app, length_app. Qed.

Lemma errors_do_not_grow_insert upd v t :
  sync_error v = None ->
  (forall old, has_sync_error (upd old v) = true ->
               has_sync_error old = true) ->
  errors_do_not_grow t (insert_on_duplicate upd v t).
Proof.
  intros Hv Hupd. unfold errors_do_not_grow, insert_on_duplicate.
  destruct (has_id (id v) t).
  - apply error_count_map_le. intros r.
    destruct (id r =? id v)%Z; [apply Hupd | auto].
  - rewrite error_count_app. unfold error_count at 2. simpl.
    unfold has_sync_error. rewrite Hv. simpl. lia.
Qed.

Lemma errors_do_not_grow_update_status now st i t :
  errors_do_not_grow t (update_status now st i t).
Proof.
  apply error_count_map_le. intros r. now destruct (id r =? i)%Z.
Qed.

Lemma errors_do_not_grow_trans a b c :
  errors_do_not_grow a b -> errors_do_not_grow b c -> errors_do_not_grow a c.
Proof. unfold errors_do_not_grow. lia. Qed.

(** X6. No sync ever records a [sync_error]: through every sequence of
    triggers, settling runs, refreshes, fetches, listings and background
    syncs, under any store and upstream behaviour, the
    number of rows carrying a [sync_error] never grows, so the
    [error_domains] figure of [getSyncStats] can only go down from its
    initial value. *)
Theorem recorded_errors_never_grow (env : Env) (steps : list Step)
    (w : World) :
  (error_count (cache (run_steps env steps w)) <= error_count (cache w))%nat /\
  (forall e,
     error_domains (sync_stats (cache (run_steps env steps w))) = Some e ->
     (e <= error_count (cache w))%nat).
Proof.
  assert (H : errors_do_not_grow (cache w) (cache (run_steps env steps w))).
  { apply (table_run_steps env errors_do_not_grow).
    - intros t. unfold errors_do_not_grow. lia.
    - apply errors_do_not_grow_trans.
    - intros now p d t. apply errors_do_not_grow_insert; [reflexivity|].
      intros old. now unfold update_listing, has_sync_error.
    - intros now n d resp t. apply errors_do_not_grow_insert; [reflexivity|].
      intros old. unfold update_full, has_sync_error. simpl. discriminate.
    - intros now resp i t. apply errors_do_not_grow_update_status.
    - intros t. unfold errors_do_not_grow, error_count. simpl. lia. }
  split; [exact H|].
  intros e He. unfold sync_stats, sql_sum in He. simpl in He.
  destruct (cache (run_steps env steps w)) as [|r t] eqn:Ht; [discriminate|].
  inversion He; subst e. exact H.
Qed.

(** ** What the combined sync writes *)

Lemma written_clean_refl t : written_clean t t.
Proof. intros r H. now left. Qed.

Lemma written_clean_trans a b c :
  written_clean a b -> written_clean b c -> written_clean a c.
Proof.
  intros Hab Hbc r Hr. destruct (Hbc r Hr) as [Hb|Hc]; [now apply Hab | now right].
Qed.

Lemma written_clean_upsert_full now n d resp t :
  written_clean t
    (upsert_full (batch_values now n d (status_of_response resp) None) t).
Proof.
  intros r. unfold upsert_full, insert_on_duplicate.
  match goal with |- context [has_id ?i t] => destruct (has_id i t) end.
  - intros Hin. apply in_map_iff in Hin as [r0 [<- Hin]].
    match goal with |- context [if ?c then _ else _] => destruct c end;
      [|now left].
    right. split; [reflexivity | apply status_of_response_nonempty].
  - intros Hin. apply in_app_or in Hin as [Hin|[<-|[]]]; [now left|].
    right. split; [reflexivity | apply status_of_response_nonempty].
Qed.

(** X11. A combined background sync never raises and never removes a
    row; every row it leaves either was there before, untouched, or was
    written with a non-empty status and no [sync_error]. When the
    listing request fails it writes nothing at all. *)
Theorem background_sync_writes (env : Env) (w : World) :
  (exists w', performBackgroundSync env w = (Ret tt, w')) /\
  written_clean (cache w) (cache (snd (performBackgroundSync env w))) /\
  ids_persist (cache w) (cache (snd (performBackgroundSync env w))) /\
  (forall e http,
     upstream env (api_calls w) (GetDomains None) = ApiErr e http ->
     cache (snd (performBackgroundSync env w)) = cache w /\
     trace (snd (performBackgroundSync env w)) =
       trace w ++ [Api (GetDomains None)]).
Proof.
  split; [|split; [|split]].
  - unfold performBackgroundSync, try_catch.
    match goal with |- context [match ?m w with _ => _ end] =>
      destruct (m w) as [[[]|e] w1] end; now eexists.
  - exact (table_performBackgroundSync env written_clean written_clean_refl
             written_clean_trans written_clean_upsert_full w).
  - exact (table_performBackgroundSync env ids_persist ids_persist_refl
             ids_persist_trans
             (fun now n d resp t =>
                ids_persist_insert update_full _ t
                  (fun old => update_full_id old _)) w).
  - intros e http Hup. unfold performBackgroundSync. run_monad.
    rewrite Hup. now split.
Qed.

(** ** The statistics *)

Lemma filter_length_cons {A} (c : A -> bool) x l :
  List.length (filter c (x :: l)) =
  (Nat.b2n (c x) + List.length (filter c l))%nat.
Proof. simpl. now destruct (c x). Qed.

(** A row counts under at most one status, and under exactly one when
    its status is a member of the ENUM. *)
Lemma status_row r :
  (Nat.b2n (status_is "active" r) + Nat.b2n (status_is "suspended" r) +
   Nat.b2n (status_is "disabled" r) + Nat.b2n (status_is "unknown" r)
   <= 1)%nat /\
  (known_status r ->
   (Nat.b2n (status_is "active" r) + Nat.b2n (status_is "suspended" r) +
    Nat.b2n (status_is "disabled" r) + Nat.b2n (status_is "unknown" r)
    = 1)%nat).
Proof.
  unfold status_is, known_status.
  destruct (String.eqb_spec (status r) "active") as [Ea|Ea],
           (String.eqb_spec (status r) "suspended") as [Es|Es],
           (String.eqb_spec (status r) "disabled") as [Ed|Ed],
           (String.eqb_spec (status r) "unknown") as [Eu|Eu];
    simpl; split; try lia; try (exfalso; congruence);
    intros [H|[H|[H|H]]]; congruence.
Qed.

Lemma status_counts t :
  (List.length (filter (status_is "active") t) +
   List.length (filter (status_is "suspended") t) +
   List.length (filter (status_is "disabled") t) +
   List.length (filter (status_is "unknown") t) <= List.length t)%nat /\
  (Forall known_status t ->
   (List.length (filter (status_is "active") t) +
    List.length (filter (status_is "suspended") t) +
    List.length (filter (status_is "disabled") t) +
    List.length (filter (status_is "unknown") t) = List.length t)%nat).
Proof.
  induction t as [|r t [IHle IHeq]]; [split; [simpl; lia | reflexivity]|].
  destruct (status_row r) as [Hle Heq].
  rewrite !filter_length_cons. cbn [List.length]. split; [lia|].
  intros Hall. inversion Hall as [|? ? Hk Hall']; subst.
  specialize (IHeq Hall'). specialize (Heq Hk). lia.
Qed.

Lemma fold_max_bounds rest : forall m0,
  let m := fold_left (fun m x => Z.max m (last_updated x)) rest m0 in
  (m0 <= m)%Z /\ (forall r, In r rest -> (last_updated r <= m)%Z) /\
  (m = m0 \/ exists r, In r rest /\ last_updated r = m).
Proof.
  induction rest as [|x rest IH]; intros m0; cbn [fold_left]; cbv zeta.
  - split; [lia|]. split; [intros r []|now left].
  - specialize (IH (Z.max m0 (last_updated x))). cbv zeta in IH.
    destruct IH as [Hle [Hall Hex]].
    split; [lia|]. split.
    + intros r [<-|Hr]; [lia | now apply Hall].
    + destruct Hex as [Heq|[r [Hr Hm]]].
      * destruct (Z.max_spec m0 (last_updated x)) as [[_ Hmax]|[_ Hmax]].
        -- right. exists x. split; [now left | congruence].
        -- left. congruence.
      * right. exists r. split; [now right | exact Hm].
Qed.

Section StatsFacts.

Variable env : Env.

Lemma getSyncStats_run w :
  exists r w', getSyncStats env w = (Ret r, w') /\
    cache w' = cache w /\ api_calls w' = api_calls w /\
    (forall s, r = ReplyOk s -> s = sync_stats (cache w)) /\
    (dbPool w = true -> db_fault env (db_ops w) = None ->
     db_fault env (S (db_ops w)) = None ->
     r = ReplyOk (sync_stats (cache w))).
Proof.
  unfold getSyncStats. run_monad.
  destruct (dbPool w); simpl.
  - destruct (db_fault env (db_ops w)); simpl.
    + do 2 eexists. split; [reflexivity|]. repeat split; try discriminate.
    + destruct (db_fault env (S (db_ops w))); simpl;
        do 2 eexists; (split; [reflexivity|]); repeat split;
        try discriminate; try congruence.
  - do 2 eexists. split; [reflexivity|]. repeat split; discriminate.
Qed.

Lemma getCacheMetadata_run w :
  exists r w', getCacheMetadata env w = (Ret r, w') /\
    cache w' = cache w /\ api_calls w' = api_calls w /\
    (forall s, r = ReplyOk s -> s = cache_metadata (cache w)) /\
    (dbPool w = false -> r = ReplyErr "Database not available").
Proof.
  unfold getCacheMetadata. run_monad.
  destruct (dbPool w); simpl.
  - destruct (db_fault env (db_ops w)); simpl.
    + do 2 eexists. split; [reflexivity|]. repeat split; discriminate.
    + destruct (db_fault env (S (db_ops w))); simpl;
        do 2 eexists; (split; [reflexivity|]); repeat split;
        try discriminate; congruence.
  - do 2 eexists. split; [reflexivity|]. repeat split; discriminate.
Qed.

(** X5. [getSyncStats] and [getCacheMetadata] never raise, read the
    table without changing it and call no upstream; when they answer
    with data it is the aggregate of the current table. Over an empty
    table the total is 0 and every sum and the maximum are NULL. Over a
    non-empty table the four status counts are numbers whose sum is at
    most the total, and equals it when every status is one of active,
    suspended, disabled, unknown; the error count is at most the total;
    and the last sync time is the [last_updated] of some row and not
    below that of any row. *)
Theorem stats_account_for_the_table (w : World) :
  (exists r w', getSyncStats env w = (Ret r, w') /\
     cache w' = cache w /\ api_calls w' = api_calls w /\
     (forall s, r = ReplyOk s -> s = sync_stats (cache w))) /\
  (exists r w', getCacheMetadata env w = (Ret r, w') /\
     cache w' = cache w /\ api_calls w' = api_calls w /\
     (forall s, r = ReplyOk s -> s = cache_metadata (cache w))) /\
  sync_stats [] = mkSyncStats 0 None None None None None None /\
  (forall t, t <> [] ->
   exists a s d u e m,
     sync_stats t = mkSyncStats (List.length t) (Some a) (Some s) (Some d)
                      (Some u) (Some e) (Some m) /\
     cache_metadata t = mkCacheMetadata (List.length t) (Some a) (Some s)
                          (Some d) (Some u) (Some m) /\
     (a + s + d + u <= List.length t)%nat /\
     (Forall known_status t -> (a + s + d + u = List.length t)%nat) /\
     (e <= List.length t)%nat /\ e = error_count t /\
     (forall r, In r t -> (last_updated r <= m)%Z) /\
     (exists r, In r t /\ last_updated r = m)).
Proof.
  split; [|split; [|split; [reflexivity|]]].
  - destruct (getSyncStats_run w) as [r [w' [H1 [H2 [H3 [H4 _]]]]]].
    now exists r, w'.
  - destruct (getCacheMetadata_run w) as [r [w' [H1 [H2 [H3 [H4 _]]]]]].
    now exists r, w'.
  - intros [|r0 t] Hne; [congruence|].
    destruct (status_counts (r0 :: t)) as [Hle Heq].
    destruct (fold_max_bounds t (last_updated r0)) as [Hm0 [Hall Hex]].
    do 6 eexists. split; [reflexivity|]. split; [reflexivity|].
    split; [exact Hle|]. split; [exact Heq|].
    split; [apply filter_length_le|]. split; [reflexivity|]. split.
    + intros r [<-|Hr]; [exact Hm0 | now apply Hall].
    + destruct Hex as [Heq0|[r [Hr Hm]]].
      * exists r0. split; [now left | now symmetry].
      * exists r. split; [now right | exact Hm].
Qed.

End StatsFacts.

(** ** Reading the cache *)

Lemma insert_by_permutation {A} (leb : A -> A -> bool) x l :
  Permutation (x :: l) (insert_by leb x l).
Proof.
  induction l as [|y l IH]; simpl; [reflexivity|].
  destruct (leb x y); [reflexivity|].
  rewrite perm_swap. now constructor.
Qed.

Lemma order_by_permutation {A} (leb : A -> A -> bool) l :
  Permutation l (order_by leb l).
Proof.
  induction l as [|x l IH]; simpl; [constructor|].
  rewrite <- insert_by_permutation. now constructor.
Qed.

Lemma select_by_name_permutation env f t :
  Permutation (matching_rows env f t)
    (select_by_name (name_like env) (name_leb env)
       (option_map (fun s => String.append "%" (String.append s "%"))
                   (filter_of f)) t).
Proof.
  unfold matching_rows, select_by_name.
  destruct (filter_of f); simpl; apply order_by_permutation.
Qed.

Lemma view_status_nonempty env r v :
  view_of_row env r = Some v -> v_status v <> EmptyString.
Proof.
  unfold view_of_row. destruct (json_parse env (ip_text r)); [|discriminate].
  intros H. inversion H. simpl.
  destruct (status r =? EmptyString) eqn:E; [discriminate|].
  now apply String.eqb_neq in E.
Qed.

Lemma Forall2_In_right {A B} (R : A -> B -> Prop) l l' y :
  Forall2 R l l' -> In y l' -> exists x, In x l /\ R x y.
Proof.
  induction 1 as [|x y0 l l' Hxy _ IH]; intros Hin; [inversion Hin|].
  destruct Hin as [<-|Hin].
  - exists x. split; [now left | exact Hxy].
  - destruct (IH Hin) as [x' [Hx' Hr]]. exists x'. split; [now right|exact Hr].
Qed.

Lemma Forall2_In_left {A B} (R : A -> B -> Prop) l l' x :
  Forall2 R l l' -> In x l -> exists y, In y l' /\ R x y.
Proof.
  induction 1 as [|x0 y l l' Hxy _ IH]; intros Hin; [inversion Hin|].
  destruct Hin as [<-|Hin].
  - exists y. split; [now left | exact Hxy].
  - destruct (IH Hin) as [y' [Hy' Hr]]. exists y'. split; [now right|exact Hr].
Qed.

(** A mapping that raised nowhere gives one result per element. *)
Lemma map_or_raise_some {A B} (f : A -> option B) l : forall ys,
  map_or_raise f l = Some ys -> Forall2 (fun x y => f x = Some y) l ys.
Proof.
  induction l as [|x l IH]; intros ys H; cbn [map_or_raise] in H.
  - inversion H. constructor.
  - destruct (f x) as [y|] eqn:Hx; [|discriminate].
    destruct (map_or_raise f l) as [ys'|]; [|discriminate].
    inversion H. constructor; [exact Hx | now apply IH].
Qed.

(** One element that raises makes the whole mapping raise. *)
Lemma map_or_raise_none {A B} (f : A -> option B) l x :
  In x l -> f x = None -> map_or_raise f l = None.
Proof.
  induction l as [|x0 l IH]; intros Hin Hx; [inversion Hin|].
  cbn [map_or_raise]. destruct Hin as [->|Hin]; [now rewrite Hx|].
  destruct (f x0); [|reflexivity]. now rewrite (IH Hin Hx).
Qed.

Lemma map_or_raise_all {A B} (f : A -> option B) l :
  (forall x, In x l -> f x <> None) -> map_or_raise f l <> None.
Proof.
  induction l as [|x l IH]; intros Hall; cbn [map_or_raise]; [discriminate|].
  destruct (f x) eqn:Hx; [|exfalso; apply (Hall x); [now left | exact Hx]].
  destruct (map_or_raise f l) eqn:Hl; [discriminate|].
  exfalso. apply IH; [|reflexivity]. intros y Hy. apply Hall. now right.
Qed.

(** X4. [getDomainsFromCache] never raises, changes neither the table
    nor the trace and calls no upstream, and no view it returns has an
    empty status. The JSON column [ip_addresses] comes back decoded and
    is given to [JSON.parse] again: when the store answers and
    [JSON.parse] accepts the address text of every row the filter
    selects (all rows without a filter), it returns the views of exactly
    those rows, each once; when [JSON.parse] raises on one selected row
    the whole read returns the empty list; and so it does when the pool
    is missing or the store refuses the connection or the SELECT. *)
Theorem cache_read_returns_matching_rows (env : Env) (f : JsValue)
    (w : World) :
  let rows := matching_rows env f (cache w) in
  exists l w',
    getDomainsFromCache env f w = (Ret l, w') /\
    cache w' = cache w /\ api_calls w' = api_calls w /\
    trace w' = trace w /\
    Forall (fun v => v_status v <> EmptyString) l /\
    (store_answers env w ->
     (forall r, In r rows -> json_parse env (ip_text r) <> None) ->
     exists rows',
       Permutation rows rows' /\
       Forall2 (fun r v => view_of_row env r = Some v) rows' l) /\
    (store_answers env w ->
     forall r, In r rows -> json_parse env (ip_text r) = None -> l = []) /\
    (~ store_answers env w -> l = []).
Proof.
  intros rows. subst rows.
  pose proof (select_by_name_permutation env f (cache w)) as Hperm.
  unfold getDomainsFromCache, store_answers. run_monad.
  destruct (dbPool w) eqn:Hpool; simpl.
  2:{ do 2 eexists. split; [reflexivity|]. repeat split; auto.
      intros [Ha [Hb Hc]]. congruence. }
  destruct (db_fault env (db_ops w)) as [e1|] eqn:H1; simpl.
  { do 2 eexists. split; [reflexivity|]. repeat split; auto.
    intros [Ha [Hb Hc]]. congruence. }
  destruct (db_fault env (S (db_ops w))) as [e2|] eqn:H2; simpl.
  { do 2 eexists. split; [reflexivity|]. repeat split; auto.
    intros [Ha [Hb Hc]]. congruence. }
  match type of Hperm with
  | Permutation _ ?sel => set (selected := sel) in *
  end.
  destruct (map_or_raise (view_of_row env) selected) as [views|] eqn:Hmap;
    simpl; do 2 eexists; (split; [reflexivity|]);
    (split; [reflexivity|]); (split; [reflexivity|]);
    (split; [reflexivity|]).
  - apply map_or_raise_some in Hmap. split; [|split; [|split]].
    + apply Forall_forall. intros v Hv.
      destruct (Forall2_In_right _ _ _ v Hmap Hv) as [r [_ Hr]].
      now apply (view_status_nonempty env r).
    + intros _ _. exists selected. split; [exact Hperm | exact Hmap].
    + intros _ r Hr Hnone. exfalso.
      assert (Hin : In r selected) by (eapply Permutation_in; eassumption).
      destruct (Forall2_In_left _ _ _ r Hmap Hin) as [v [_ Hv]].
      unfold view_of_row in Hv. rewrite Hnone in Hv. discriminate.
    + intros Hno. exfalso. apply Hno. now repeat split.
  - split; [constructor|]. split; [|split; [reflexivity|reflexivity]].
    intros _ Hall. exfalso.
    apply (map_or_raise_all (view_of_row env) selected); [|exact Hmap].
    intros r Hr. unfold view_of_row.
    assert (Hin : In r (matching_rows env f (cache w)))
      by (eapply Permutation_in; [apply Permutation_sym|]; eassumption).
    specialize (Hall r Hin).
    destruct (json_parse env (ip_text r)); [discriminate | contradiction].
Qed.

(** ** The test data *)

Lemma lower_ascii_idempotent c : lower_ascii (lower_ascii c) = lower_ascii c.
Proof. destruct c as [[] [] [] [] [] [] [] []]; reflexivity. Qed.

Lemma toLowerCase_idempotent s : toLowerCase (toLowerCase s) = toLowerCase s.
Proof.
  induction s as [|c s IH]; simpl; [reflexivity|].
  now rewrite lower_ascii_idempotent, IH.
Qed.

Lemma toLowerCase_empty s : toLowerCase s = EmptyString <-> s = EmptyString.
Proof. destruct s; simpl; split; congruence. Qed.

Lemma filter_of_lower f g :
  toLowerCase f = toLowerCase g ->
  (filter_of (Str f) = None /\ filter_of (Str g) = None) \/
  (filter_of (Str f) = Some f /\ filter_of (Str g) = Some g).
Proof.
  intros H. simpl.
  destruct (String.eqb_spec f EmptyString) as [Ef|Ef],
           (String.eqb_spec g EmptyString) as [Eg|Eg]; auto.
  - exfalso. apply Eg. apply toLowerCase_empty. rewrite <- H, Ef. reflexivity.
  - exfalso. apply Ef. apply toLowerCase_empty. rewrite H, Eg. reflexivity.
Qed.

(** X9. The filter of [getTestDomains] ignores case: two filters equal
    up to the case of their letters select the same test domains. Every
    domain it returns is one of the static three and, under a filter,
    its lower-cased name contains the lower-cased filter; a missing,
    null or empty filter returns all three. *)
Theorem getTestDomains_ignores_case :
  (forall f g, toLowerCase f = toLowerCase g ->
     getTestDomains (Str f) = getTestDomains (Str g)) /\
  (forall f, getTestDomains (Str (toLowerCase f)) = getTestDomains (Str f)) /\
  (forall v, exists data,
     getTestDomains v = Listed data TestData None /\
     (forall x, In x data ->
        In x testDomains /\
        forall s, filter_of v = Some s ->
          includes (toLowerCase (v_name x)) (toLowerCase s) = true) /\
     (filter_of v = None -> data = testDomains)).
Proof.
  assert (Hcase : forall f g, toLowerCase f = toLowerCase g ->
                    getTestDomains (Str f) = getTestDomains (Str g)).
  { intros f g H. unfold getTestDomains.
    destruct (filter_of_lower f g H) as [[-> ->]|[-> ->]]; [reflexivity|].
    now rewrite H. }
  split; [exact Hcase|]. split.
  - intros f. apply Hcase. apply toLowerCase_idempotent.
  - intros v. unfold getTestDomains. eexists. split; [reflexivity|].
    destruct (filter_of v) as [s|]; split.
    + intros x Hx. apply filter_In in Hx as [Hin Hinc].
      split; [exact Hin|]. intros s' Hs. now inversion Hs; subst.
    + discriminate.
    + intros x Hx. split; [exact Hx | discriminate].
    + reflexivity.
Qed.

(** ** A successful refresh, and the run it starts *)

Lemma js_or_lit_nonempty a d : d <> EmptyString -> js_or_lit a d <> EmptyString.
Proof.
  intros Hd. destruct a as [| |s]; simpl; try exact Hd.
  destruct (String.eqb_spec s EmptyString); [exact Hd | assumption].
Qed.

Lemma listing_values_fresh now p d : fresh_row (listing_values now p d).
Proof.
  unfold fresh_row, listing_values. simpl.
  repeat split; apply js_or_lit_nonempty; discriminate.
Qed.

(** Upserting rows of distinct ids, none of them in the table, appends
    them in order. *)
Lemma store_all_new vs : forall t,
  NoDup (map id vs) ->
  (forall v, In v vs -> has_id (id v) t = false) ->
  store_all vs t = t ++ vs.
Proof.
  induction vs as [|v vs IH]; intros t Hnd Hnew; simpl.
  - now rewrite app_nil_r.
  - inversion Hnd as [|? ? Hnotin Hnd']; subst.
    unfold upsert_listing at 1. unfold insert_on_duplicate.
    rewrite (Hnew v) by now left.
    fold (store_all vs (t ++ [v])). rewrite IH; [now rewrite <- app_assoc| exact Hnd'|].
    intros v' Hv'. apply has_id_false. rewrite map_app.
    intros Hin. apply in_app_or in Hin as [Hin|[Heq|[]]].
    + assert (H : has_id (id v') t = false) by (apply Hnew; now right).
      apply has_id_false in H. contradiction.
    + apply Hnotin. rewrite Heq. now apply in_map.
Qed.

Section RefreshAndRun.

Variable env : Env.

(** What a refresh that reports success has done. *)
Lemma refreshDomains_success w n :
  dbPool w = true ->
  fst (refreshDomains env w) = Ret (FetchOk n) ->
  exists vs,
    values_of (fresh_listing env w) vs /\
    cache (snd (refreshDomains env w)) = store_all vs [] /\
    n = List.length (fresh_listing env w) /\
    dbPool (snd (refreshDomains env w)) = true /\
    statusSyncRunning (snd (refreshDomains env w)) = true /\
    pending (snd (refreshDomains env w)) =
      (if statusSyncRunning w then pending w else S (pending w)).
Proof.
  intros Hpool Hok.
  destruct (db_fault env (db_ops w)) as [e1|] eqn:Hf1.
  { destruct (refreshDomains_clear_refused env w Hpool) as [msg [Hres _]];
      [left; congruence | rewrite Hres in Hok; discriminate]. }
  destruct (db_fault env (S (db_ops w))) as [e2|] eqn:Hf2.
  { destruct (refreshDomains_clear_refused env w Hpool) as [msg [Hres _]];
      [right; congruence | rewrite Hres in Hok; discriminate]. }
  rewrite (refreshDomains_run env w Hpool Hf1 Hf2) in *.
  assert (Hpool' : dbPool (cleared w) = true) by exact Hpool.
  pose proof (fetchAndStoreDomains_run env (cleared w) Hpool') as Hrun.
  pose proof (keeps_fetch_guard env (cleared w)) as [Hflag [Hpend Hp]].
  unfold fresh_listing.
  change (api_calls (cleared w)) with (api_calls w) in Hrun.
  change (statusSyncRunning (cleared w)) with (statusSyncRunning w) in Hflag.
  change (pending (cleared w)) with (pending w) in Hpend.
  change (dbPool (cleared w)) with (dbPool w) in Hp.
  destruct (upstream env (api_calls w) (GetDomains None)) as [data http|e http].
  - destruct Hrun as [ds1 [ds2 [vs [Hds [Hvs [Hc Hres]]]]]].
    change (cache (cleared w)) with (@nil Row) in Hc.
    destruct (fetchAndStoreDomains env (cleared w)) as [o w3].
    cbn [fst snd] in *.
    destruct Hres as [[Ho Hnil]|[msg Ho]]; subst o; [|discriminate].
    inversion Hok; subst n. subst ds2. rewrite app_nil_r in Hds.
    exists vs. rewrite startStatusSync_run. cbn [snd].
    rewrite Hds. split; [exact Hvs|].
    rewrite <- Hflag, <- Hpend.
    destruct (statusSyncRunning w3) eqn:E; cbn; rewrite ?E;
      repeat split; congruence.
  - destruct Hrun as [Hres _].
    destruct (fetchAndStoreDomains env (cleared w)) as [o w3].
    cbn [fst snd] in *. subst o. discriminate.
Qed.

(** The table a successful refresh leaves. *)
Lemma refreshDomains_success_rows (w : World) (n : nat) :
  dbPool w = true ->
  NoDup (map d_id (fresh_listing env w)) ->
  fst (refreshDomains env w) = Ret (FetchOk n) ->
  values_of (fresh_listing env w) (cache (snd (refreshDomains env w))) /\
  map id (cache (snd (refreshDomains env w))) =
    map d_id (fresh_listing env w) /\
  List.length (cache (snd (refreshDomains env w))) = n /\
  Forall fresh_row (cache (snd (refreshDomains env w))).
Proof.
  intros Hpool Hnd Hok.
  destruct (refreshDomains_success w n Hpool Hok) as [vs [Hvs [Hc [Hn _]]]].
  assert (Hids : map id vs = map d_id (fresh_listing env w))
    by now apply values_of_ids.
  rewrite Hc, store_all_new; [|now rewrite Hids | reflexivity]. simpl.
  split; [exact Hvs|]. split; [exact Hids|]. split.
  - rewrite Hn, <- (length_map d_id), <- Hids. now rewrite length_map.
  - clear - Hvs. induction Hvs as [|d v ds vs [p [now [_ ->]]] _ IH];
      constructor; [apply listing_values_fresh | exact IH].
Qed.

(** X7. When [refreshDomains] reports success on a listing whose ids are
    distinct, the cache is the listing, row for row in listing order:
    row k holds the columns bound for item k, the number of rows is the
    count returned, and every row is fresh: status unknown, no
    [sync_error], and a non-empty owner and hosting type (the defaults
    admin and virtual stand in for missing ones). *)
Theorem refresh_stores_the_listing_in_order (w : World) (n : nat) :
  dbPool w = true ->
  NoDup (map d_id (fresh_listing env w)) ->
  fst (refreshDomains env w) = Ret (FetchOk n) ->
  values_of (fresh_listing env w) (cache (snd (refreshDomains env w))) /\
  map id (cache (snd (refreshDomains env w))) =
    map d_id (fresh_listing env w) /\
  List.length (cache (snd (refreshDomains env w))) = n /\
  Forall fresh_row (cache (snd (refreshDomains env w))).
Proof. exact (refreshDomains_success_rows w n). Qed.

End RefreshAndRun.

Lemma NoDup_map_eq {A B} (f : A -> B) (l : list A) a b :
  NoDup (map f l) -> In a l -> In b l -> f a = f b -> a = b.
Proof.
  induction l as [|x l IH]; intros Hnd Ha Hb Hf; [inversion Ha|].
  inversion Hnd as [|? ? Hnotin Hnd']; subst.
  destruct Ha as [->|Ha], Hb as [->|Hb]; try reflexivity.
  - exfalso. apply Hnotin. rewrite Hf. now apply in_map.
  - exfalso. apply Hnotin. rewrite <- Hf. now apply in_map.
  - now apply IH.
Qed.

Section WholePass.

Variable env : Env.

Lemma status_pass_ids ds : forall db api t,
  map id (status_pass env ds db api t) = map id t.
Proof.
  induction ds as [|d ds IH]; intros db api t; cbn [status_pass];
    [reflexivity|].
  rewrite IH. unfold status_write.
  destruct (db_fault env db); [reflexivity | apply update_status_ids].
Qed.

(** With no write refused, a pass over all the rows of the table leaves
    every row with the status computed from a response to its own
    request. *)
Lemma status_pass_all ds db api t r' :
  NoDup (map id t) -> Permutation t ds ->
  (forall k, db_fault env k = None) ->
  In r' (status_pass env ds db api t) ->
  exists r k,
    In r t /\
    r' = set_status (db_now env (db + k))
           (status_of_response
              (upstream env (api + k) (GetDomainStatus (id r)))) r.
Proof.
  intros Hnd Hperm Hf Hin.
  assert (Hid : In (id r') (map id t))
    by (rewrite <- (status_pass_ids ds db api t); now apply in_map).
  apply in_map_iff in Hid as [r [Hid Hr]].
  assert (Hds : In r ds) by (eapply Permutation_in; eassumption).
  apply In_nth_error in Hds as [k Hk].
  exists r, k. split; [exact Hr|].
  assert (Hnd' : NoDup (map id ds))
    by (eapply Permutation_NoDup; [apply Permutation_map; exact Hperm | exact Hnd]).
  pose proof (status_pass_nth env ds k r db api t r Hnd' Hk (Hf _) Hr eq_refl)
    as Hset.
  eapply (NoDup_map_eq id); [| exact Hin | exact Hset | now rewrite <- Hid].
  now rewrite status_pass_ids.
Qed.

(** X8. A refresh followed by the status sync it started. With a store
    that refuses nothing and a listing of distinct ids, once the refresh
    has reported success and the pending run has settled, the cache holds
    the listing's ids in listing order, every row has the status computed
    from an upstream response to its own status request and no
    [sync_error], and the guard is free for the next run. *)
Theorem refresh_then_sync_enriches_every_row (w : World) (n : nat) :
  dbPool w = true ->
  statusSyncRunning w = false ->
  pending w = O ->
  (forall k, db_fault env k = None) ->
  NoDup (map d_id (fresh_listing env w)) ->
  fst (refreshDomains env w) = Ret (FetchOk n) ->
  let w' := run_steps env [Refresh; Settle] w in
  map id (cache w') = map d_id (fresh_listing env w) /\
  List.length (cache w') = n /\
  statusSyncRunning w' = false /\ pending w' = O /\
  forall r, In r (cache w') ->
    sync_error r = None /\
    exists k,
      status r =
      status_of_response (upstream env k (GetDomainStatus (id r))).
Proof.
  intros Hpool Hflag Hpend Hf Hnd Hok w'.
  destruct (refreshDomains_success_rows env w n Hpool Hnd Hok)
    as [_ [Hids [Hlen Hfresh]]].
  destruct (refreshDomains_success env w n Hpool Hok)
    as [_ [_ [_ [_ [Hpool1 [Hflag1 Hpend1]]]]]].
  rewrite Hflag, Hpend in Hpend1.
  subst w'. unfold run_steps. cbn [fold_left step].
  set (w1 := snd (refreshDomains env w)) in *.
  unfold settle, settle_with. rewrite Hpend1.
  rewrite (performStatusSync_run env w1 Hpool1 (Hf _) (Hf _)). cbn [snd].
  set (ds := select_by_last_updated (cache w1)).
  pose proof (run_batches_status_pass env 3000 (batches 5 ds)
                (with_db_op (with_db_op w1))) as Hcore.
  unfold core in Hcore. inversion Hcore as [[Hc Hd Ha]]. clear Hcore Hd Ha.
  rewrite batches_concat in Hc by lia.
  cbn [with_guard cache statusSyncRunning pending].
  rewrite Hc. cbn [with_db_op cache db_ops api_calls].
  split; [now rewrite status_pass_ids|].
  split; [rewrite <- (length_map id), status_pass_ids, length_map; exact Hlen|].
  split; [reflexivity|]. split; [reflexivity|].
  intros r Hr.
  apply status_pass_all in Hr as [r0 [k [Hr0 ->]]];
    [| rewrite Hids; exact Hnd | apply (order_by_perm last_updated) | exact Hf].
  cbn [set_status sync_error status id]. split.
  - rewrite Forall_forall in Hfresh. now destruct (Hfresh r0 Hr0) as [_ [He _]].
  - eexists. reflexivity.
Qed.

End WholePass.

(** ** The cache listing *)

Section CacheListing.

Variable env : Env.

(** The whole [performBackgroundSync] is its listing request followed
    by the rest, run on the response. *)
Lemma performBackgroundSync_resume w :
  performBackgroundSync env w =
  resumeBackgroundSync env (upstream env (api_calls w) (GetDomains None))
    (with_api_call (GetDomains None) w).
Proof. reflexivity. Qed.

(** X10. [listDomainsFromCache] never changes the table. When the store
    answers the read and no row matches (an empty cache, or a filter
    that selects nothing from a filled one), it answers with the sync
    notice, and the [performBackgroundSync] it started has already sent
    its listing request and waits for the response. When rows match and
    [JSON.parse] accepts the address text of each of them (the JSON
    column comes back decoded and is parsed again), they come back as
    stored, in some order, with no upstream request and nothing started.
    When [JSON.parse] raises on one of them, or the store does not
    answer, it returns what the upstream [listDomains] returns, after
    that one request, and starts nothing. *)
Theorem cache_listing_answers (f : JsValue) (s : Server) :
  let r := listDomainsFromCache env f s in
  let w := client s in
  let rows := matching_rows env f (cache w) in
  let forwarded :=
    FromUpstream
      (Forwarded (upstream env (api_calls w) (GetDomains (filter_of f)))) in
  cache (client (snd r)) = cache w /\
  (store_answers env w ->
   (rows = [] ->
    fst r = Ret SyncInitiated /\
    pendingSyncs (snd r) =
      pendingSyncs s ++ [upstream env (api_calls w) (GetDomains None)] /\
    api_calls (client (snd r)) = S (api_calls w) /\
    trace (client (snd r)) = trace w ++ [Api (GetDomains None)]) /\
   (rows <> [] ->
    (forall r0, In r0 rows -> json_parse env (ip_text r0) <> None) ->
    exists rows' l,
      Permutation rows rows' /\
      Forall2 (fun r0 v => raw_view_of_row env r0 = Some v) rows' l /\
      fst r = Ret (CachedRows l) /\
      pendingSyncs (snd r) = pendingSyncs s /\
      api_calls (client (snd r)) = api_calls w) /\
   (forall r0, In r0 rows -> json_parse env (ip_text r0) = None ->
    fst r = Ret forwarded /\
    api_calls (client (snd r)) = S (api_calls w) /\
    pendingSyncs (snd r) = pendingSyncs s)) /\
  (~ store_answers env w ->
   fst r = Ret forwarded /\
   api_calls (client (snd r)) = S (api_calls w) /\
   pendingSyncs (snd r) = pendingSyncs s).
Proof.
  intros r w rows forwarded. subst r rows forwarded w.
  pose proof (select_by_name_permutation env f (cache (client s))) as Hperm.
  unfold listDomainsFromCache, store_answers. destruct s as [w b].
  cbn [client pendingSyncs] in *. run_monad.
  destruct (dbPool w) eqn:Hpool; simpl.
  2:{ split; [reflexivity|]. split; [intros [H _]; discriminate|].
      intros _. now repeat split. }
  destruct (db_fault env (db_ops w)) as [e|] eqn:H1; simpl.
  { split; [reflexivity|]. split; [intros [_ [H _]]; discriminate|].
    intros _. now repeat split. }
  destruct (db_fault env (S (db_ops w))) as [e|] eqn:H2; simpl.
  { split; [reflexivity|]. split; [intros [_ [_ H]]; discriminate|].
    intros _. now repeat split. }
  match type of Hperm with
  | Permutation _ ?sel => set (selected := sel) in *
  end.
  destruct selected as [|x l] eqn:Hsel.
  - simpl. split; [reflexivity|].
    split; [|intros H; exfalso; apply H; now repeat split].
    intros _. apply Permutation_sym, Permutation_nil in Hperm.
    split; [|split].
    + intros _. now repeat split.
    + intros Hne. contradiction.
    + intros r0 Hr0. rewrite Hperm in Hr0. inversion Hr0.
  - change (match raw_view_of_row env x with
            | Some y =>
                option_map (cons y) (map_or_raise (raw_view_of_row env) l)
            | None => None
            end)
      with (map_or_raise (raw_view_of_row env) (x :: l)).
    destruct (map_or_raise (raw_view_of_row env) (x :: l)) as [views|]
      eqn:Hmap; cbn [fst snd client pendingSyncs cache api_calls
                     with_api_call].
    + apply map_or_raise_some in Hmap. split; [reflexivity|].
      split; [|intros H; exfalso; apply H; now repeat split].
      intros _. split; [|split].
      * intros Hnil. rewrite Hnil in Hperm.
        apply Permutation_nil in Hperm. discriminate.
      * intros _ _. exists (x :: l), views. now repeat split.
      * intros r0 Hr0 Hnone. exfalso.
        assert (Hin : In r0 (x :: l))
          by (eapply Permutation_in; eassumption).
        destruct (Forall2_In_left _ _ _ r0 Hmap Hin) as [v [_ Hv]].
        unfold raw_view_of_row in Hv. rewrite Hnone in Hv. discriminate.
    + split; [reflexivity|].
      split; [|intros H; exfalso; apply H; now repeat split].
      intros _. split; [|split].
      * intros Hnil. rewrite Hnil in Hperm.
        apply Permutation_nil in Hperm. discriminate.
      * intros _ Hall. exfalso.
        apply (map_or_raise_all (raw_view_of_row env) (x :: l));
          [|exact Hmap].
        intros r0 Hr0. unfold raw_view_of_row.
        assert (Hin : In r0 (matching_rows env f (cache w)))
          by (eapply Permutation_in; [apply Permutation_sym|]; eassumption).
        specialize (Hall r0 Hin).
        destruct (json_parse env (ip_text r0)); [discriminate|contradiction].
      * intros _ _ _. now repeat split.
Qed.

End CacheListing.

(** ** The router *)

Lemma includes_percent s :
  includes s "%" =
  match s with
  | EmptyString => false
  | String c r => (c =? "%")%char || includes r "%"
  end.
Proof.
  destruct s as [|c r]; cbn [includes String.prefix]; [reflexivity|].
  destruct (ascii_dec "%" c) as [<-|Hne].
  - now destruct r.
  - destruct (Ascii.eqb_spec c "%"); [congruence | reflexivity].
Qed.

Lemma lower_ascii_percent c :
  (lower_ascii c =? "%")%char = (c =? "%")%char.
Proof.
  destruct c as [[] [] [] [] [] [] [] []]; reflexivity.
Qed.

(** Lowering the letters neither adds nor removes a percent sign. *)
Lemma includes_percent_lower s :
  includes (toLowerCase s) "%" = includes s "%".
Proof.
  induction s as [|c r IH]; [reflexivity|].
  cbn [toLowerCase]. rewrite (includes_percent (String _ _)).
  rewrite (includes_percent (String c r)).
  now rewrite lower_ascii_percent, IH.
Qed.

(** A string that starts, up to letter case, with the letter m is not a
    number for [parseInt]. *)
Lemma parseInt_isNaN_m c r :
  lower_ascii c = "m"%char -> parseInt_isNaN (String c r) = true.
Proof.
  destruct c as [[] [] [] [] [] [] [] []]; intros H;
    try discriminate H; destruct r; reflexivity.
Qed.

(** The first route in order whose path matches and whose method fits
    takes the request, unless a decoding failure comes first: whatever
    is handled is handled at or before that route. *)
Lemma dispatch_in_first c m path h ps before r after raw :
  match_path (r_path r) path = Some raw ->
  handles (r_method r) m = true ->
  dispatch_in c (before ++ r :: after) m path = Handled h ps ->
  In h (map r_handler (before ++ [r])).
Proof.
  intros Hm Hh. induction before as [|r0 before IH]; cbn [app dispatch_in map].
  - rewrite Hm, Hh. destruct (decode_params c raw); [|discriminate].
    intros H. inversion H. now left.
  - destruct (match_path (r_path r0) path) as [raw0|]; [|intros H; right; auto].
    destruct (decode_params c raw0); [|discriminate].
    destruct (handles (r_method r0) m); [|intros H; right; auto].
    intros H. inversion H. now left.
Qed.

(** Whatever is handled is handled by a route of the table whose path
    matches and whose method fits. *)
Lemma dispatch_in_sound c m path h ps rs :
  dispatch_in c rs m path = Handled h ps ->
  exists r raw,
    In r rs /\ r_handler r = h /\
    match_path (r_path r) path = Some raw /\
    handles (r_method r) m = true.
Proof.
  induction rs as [|r0 rs IH]; cbn [dispatch_in]; [discriminate|].
  destruct (match_path (r_path r0) path) as [raw0|] eqn:Hm.
  - destruct (decode_params c raw0); [|discriminate].
    destruct (handles (r_method r0) m) eqn:Hh.
    + intros H. inversion H. exists r0, raw0. repeat split; auto. now left.
    + intros H. destruct (IH H) as [r [raw [Hin Hr]]].
      exists r, raw. split; [now right | exact Hr].
  - intros H. destruct (IH H) as [r [raw [Hin Hr]]].
    exists r, raw. split; [now right | exact Hr].
Qed.

(** What the path of a request for the metadata looks like. *)
Lemma metadata_path path raw :
  match_path [Lit "domains"; Lit "metadata"] path = Some raw ->
  exists a b,
    toLowerCase a = "domains" /\ toLowerCase b = "metadata" /\
    (split_slash path = [EmptyString; a; b] \/
     split_slash path = [EmptyString; a; b; EmptyString]).
Proof.
  unfold match_path.
  destruct (split_slash path) as [|s0 segs]; [discriminate|].
  destruct s0; [|discriminate].
  destruct segs as [|a [|b rest]]; cbn [match_segs]; try discriminate.
  - destruct (toLowerCase a =? _); discriminate.
  - destruct (String.eqb_spec (toLowerCase a) (toLowerCase "domains"));
      [|discriminate].
    destruct (String.eqb_spec (toLowerCase b) (toLowerCase "metadata"));
      [|discriminate].
    intros H. exists a, b. split; [assumption|]. split; [assumption|].
    destruct rest as [|x [|y rest]]; [now left | | destruct x; discriminate].
    destruct x; [now right | discriminate].
Qed.

(** One step of the search through the routes, on a path whose segments
    are known. *)
Lemma dispatch_in_cons c r rs m path segs :
  split_slash path = EmptyString :: segs ->
  dispatch_in c (r :: rs) m path =
  match match_segs (r_path r) segs with
  | None => dispatch_in c rs m path
  | Some raw =>
      match decode_params c raw with
      | None => DecodeError
      | Some ps =>
          if handles (r_method r) m then Handled (r_handler r) ps
          else dispatch_in c rs m path
      end
  end.
Proof. intros H. cbn [dispatch_in]. unfold match_path. now rewrite H. Qed.

Lemma match_segs_lit l pat s segs :
  match_segs (Lit l :: pat) (s :: segs) =
  if toLowerCase s =? toLowerCase l then match_segs pat segs else None.
Proof. reflexivity. Qed.

Lemma match_segs_param k pat s segs :
  match_segs (Param k :: pat) (s :: segs) =
  if s =? EmptyString then None
  else option_map (cons s) (match_segs pat segs).
Proof. reflexivity. Qed.

Lemma match_segs_end s segs :
  match_segs [] (s :: segs) =
  match segs with
  | [] => if s =? EmptyString then Some [] else None
  | _ :: _ => None
  end.
Proof. destruct s, segs; reflexivity. Qed.

Lemma match_segs_short p pat : match_segs (p :: pat) [] = None.
Proof. now destruct p. Qed.

(** Decides the tests between known texts. *)
Ltac known_tests :=
  repeat match goal with
         | |- context [String.eqb ?x ?y] =>
             let v := eval vm_compute in (String.eqb x y) in
             match v with
             | true => change (String.eqb x y) with true
             | false => change (String.eqb x y) with false
             end
         end.

(** Lowers the letters of the known texts. *)
Ltac lower_literals :=
  repeat match goal with
         | |- context [toLowerCase (String ?a ?r)] =>
             let v := eval vm_compute in (toLowerCase (String a r)) in
             lazymatch v with
             | context [toLowerCase] => fail
             | _ => change (toLowerCase (String a r)) with v
             end
         end.

(** Tries the next route on a path whose segments [Hs] gives, with the
    facts [facts] about the segments. *)
Ltac next_route Hs facts :=
  rewrite (dispatch_in_cons _ _ _ _ _ _ Hs);
  cbn [r_path r_method r_handler];
  rewrite ?match_segs_lit, ?match_segs_param, ?match_segs_end,
    ?match_segs_short;
  lower_literals; facts; known_tests;
  cbn [option_map decode_params match_segs]; facts; cbn [handles].

Lemma match_segs_incl pat : forall segs raw,
  match_segs pat segs = Some raw -> incl raw segs.
Proof.
  induction pat as [|p pat IH]; intros segs raw H.
  - destruct segs as [|s [|t segs]]; try destruct s; inversion H;
      apply incl_nil_l.
  - destruct segs as [|s segs]; [now destruct p|]. destruct p as [l|k].
    + rewrite match_segs_lit in H.
      destruct (toLowerCase s =? toLowerCase l); [|discriminate].
      apply incl_tl. now apply IH.
    + rewrite match_segs_param in H.
      destruct (s =? EmptyString); [discriminate|].
      destruct (match_segs pat segs) as [raw'|] eqn:E; [|discriminate].
      inversion H. apply incl_cons; [now left|].
      apply incl_tl. now apply IH.
Qed.

Lemma decode_params_plain c raw :
  decodes_plain c ->
  forallb (fun s => negb (includes s "%")) raw = true ->
  decode_params c raw = Some raw.
Proof.
  intros Hc. induction raw as [|s raw IH]; cbn [forallb decode_params];
    [reflexivity|].
  intros H. apply andb_true_iff in H as [Hs Hraw].
  apply negb_true_iff in Hs. now rewrite (Hc s Hs), (IH Hraw).
Qed.

(** On a path without a percent sign every decoder that leaves plain
    text alone gives the same search. *)
Lemma dispatch_in_plain c c' rs m path :
  decodes_plain c -> decodes_plain c' ->
  forallb (fun s => negb (includes s "%")) (split_slash path) = true ->
  dispatch_in c rs m path = dispatch_in c' rs m path.
Proof.
  intros Hc Hc' Hpath. induction rs as [|r rs IH]; cbn [dispatch_in];
    [reflexivity|].
  destruct (match_path (r_path r) path) as [raw|] eqn:Hm; [|exact IH].
  assert (Hraw : forallb (fun s => negb (includes s "%")) raw = true).
  { unfold match_path in Hm.
    destruct (split_slash path) as [|s0 segs]; [discriminate|].
    destruct s0; [|discriminate].
    apply match_segs_incl in Hm. rewrite forallb_forall in *.
    intros x Hx. apply Hpath. right. now apply Hm. }
  rewrite (decode_params_plain c raw Hc Hraw).
  rewrite (decode_params_plain c' raw Hc' Hraw).
  now rewrite IH.
Qed.

(** The entry of the metadata handler in the table. *)
Lemma metadata_route_entry r :
  In r routes -> r_handler r = metadata_route ->
  r_path r = [Lit "domains"; Lit "metadata"] /\ r_method r = GET.
Proof.
  unfold routes. cbn [In]. intros Hin Hh.
  repeat (destruct Hin as [<-|Hin]; [first [discriminate Hh | now split]|]).
  contradiction.
Qed.

(** The table around the route of [/domains/:id]. *)
Lemma routes_from_domain_route :
  routes =
  [mkRoute GET [] index_route;
   mkRoute GET [Lit "server"; Lit "info"] server_info_route;
   mkRoute GET [Lit "domains"] domains_route] ++
  mkRoute GET [Lit "domains"; Param "id"] domain_route ::
  skipn 4 routes.
Proof. reflexivity. Qed.

Lemma dispatch_routes c m path :
  dispatch c m path = dispatch_in c routes m path.
Proof. reflexivity. Qed.

Section Router.

Variable c : Setup.

(** X12. No request is ever handled by the [GET /domains/metadata]
    route: [GET /domains/:id] is registered before it and takes every
    path it would take. With a decoder that leaves plain text alone, a
    GET or HEAD of /domains/metadata, in any letter case and with or
    without a trailing slash, reaches the handler of [/domains/:id] with
    that segment as id, and is answered 400 with the invalid domain id
    error, or 500 when the client is not configured outside
    development; it never gets the cache metadata. Every other handler
    of the file is reached by some request. *)
Theorem metadata_route_is_never_reached :
  (forall m path h ps,
     dispatch c m path = Handled h ps -> h <> metadata_route) /\
  (forall m path raw,
     decodes_plain c ->
     match_path [Lit "domains"; Lit "metadata"] path = Some raw ->
     handles GET m = true ->
     exists i,
       toLowerCase i = "metadata" /\
       dispatch c m path = Handled domain_route [i] /\
       respond c m path =
         Some (domain_route,
               if pleskClient c || development c
               then Json 400 "Invalid domain ID. Must be a number."
               else Json 500
                 "Plesk client not configured. Please check your environment variables.")) /\
  (decodes_plain c ->
   forall h, h <> metadata_route ->
     exists m path ps, dispatch c m path = Handled h ps).
Proof.
  split; [|split].
  - intros m path h ps Hd Heq. subst h.
    rewrite dispatch_routes in Hd.
    destruct (dispatch_in_sound c m path metadata_route ps routes Hd)
      as [r [raw [Hin [Hh [Hm Hmeth]]]]].
    destruct (metadata_route_entry r Hin Hh) as [Hp Hg].
    rewrite Hp in Hm. rewrite Hg in Hmeth.
    destruct (metadata_path path raw Hm) as [a [b [Ha [Hb Hs]]]].
    assert (Hb0 : (b =? EmptyString) = false)
      by (destruct b; [discriminate Hb | reflexivity]).
    assert (Hm' : match_path [Lit "domains"; Param "id"] path = Some [b]).
    { unfold match_path.
      destruct Hs as [-> | ->]; cbn [match_segs]; rewrite Ha, Hb0;
        reflexivity. }
    rewrite routes_from_domain_route in Hd.
    pose proof (dispatch_in_first c m path metadata_route ps _
                  (mkRoute GET [Lit "domains"; Param "id"] domain_route)
                  (skipn 4 routes) [b] Hm' Hmeth Hd) as Hfirst.
    cbn [map app r_handler In] in Hfirst.
    repeat (destruct Hfirst as [Hfirst|Hfirst]; [discriminate|]).
    contradiction.
  - intros m path raw Hplain Hm Hmeth.
    destruct (metadata_path path raw Hm) as [a [b [Ha [Hb Hs]]]].
    exists b. split; [exact Hb|].
    assert (Hb0 : (b =? EmptyString) = false)
      by (destruct b; [discriminate Hb | reflexivity]).
    assert (Hpct : includes b "%" = false)
      by (rewrite <- includes_percent_lower, Hb; reflexivity).
    pose proof (Hplain b Hpct) as Hdec.
    assert (Hd : dispatch c m path = Handled domain_route [b]).
    { rewrite dispatch_routes. unfold routes.
      destruct Hs as [Hs | Hs];
        do 4 next_route Hs ltac:(rewrite ?Ha, ?Hb0, ?Hdec, ?Hmeth);
        reflexivity. }
    split; [exact Hd|].
    unfold respond. rewrite Hd. unfold handle, checkPleskClient.
    cbn [id_guard].
    assert (Hnan : parseInt_isNaN b = true).
    { destruct b as [|x r]; [discriminate Hb|].
      cbn [toLowerCase] in Hb. inversion Hb. now apply parseInt_isNaN_m. }
    destruct (pleskClient c); cbn [orb]; [now rewrite Hnan|].
    destruct (development c); [now rewrite Hnan | reflexivity].
  - intros Hplain h Hh.
    assert (Hrun : forall m path,
              forallb (fun s => negb (includes s "%")) (split_slash path)
                = true ->
              dispatch c m path = dispatch plain_setup m path).
    { intros m path. apply dispatch_in_plain; [exact Hplain|].
      intros s Hs. cbn. now rewrite Hs. }
    destruct h; try contradiction.
    + exists GET, "/", []. rewrite Hrun by (vm_compute; reflexivity); vm_compute; reflexivity.
    + exists GET, "/server/info", []. rewrite Hrun by (vm_compute; reflexivity); vm_compute; reflexivity.
    + exists GET, "/domains", []. rewrite Hrun by (vm_compute; reflexivity); vm_compute; reflexivity.
    + exists GET, "/domains/7", ["7"]. rewrite Hrun by (vm_compute; reflexivity); vm_compute; reflexivity.
    + exists POST, "/domains", []. rewrite Hrun by (vm_compute; reflexivity); vm_compute; reflexivity.
    + exists DELETE, "/domains/7", ["7"]. rewrite Hrun by (vm_compute; reflexivity); vm_compute; reflexivity.
    + exists GET, "/customers", []. rewrite Hrun by (vm_compute; reflexivity); vm_compute; reflexivity.
    + exists POST, "/customers", []. rewrite Hrun by (vm_compute; reflexivity); vm_compute; reflexivity.
    + exists POST, "/test", []. rewrite Hrun by (vm_compute; reflexivity); vm_compute; reflexivity.
    + exists GET, "/customers/7", ["7"]. rewrite Hrun by (vm_compute; reflexivity); vm_compute; reflexivity.
    + exists GET, "/customers/7/domains", ["7"]. rewrite Hrun by (vm_compute; reflexivity); vm_compute; reflexivity.
    + exists GET, "/customers/7/statistics", ["7"]. rewrite Hrun by (vm_compute; reflexivity); vm_compute; reflexivity.
    + exists GET, "/domains/7/status", ["7"]. rewrite Hrun by (vm_compute; reflexivity); vm_compute; reflexivity.
    + exists PUT, "/domains/7", ["7"]. rewrite Hrun by (vm_compute; reflexivity); vm_compute; reflexivity.
    + exists PUT, "/domains/7/status", ["7"]. rewrite Hrun by (vm_compute; reflexivity); vm_compute; reflexivity.
    + exists POST, "/domains/refresh", []. rewrite Hrun by (vm_compute; reflexivity); vm_compute; reflexivity.
    + exists POST, "/domains/sync", []. rewrite Hrun by (vm_compute; reflexivity); vm_compute; reflexivity.
    + exists GET, "/domains/sync/stats", []. rewrite Hrun by (vm_compute; reflexivity); vm_compute; reflexivity.
Qed.

End Router.

Lemma includes_slash s :
  includes s "/" =
  match s with
  | EmptyString => false
  | String c r => (c =? "/")%char || includes r "/"
  end.
Proof.
  destruct s as [|c r]; cbn [includes String.prefix]; [reflexivity|].
  destruct (ascii_dec "/" c) as [<-|Hne].
  - now destruct r.
  - destruct (Ascii.eqb_spec c "/"); [congruence | reflexivity].
Qed.

(** A text without a slash is one segment, also in front of a slash. *)
Lemma split_slash_segment s t :
  includes s "/" = false ->
  split_slash (String.append s (String "/" t)) = s :: split_slash t.
Proof.
  induction s as [|c r IH]; intros Hs; [reflexivity|].
  rewrite includes_slash in Hs. apply orb_false_elim in Hs as [Hc Hr].
  cbn [String.append split_slash]. rewrite Hc, (IH Hr). reflexivity.
Qed.

Lemma split_slash_plain s :
  includes s "/" = false -> split_slash s = [s].
Proof.
  induction s as [|c r IH]; intros Hs; [reflexivity|].
  rewrite includes_slash in Hs. apply orb_false_elim in Hs as [Hc Hr].
  cbn [split_slash]. rewrite Hc, (IH Hr). reflexivity.
Qed.

(** [parseInt] stops reading at the first character that is no digit: a
    text that starts with a digit from 1 to 9 is a number, whatever
    follows. *)
Lemma parseInt_number d rest :
  is_digit d = true -> d <> "0"%char ->
  parseInt_isNaN (String d rest) = false.
Proof.
  destruct d as [[] [] [] [] [] [] [] []]; intros Hd H0;
    try discriminate Hd; try (exfalso; apply H0; reflexivity);
    destruct rest; reflexivity.
Qed.

(** White space in front of the text is skipped. *)
Lemma parseInt_isNaN_white_space w s :
  is_white_space w = true ->
  parseInt_isNaN (String w s) = parseInt_isNaN s.
Proof.
  intros Hw. unfold parseInt_isNaN. cbn [trim_start]. now rewrite Hw.
Qed.

Section DomainRequests.

Variable c : Setup.
Hypothesis plain : decodes_plain c.

(** X13. The id of a domain request is checked by its first character
    only. Take a segment that starts with a digit from 1 to 9 and holds
    neither a slash nor a percent sign, whatever else it holds, and a
    configured client: GET, DELETE and PUT of /domains/<segment> and GET
    of /domains/<segment>/status each reach their own handler and pass
    its id test, so the request goes on to the client; white space in
    front of a decoded id does not change the verdict of the test; and a
    POST of /domains/<segment> is taken by no route. *)
Theorem domain_id_is_checked_by_its_prefix (d : ascii) (rest : string) :
  let i := String d rest in
  pleskClient c = true ->
  is_digit d = true -> d <> "0"%char ->
  includes i "/" = false -> includes i "%" = false ->
  respond c GET (String.append "/domains/" i)
    = Some (domain_route, Continue false) /\
  respond c DELETE (String.append "/domains/" i)
    = Some (delete_domain_route, Continue false) /\
  respond c PUT (String.append "/domains/" i)
    = Some (update_domain_route, Continue false) /\
  respond c GET (String.append "/domains/" (String.append i "/status"))
    = Some (domain_status_route, Continue false) /\
  respond c POST (String.append "/domains/" i) = None /\
  (forall h msg w,
     id_guard h = Some msg -> is_white_space w = true ->
     handle c h [String w i] = handle c h [i]).
Proof.
  intros i Hc Hd H0 Hslash Hpct.
  pose proof (plain i Hpct) as Hdec.
  pose proof (parseInt_number d rest Hd H0) as Hnum. fold i in Hnum.
  assert (Hi : (i =? EmptyString) = false) by reflexivity.
  (* the id is none of the literal segments: it starts with a digit *)
  assert (Hlit : forall x l, is_digit x = false ->
            (toLowerCase i =? String x l) = false).
  { intros x l Hx. unfold i. cbn [toLowerCase].
    destruct (String.eqb_spec (String (lower_ascii d) (toLowerCase rest))
                (String x l)) as [E|]; [|reflexivity].
    inversion E as [[E1 E2]]. exfalso. subst x.
    revert Hd Hx. clear.
    destruct d as [[] [] [] [] [] [] [] []]; vm_compute; congruence. }
  assert (Hs : split_slash (String.append "/domains/" i) =
               [EmptyString; "domains"; i]).
  { cbn [String.append split_slash Ascii.eqb Bool.eqb].
    now rewrite (split_slash_plain i Hslash). }
  assert (Hs2 : split_slash
                  (String.append "/domains/" (String.append i "/status")) =
                [EmptyString; "domains"; i; "status"]).
  { cbn [String.append split_slash Ascii.eqb Bool.eqb].
    now rewrite (split_slash_segment i "status" Hslash). }
  assert (Hpass : forall h msg,
            id_guard h = Some msg -> h <> index_route ->
            handle c h [i] = Continue false).
  { intros h msg Hg Hh. unfold handle, checkPleskClient.
    rewrite Hc, Hg, Hnum. now destruct h. }
  clearbody i.
  repeat split.
  - unfold respond. rewrite dispatch_routes. unfold routes.
    repeat next_route Hs ltac:(rewrite ?Hi, ?Hdec, ?Hlit by reflexivity).
    now rewrite (Hpass domain_route _ eq_refl).
  - unfold respond. rewrite dispatch_routes. unfold routes.
    repeat next_route Hs ltac:(rewrite ?Hi, ?Hdec, ?Hlit by reflexivity).
    now rewrite (Hpass delete_domain_route _ eq_refl).
  - unfold respond. rewrite dispatch_routes. unfold routes.
    repeat next_route Hs ltac:(rewrite ?Hi, ?Hdec, ?Hlit by reflexivity).
    now rewrite (Hpass update_domain_route _ eq_refl).
  - unfold respond. rewrite dispatch_routes. unfold routes.
    repeat next_route Hs2 ltac:(rewrite ?Hi, ?Hdec, ?Hlit by reflexivity).
    now rewrite (Hpass domain_status_route _ eq_refl).
  - unfold respond. rewrite dispatch_routes. unfold routes.
    repeat next_route Hs ltac:(rewrite ?Hi, ?Hdec, ?Hlit by reflexivity).
    reflexivity.
  - intros h msg w Hg Hw. unfold handle. rewrite Hg.
    now rewrite (parseInt_isNaN_white_space w i Hw).
Qed.

End DomainRequests.

(** ** The combined sync, run to its end *)

Section BatchCore.

Context {A : Type}.
Variable item : A -> M unit.
Variable ev : A -> Event.
Variable effect : A -> Table * nat * nat -> Table * nat * nat.
Hypothesis item_event : forall d w,
  fst (item d w) = Ret tt /\ trace (snd (item d w)) = trace w ++ [ev d].
Hypothesis item_core : forall d w,
  core (snd (item d w)) = effect d (core w).

Lemma for_each_core l : forall w,
  core (snd (for_each item l w)) =
  fold_left (fun c d => effect d c) l (core w).
Proof.
  induction l as [|d l IH]; intros w; cbn [for_each fold_left];
    [reflexivity|].
  unfold bind. destruct (item_event d w) as [Hr _].
  pose proof (item_core d w) as Hc.
  destruct (item d w) as [[u|e] w1]; cbn [fst snd] in *; [|discriminate].
  now rewrite IH, Hc.
Qed.

(** The pauses between the batches change neither the table nor the
    counters: a paced run leaves what the loop over all the items
    leaves. *)
Lemma run_batches_core delay bt : forall w,
  core (snd (run_batches delay (for_each item) bt w)) =
  fold_left (fun c d => effect d c) (List.concat bt) (core w).
Proof.
  induction bt as [|b bt IH]; intros w; cbn [run_batches List.concat];
    [reflexivity|].
  unfold bind at 1.
  pose proof (for_each_core b w) as Hb.
  destruct (for_each_trace item ev item_event b w) as [Hr _].
  destruct (for_each item b w) as [o w1]. cbn [fst snd] in *. subst o.
  rewrite fold_left_app, <- Hb.
  unfold bind. destruct bt as [|b' bt']; cbn [ret sleep modify];
    rewrite IH; reflexivity.
Qed.

End BatchCore.

Lemma upsert_full_in v t : In v (upsert_full v t).
Proof.
  unfold upsert_full, insert_on_duplicate.
  destruct (has_id (id v) t) eqn:Hhas.
  - apply has_id_true in Hhas. apply in_map_iff in Hhas as [r [Hid Hr]].
    apply in_map_iff. exists r. split; [|exact Hr].
    rewrite Hid, Z.eqb_refl. now apply update_full_values.
  - apply in_or_app. right. now left.
Qed.

Lemma upsert_full_untouched r v t :
  In r t -> id r <> id v -> In r (upsert_full v t).
Proof.
  intros Hin Hne. unfold upsert_full, insert_on_duplicate.
  destruct (has_id (id v) t); [|apply in_or_app; now left].
  apply in_map_iff. exists r. split; [|exact Hin].
  destruct (Z.eqb_spec (id r) (id v)); [contradiction | reflexivity].
Qed.

Section FullPass.

Variable env : Env.

Lemma sync_domain_core d w :
  core (snd (sync_domain env d w)) = full_write env d (core w).
Proof.
  unfold sync_domain, execute_bound, core, full_write. run_monad.
  destruct (batch_binds d); simpl; try reflexivity;
    destruct (db_fault env (db_ops w)); reflexivity.
Qed.

Lemma full_write_api d c : snd (full_write env d c) = S (snd c).
Proof. now destruct c as [[t db] api]. Qed.

Lemma full_write_untouched r d c :
  In r (fst (fst c)) -> id r <> d_id d ->
  In r (fst (fst (full_write env d c))).
Proof.
  destruct c as [[t db] api]. cbn [full_write fst]. intros Hin Hne.
  destruct (batch_binds d); [|exact Hin|exact Hin].
  destruct (db_fault env db); [exact Hin|].
  now apply upsert_full_untouched.
Qed.

Lemma full_pass_untouched ds : forall r c,
  In r (fst (fst c)) -> ~ In (id r) (map d_id ds) ->
  In r (fst (fst (full_pass env ds c))).
Proof.
  induction ds as [|d ds IH]; intros r c Hin Hnot; [exact Hin|].
  unfold full_pass. cbn [fold_left]. apply IH.
  - apply full_write_untouched; [exact Hin|].
    intros Heq. apply Hnot. left. now symmetry.
  - intros H. apply Hnot. now right.
Qed.

(** With a store that refuses nothing, the [k]-th item of a listing of
    distinct ids, if it has a name to bind, ends as the row of its own
    VALUES: its listing columns, the status computed from the response
    to its own status request, and no [sync_error]. *)
Lemma full_pass_nth ds : forall k d n c,
  (forall j, db_fault env j = None) ->
  NoDup (map d_id ds) ->
  nth_error ds k = Some d ->
  batch_binds d = Bound n ->
  exists now,
    In (batch_values now n d
          (status_of_response
             (upstream env (snd c + k) (GetDomainStatus (d_id d))))
          None)
       (fst (fst (full_pass env ds c))).
Proof.
  induction ds as [|d0 ds IH]; intros k d n c Hf Hnd Hk Hb.
  - destruct k; discriminate.
  - inversion Hnd as [|? ? Hnotin Hnd']; subst.
    unfold full_pass. cbn [fold_left]. destruct k as [|k]; cbn [nth_error] in Hk.
    + inversion Hk; subst d0. destruct c as [[t db] api].
      exists (db_now env db). rewrite Nat.add_0_r.
      apply (full_pass_untouched ds); [|exact Hnotin].
      cbn [full_write fst snd]. rewrite Hb, Hf. apply upsert_full_in.
    + destruct (IH k d n (full_write env d0 c) Hf Hnd' Hk Hb) as [now Hin].
      exists now. rewrite full_write_api in Hin.
      replace (snd c + S k)%nat with (S (snd c) + k)%nat by lia.
      exact Hin.
Qed.

(** A combined sync whose listing and connection succeed leaves the
    table of the loop over the whole listing. *)
Lemma performBackgroundSync_core w data http :
  upstream env (api_calls w) (GetDomains None) = ApiOk data http ->
  db_fault env (db_ops w) = None ->
  cache (snd (performBackgroundSync env w)) =
  fst (fst (full_pass env (as_array data)
              (cache w, S (db_ops w), S (api_calls w)))).
Proof.
  intros Hup Hf. rewrite (performBackgroundSync_run env w data http Hup Hf).
  cbn [snd]. unfold syncDomainBatch.
  pose proof (run_batches_core (sync_domain env) item_status_request
                (full_write env) (sync_domain_event env) sync_domain_core
                2000 (batches 10 (as_array data))
                (with_db_op (with_api_call (GetDomains None) w))) as Hcore.
  rewrite batches_concat in Hcore by lia.
  unfold full_pass.
  change (cache w, S (db_ops w), S (api_calls w))
    with (core (with_db_op (with_api_call (GetDomains None) w))).
  now rewrite <- Hcore.
Qed.

(** X14. The sync notice is followed by data. With a store that refuses
    nothing, when [listDomainsFromCache] finds no row for the filter it
    answers with the notice and starts a combined sync; once that sync
    has run on a listing of distinct ids, every listed item that has a
    name is in the cache as its own VALUES row: its listing columns, the
    status computed from the response to its own status request, the
    [k]-th item's being the request number [k] after the listing, and no
    [sync_error]. No sync is left pending. *)
Theorem sync_notice_is_followed_by_data (f : JsValue) (s : Server)
    (data : Payload) (http : Z) :
  (forall j, db_fault env j = None) ->
  dbPool (client s) = true ->
  backgroundSyncs s = O ->
  matching_rows env f (cache (client s)) = [] ->
  upstream env (api_calls (client s)) (GetDomains None) = ApiOk data http ->
  NoDup (map d_id (as_array data)) ->
  let s1 := snd (listDomainsFromCache env f s) in
  let s2 := settle_background env s1 in
  fst (listDomainsFromCache env f s) = Ret SyncInitiated /\
  backgroundSyncs s1 = 1%nat /\
  backgroundSyncs s2 = O /\
  forall k d n,
    nth_error (as_array data) k = Some d ->
    bound_name d = Str n ->
    exists now,
      In (batch_values now n d
            (status_of_response
               (upstream env (S (api_calls (client s)) + k)
                  (GetDomainStatus (d_id d))))
            None)
         (cache (client s2)).
Proof.
  intros Hf Hpool Hbg Hrows Hup Hnd s1 s2.
  pose proof (select_by_name_permutation env f (cache (client s))) as Hperm.
  rewrite Hrows in Hperm. apply Permutation_nil in Hperm.
  assert (Hrun : listDomainsFromCache env f s =
                 (Ret SyncInitiated,
                  mkServer (with_api_call (GetDomains None)
                              (with_db_op (with_db_op (client s))))
                           [ApiOk data http])).
  { unfold listDomainsFromCache. destruct s as [w b].
    unfold backgroundSyncs in Hbg. cbn [client pendingSyncs] in *.
    destruct b; [|discriminate]. rewrite <- Hup. run_monad.
    rewrite Hpool. simpl. rewrite !Hf. simpl.
    rewrite Hperm. unfold syncDomainsInBackground.
    cbn [client pendingSyncs app]. rewrite ?Hpool. reflexivity. }
  subst s2 s1. rewrite Hrun. cbn [fst snd].
  split; [reflexivity|]. split; [reflexivity|].
  unfold settle_background. cbn [pendingSyncs client].
  split; [reflexivity|].
  intros k d n Hk Hn. rewrite <- Hup.
  change (upstream env (api_calls (client s)) (GetDomains None))
    with (upstream env (api_calls (with_db_op (with_db_op (client s))))
            (GetDomains None)).
  rewrite <- performBackgroundSync_resume.
  rewrite (performBackgroundSync_core _ data http)
    by (cbn [with_db_op api_calls db_ops]; auto).
  cbn [with_db_op api_calls db_ops cache].
  assert (Hb : batch_binds d = Bound n) by (unfold batch_binds; now rewrite Hn).
  destruct (full_pass_nth (as_array data) k d n
              (cache (client s), S (S (S (db_ops (client s)))),
               S (api_calls (client s))) Hf Hnd Hk Hb) as [now Hin].
  exists now. exact Hin.
Qed.

End FullPass.

(* ------------------------------------------------------------------ *)
(** ** The further properties at work on the sample data *)

Lemma primary_key_in_every_state_witness :
  let w := new_client [Sample.example_com; Sample.test_org] in
  primary_key (cache w) /\
  primary_key
    (cache (run_steps Sample.one_status_fails
              [Fetch; Trigger; Settle; BackgroundSync; Refresh] w)).
Proof.
  intros w. assert (Hk : primary_key (cache w)) by keys_differ.
  split; [exact Hk|].
  exact (primary_key_in_every_state Sample.one_status_fails
           [Fetch; Trigger; Settle; BackgroundSync; Refresh] w Hk).
Defined.

Lemma only_refresh_deletes_witness :
  let w := new_client [Sample.stale; Sample.example_com] in
  let steps := [Fetch; Trigger; Settle; BackgroundSync; List_ Null] in
  Forall (fun s => s <> Refresh) steps /\
  has_id 99 (cache w) = true /\
  has_id 99 (cache (run_steps Sample.healthy steps w)) = true.
Proof.
  intros w steps.
  assert (Hs : Forall (fun s => s <> Refresh) steps)
    by (repeat constructor; discriminate).
  split; [exact Hs|]. split; [reflexivity|].
  exact (only_refresh_deletes Sample.healthy steps w 99 Hs eq_refl).
Defined.

Lemma cache_read_returns_matching_rows_witness :
  let w := new_client [Sample.example_com; Sample.test_org] in
  store_answers Sample.healthy w /\
  In Sample.example_com
     (matching_rows Sample.healthy (Str "EXAMPLE") (cache w)) /\
  json_parse Sample.healthy (ip_text Sample.example_com) = None /\
  fst (getDomainsFromCache Sample.healthy (Str "EXAMPLE") w) = Ret [].
Proof.
  intros w.
  assert (Hs : store_answers Sample.healthy w)
    by (split; [reflexivity | split; reflexivity]).
  assert (Hin : In Sample.example_com
                   (matching_rows Sample.healthy (Str "EXAMPLE") (cache w)))
    by (now left).
  split; [exact Hs|]. split; [exact Hin|]. split; [reflexivity|].
  destruct (cache_read_returns_matching_rows Sample.healthy (Str "EXAMPLE") w)
    as [l [w' [Hrun [_ [_ [_ [_ [_ [Hnone _]]]]]]]]].
  rewrite Hrun. cbn [fst]. f_equal.
  exact (Hnone Hs Sample.example_com Hin eq_refl).
Defined.

Lemma stats_account_for_the_table_witness :
  let t := [Sample.example_com; Sample.test_org] in
  t <> [] /\ Forall known_status t /\
  exists a s d u e m,
    sync_stats t = mkSyncStats 2 (Some a) (Some s) (Some d) (Some u)
                     (Some e) (Some m) /\
    (a + s + d + u = 2)%nat /\ e = O.
Proof.
  intros t.
  assert (Hne : t <> []) by discriminate.
  assert (Hknown : Forall known_status t).
  { constructor; [left; reflexivity|].
    constructor; [right; right; right; reflexivity|]. constructor. }
  split; [exact Hne|]. split; [exact Hknown|].
  destruct (proj2 (proj2 (proj2
              (stats_account_for_the_table Sample.healthy (new_client t))))
              t Hne)
    as [a [s [d [u [e [m [Hstats [_ [_ [Hsum [_ [He _]]]]]]]]]]]].
  exists a, s, d, u, e, m. split; [exact Hstats|].
  split; [exact (Hsum Hknown) | exact He].
Defined.

Lemma refresh_stores_the_listing_in_order_witness :
  let w := new_client [Sample.stale] in
  let w' := snd (refreshDomains Sample.healthy w) in
  dbPool w = true /\
  NoDup (map d_id (fresh_listing Sample.healthy w)) /\
  fst (refreshDomains Sample.healthy w) = Ret (FetchOk 2) /\
  map id (cache w') = [1; 2]%Z /\
  List.length (cache w') = 2%nat /\
  Forall fresh_row (cache w').
Proof.
  intros w w'.
  assert (Hnd : NoDup (map d_id (fresh_listing Sample.healthy w)))
    by (simpl; repeat constructor; simpl; intuition discriminate).
  split; [reflexivity|]. split; [exact Hnd|]. split; [reflexivity|].
  exact (proj2 (refresh_stores_the_listing_in_order Sample.healthy w 2
                  eq_refl Hnd eq_refl)).
Defined.

Lemma refresh_then_sync_enriches_every_row_witness :
  let w := new_client [Sample.stale] in
  let w' := run_steps Sample.healthy [Refresh; Settle] w in
  (forall k, db_fault Sample.healthy k = None) /\
  NoDup (map d_id (fresh_listing Sample.healthy w)) /\
  fst (refreshDomains Sample.healthy w) = Ret (FetchOk 2) /\
  map id (cache w') = [1; 2]%Z /\
  List.length (cache w') = 2%nat /\
  statusSyncRunning w' = false /\ pending w' = O /\
  forall r, In r (cache w') ->
    sync_error r = None /\
    exists k,
      status r =
      status_of_response
        (upstream Sample.healthy k (GetDomainStatus (id r))).
Proof.
  intros w w'.
  assert (Hf : forall k, db_fault Sample.healthy k = None) by reflexivity.
  assert (Hnd : NoDup (map d_id (fresh_listing Sample.healthy w)))
    by (simpl; repeat constructor; simpl; intuition discriminate).
  split; [exact Hf|]. split; [exact Hnd|]. split; [reflexivity|].
  exact (refresh_then_sync_enriches_every_row Sample.healthy w 2
           eq_refl eq_refl eq_refl Hf Hnd eq_refl).
Defined.

Lemma cache_listing_answers_witness :
  let s := mkServer (new_client [Sample.example_com; Sample.test_org]) [] in
  let r := listDomainsFromCache Sample.healthy (Str "nothing-like-it") s in
  store_answers Sample.healthy (client s) /\
  matching_rows Sample.healthy (Str "nothing-like-it") (cache (client s))
    = [] /\
  fst r = Ret SyncInitiated /\
  pendingSyncs (snd r) = [Sample.two_domains] /\
  api_calls (client (snd r)) = 1%nat /\
  trace (client (snd r)) = [Api (GetDomains None)].
Proof.
  intros s r.
  assert (Hs : store_answers Sample.healthy (client s))
    by (split; [reflexivity | split; reflexivity]).
  split; [exact Hs|]. split; [reflexivity|].
  exact (proj1 (proj1 (proj2
           (cache_listing_answers Sample.healthy (Str "nothing-like-it") s))
           Hs) eq_refl).
Defined.

Lemma plain_setup_decodes : decodes_plain plain_setup.
Proof. intros s Hs. cbn. now rewrite Hs. Qed.

Lemma metadata_route_is_never_reached_witness :
  decodes_plain plain_setup /\
  match_path [Lit "domains"; Lit "metadata"] "/Domains/METADATA/" = Some [] /\
  handles GET GET = true /\
  respond plain_setup GET "/Domains/METADATA/" =
    Some (domain_route, Json 400 "Invalid domain ID. Must be a number.").
Proof.
  split; [exact plain_setup_decodes|]. split; [reflexivity|].
  split; [reflexivity|].
  destruct (proj1 (proj2 (metadata_route_is_never_reached plain_setup))
              GET "/Domains/METADATA/" [] plain_setup_decodes eq_refl eq_refl)
    as [i [_ [_ Hr]]].
  exact Hr.
Defined.

Lemma domain_id_is_checked_by_its_prefix_witness :
  decodes_plain plain_setup /\
  respond plain_setup GET "/domains/12abc"
    = Some (domain_route, Continue false) /\
  respond plain_setup POST "/domains/12abc" = None.
Proof.
  split; [exact plain_setup_decodes|].
  pose proof (domain_id_is_checked_by_its_prefix plain_setup
                plain_setup_decodes "1" "2abc" eq_refl eq_refl
                ltac:(discriminate) eq_refl eq_refl) as H.
  split; [exact (proj1 H) | exact (proj1 (proj2 (proj2 (proj2 (proj2 H)))))].
Defined.

Lemma sync_notice_is_followed_by_data_witness :
  let s := mkServer (new_client []) [] in
  let s1 := snd (listDomainsFromCache Sample.healthy Null s) in
  let s2 := settle_background Sample.healthy s1 in
  (forall j, db_fault Sample.healthy j = None) /\
  NoDup (map d_id [Sample.item 1 "example.com"; Sample.item 2 "test.org"]) /\
  fst (listDomainsFromCache Sample.healthy Null s) = Ret SyncInitiated /\
  backgroundSyncs s2 = O /\
  exists now,
    In (batch_values now "test.org" (Sample.item 2 "test.org") "active" None)
       (cache (client s2)).
Proof.
  intros s s1 s2.
  assert (Hf : forall j, db_fault Sample.healthy j = None) by reflexivity.
  assert (Hnd : NoDup (map d_id [Sample.item 1 "example.com";
                                 Sample.item 2 "test.org"]))
    by (simpl; repeat constructor; simpl; intuition discriminate).
  split; [exact Hf|]. split; [exact Hnd|].
  destruct (sync_notice_is_followed_by_data Sample.healthy Null s
              (PArray [Sample.item 1 "example.com"; Sample.item 2 "test.org"])
              200 Hf eq_refl eq_refl eq_refl eq_refl Hnd)
    as [Hnotice [_ [Hnone Hrows]]].
  split; [exact Hnotice|]. split; [exact Hnone|].
  exact (Hrows 1%nat (Sample.item 2 "test.org") "test.org" eq_refl eq_refl).
Defined.
